(** * STIR asset encoders: ADPCM audio and DUB tile compression

    A shallow embedding of [stir/src/audioencoder.cpp] and
    [stir/src/dubencoder.cpp], followed by the properties of the encoders
    that the specification states.

    Machine integers are modelled as [Z] with the wrap-around of every
    conversion written out ([wrap_u8], [wrap_s16], ...).  Byte vectors
    ([std::vector<uint8_t>]) are lists of [Byte.byte]; word vectors
    ([std::vector<uint16_t>]) are lists of [Z] that the code wraps to 16 bits
    whenever it stores into them. *)

From Stdlib Require Import ZArith List Lia.
From Stdlib Require Import Strings.Byte.
From stdpp Require Import base option list numbers gmap.

Local Open Scope Z_scope.

(** ** Fixed-width integers *)

Definition wrap_u8 (z : Z) : Z := z mod 2 ^ 8.
Definition wrap_u16 (z : Z) : Z := z mod 2 ^ 16.
Definition wrap_u32 (z : Z) : Z := z mod 2 ^ 32.
Definition wrap_u64 (z : Z) : Z := z mod 2 ^ 64.
Definition wrap_s8 (z : Z) : Z := (z + 2 ^ 7) mod 2 ^ 8 - 2 ^ 7.
Definition wrap_s16 (z : Z) : Z := (z + 2 ^ 15) mod 2 ^ 16 - 2 ^ 15.
Definition wrap_s32 (z : Z) : Z := (z + 2 ^ 31) mod 2 ^ 32 - 2 ^ 31.

(** [uint8_t] values stored in a byte vector. *)
Definition byte_of_Z (z : Z) : byte :=
  default Byte.x00 (Byte.of_N (Z.to_N (wrap_u8 z))).
Definition Z_of_byte (b : byte) : Z := Z.of_N (Byte.to_N b).

(** [v[i]] on a vector; reading past the end is undefined in the source and
    yields the given default here. *)
Definition vec_get {A} (d : A) (v : list A) (i : Z) : A :=
  if i <? 0 then d else nth (Z.to_nat i) v d.

(** [v.insert(pos, first, last)] of [std::vector]. *)
Definition vector_insert {A} (v : list A) (pos : nat) (xs : list A) : list A :=
  take pos v ++ xs ++ drop pos v.

(** ** PCM passthrough *)

Module PCM.

(** [PCMEncoder::encode]: [out.insert(out.end(), in.begin(), in.end())]. *)
Definition encode (inp out : list byte) : list byte :=
  vector_insert out (length out) inp.

End PCM.

(** ** ADPCM encoder *)

Module ADPCM.

(** Modelled from the spec: the constant [HEADER_SIZE] is declared in
    [audioencoder.h], which is not part of the sources at hand; the header
    is 3 bytes long. *)
Definition HEADER_SIZE : Z := 3.

(** Modelled from the spec: the constant [INDEX_MAX] is declared in
    [audioencoder.h]; the step index ranges over [0, 88], the positions of
    the 89 entries of [stepSizeTable], and [encodeSample] clamps to it. *)
Definition INDEX_MAX : Z := 88.

(** Modelled from the spec: the structure [State] is declared in
    [audioencoder.h]; it holds the signed 16-bit predictor [sample] and the
    step index [index]. *)
Record State := mkState { sample : Z; index : Z }.

Definition stepSizeTable : list Z :=
  [ 7; 8; 9; 10; 11; 12; 13; 14; 16; 17; 19; 21; 23; 25; 28; 31;
    34; 37; 41; 45; 50; 55; 60; 66; 73; 80; 88; 97; 107; 118; 130;
    143; 157; 173; 190; 209; 230; 253; 279; 307; 337; 371; 408; 449;
    494; 544; 598; 658; 724; 796; 876; 963; 1060; 1166; 1282; 1411;
    1552; 1707; 1878; 2066; 2272; 2499; 2749; 3024; 3327; 3660; 4026;
    4428; 4871; 5358; 5894; 6484; 7132; 7845; 8630; 9493; 10442; 11487;
    12635; 13899; 15289; 16818; 18500; 20350; 22385; 24623; 27086; 29794;
    32767 ].

(** [static const int codeTable[16]]: each literal is converted to [int]. *)
Definition codeTable : list Z :=
  map wrap_s32
    [ 0xFFFFFF01; 0xFFFFFF03; 0xFFFFFF05; 0xFFFFFF07;
      0x00000209; 0x0000040B; 0x0000060D; 0x0000080F;
      0xFFFFFFFF; 0xFFFFFFFD; 0xFFFFFFFB; 0xFFFFFFF9;
      0x000002F7; 0x000004F5; 0x000006F3; 0x000008F1 ].

(** [int(unsigned(int8_t(codeTable[code])) * unsigned(step)) >> 3]: the
    product is formed in unsigned 32-bit arithmetic, converted to [int], and
    the shift is applied to that signed value. *)
Definition thisDiff (step code : Z) : Z :=
  Z.shiftr
    (wrap_s32 (wrap_u32 (wrap_u32 (wrap_s8 (vec_get 0 codeTable code))
                         * wrap_u32 step)))
    3.

(** [std::max(a - diff, diff - a)] *)
Definition errorOf (diff a : Z) : Z := Z.max (a - diff) (diff - a).

(** One iteration of the candidate loop; the accumulator is
    [(bestCode, bestDiff)]. *)
Definition tryCode (step diff : Z) (best : Z * Z) (code : Z) : Z * Z :=
  let d := thisDiff step code in
  let thisError := errorOf diff d in
  let bestError := errorOf diff (snd best) in
  if thisError <=? bestError then (code, d) else best.

Definition bestOf (step diff : Z) (ncodes : nat) : Z * Z :=
  fold_left (tryCode step diff) (seqZ 0 (Z.of_nat ncodes)) (0, 0x100000).

(** [ADPCMEncoder::encodeSample]: the new state and the nybble. *)
Definition encodeSample (st : State) (s : Z) : State * Z :=
  let idx := index st in
  let step := vec_get 0 stepSizeTable idx in
  let prevSample := sample st in
  let diff := s - prevSample in
  let '(bestCode, bestDiff) := bestOf step diff 16 in
  let sample' := Z.min 32767 (Z.max (-32768) (prevSample + bestDiff)) in
  let idx' := idx + Z.shiftr (vec_get 0 codeTable bestCode) 8 in
  (mkState sample' (Z.min INDEX_MAX (Z.max 0 idx')), bestCode).

(** [ADPCMEncoder::encodePair]: new state, error contribution and output. *)
Definition encodePair (st : State) (s1 s2 : Z) (out : list byte)
  : State * Z * list byte :=
  let '(st1, n1) := encodeSample st s1 in
  let e1 := sample st1 - s1 in
  let '(st2, n2) := encodeSample st1 s2 in
  let e2 := sample st2 - s2 in
  (st2, wrap_u64 (e1 * e1 + e2 * e2),
   out ++ [byte_of_Z (Z.lor n1 (Z.shiftl n2 4))]).

(** [inPtr[k]]: the vector's bytes read as little-endian [int16_t]. *)
Definition readSample (inp : list byte) (k : nat) : Z :=
  wrap_s16 (Z.lor (Z_of_byte (nth (2 * k) inp Byte.x00))
                  (Z.shiftl (Z_of_byte (nth (2 * k + 1) inp Byte.x00)) 8)).

(** The loop [while (numPairs--)]; [p] is the position of [inPtr]. *)
Fixpoint encodePairs (numPairs : nat) (inp : list byte) (p : nat)
    (st : State) (error : Z) (out : list byte) : nat * State * Z * list byte :=
  match numPairs with
  | O => (p, st, error, out)
  | S n =>
      let s1 := readSample inp p in
      let s2 := readSample inp (S p) in
      let '(st', e, out') := encodePair st s1 s2 out in
      encodePairs n inp (S (S p)) st' (wrap_u64 (error + e)) out'
  end.

(** [ADPCMEncoder::encodeWithIC], keeping the final codec state as well. *)
Definition encodeWithIC_run (st : State) (inp : list byte) (inBytes : Z)
  : State * Z * list byte :=
  let numSamples := inBytes / 2 in
  let numPairs := numSamples / 2 in
  let out :=
    [ byte_of_Z (sample st); byte_of_Z (Z.shiftr (sample st) 8);
      byte_of_Z (index st) ] in
  let '(p, st1, error, out1) :=
    encodePairs (Z.to_nat numPairs) inp 0 st 0 out in
  if Z.testbit numSamples 0 then
    let s1 := readSample inp p in
    let '(st2, e, out2) := encodePair st1 s1 s1 out1 in
    (st2, wrap_u64 (error + e), out2)
  else (st1, error, out1).

(** The returned error metric and the bytes left in [out]. *)
Definition encodeWithIC (st : State) (inp : list byte) (inBytes : Z)
  : Z * list byte :=
  let '(_, error, out) := encodeWithIC_run st inp inBytes in (error, out).

(** The codec states reached after each call of [encodeSample] made by
    [encodePair], [encodePairs] and [encodeWithIC], in call order. *)
Definition encodePair_states (st : State) (s1 s2 : Z) : list State :=
  let st1 := fst (encodeSample st s1) in
  [st1; fst (encodeSample st1 s2)].

Fixpoint encodePairs_states (numPairs : nat) (inp : list byte) (p : nat)
    (st : State) : list State :=
  match numPairs with
  | O => []
  | S n =>
      let s1 := readSample inp p in
      let s2 := readSample inp (S p) in
      let sts := encodePair_states st s1 s2 in
      sts ++ encodePairs_states n inp (S (S p)) (List.last sts st)
  end.

Definition encodeWithIC_states (st : State) (inp : list byte) (inBytes : Z)
  : list State :=
  let numSamples := inBytes / 2 in
  let numPairs := Z.to_nat (numSamples / 2) in
  let sts := encodePairs_states numPairs inp 0 st in
  if Z.testbit numSamples 0 then
    let s1 := readSample inp (2 * numPairs) in
    sts ++ encodePair_states (List.last sts st) s1 s1
  else sts.

(** The exhaustive loop over the initial index in [optimizeIC]:
    [for (state.index = 0; state.index < INDEX_MAX; state.index++)].
    The accumulator is [(error, bestIndex)]. *)
Definition tryIndex (smp : Z) (inp : list byte) (inBytes : Z)
    (acc : Z * Z) (idx : Z) : Z * Z :=
  let nextError := fst (encodeWithIC (mkState smp idx) inp inBytes) in
  if nextError <? fst acc then (nextError, idx) else acc.

Definition searchIndex (smp : Z) (inp : list byte) (inBytes : Z) : Z * Z :=
  fold_left (tryIndex smp inp inBytes) (seqZ 0 INDEX_MAX) (wrap_u64 (-1), 0).

(** The hill-climbing loop [for (;;)] of [optimizeIC].  The loop runs until
    no unit move lowers the error; [fuel] bounds the number of iterations
    and [None] means it was exhausted.  The predictor is a signed 16-bit
    field, so [state.sample += 1] and [state.sample -= 2] wrap to 16 bits. *)
Fixpoint hillClimb (fuel : nat) (inp : list byte) (inBytes : Z)
    (st : State) (error : Z) : option State :=
  match fuel with
  | O => None
  | S fuel' =>
      let err s := fst (encodeWithIC s inp inBytes) in
      let st1 := mkState (wrap_s16 (sample st + 1)) (index st) in
      if err st1 <? error then hillClimb fuel' inp inBytes st1 (err st1) else
      let st2 := mkState (wrap_s16 (sample st1 - 2)) (index st1) in
      if err st2 <? error then hillClimb fuel' inp inBytes st2 (err st2) else
      let st3 := mkState (wrap_s16 (sample st2 + 1)) (index st2) in
      let up := mkState (sample st3) (index st3 + 1) in
      if (index st3 <? INDEX_MAX) && (err up <? error)
      then hillClimb fuel' inp inBytes up (err up) else
      let down := mkState (sample st3) (index st3 - 1) in
      if (0 <? index st3) && (err down <? error)
      then hillClimb fuel' inp inBytes down (err down) else
      Some st3
  end.

(** [ADPCMEncoder::optimizeIC] *)
Definition optimizeIC (fuel : nat) (inp : list byte) : option State :=
  if Z.of_nat (length inp) <? 4 then Some (mkState 0 0)
  else
    let smp :=
      wrap_s16 (Z.lor (Z_of_byte (nth 0 inp Byte.x00))
                      (Z.shiftl (Z_of_byte (nth 1 inp Byte.x00)) 8)) in
    let inBytes := Z.min (wrap_u32 (100 * 2)) (wrap_u32 (Z.of_nat (length inp))) in
    let '(error, bestIndex) := searchIndex smp inp inBytes in
    hillClimb fuel inp inBytes (mkState smp bestIndex) error.

(** [ADPCMEncoder::encode]; [out] is cleared by [encodeWithIC]. *)
Definition encode (fuel : nat) (inp : list byte) : option (list byte) :=
  match optimizeIC fuel inp with
  | Some st => Some (snd (encodeWithIC st inp (wrap_u32 (Z.of_nat (length inp)))))
  | None => None
  end.

End ADPCM.

(** ** DUB tile encoder *)

Module DUB.

(** *** Bit buffer *)

(** Modelled from the spec: the class [BitBuffer] is declared in a header
    that is not part of the sources at hand.  The buffer is the sequence of
    bits not yet flushed, lowest-numbered position first.  [append] places
    the low [n] bits of [value], most significant of them first; [appendVar]
    emits [chunk]-bit groups, least significant group first, each preceded by
    a continuation flag; [flush] moves whole 16-bit words to the target and,
    when [final], also the remaining bits padded with zeros. *)
Definition BitBuffer := list bool.

(** Modelled from the spec: [BitBuffer::append(value, n)] places the low [n]
    bits of [value] after the buffered ones, the most significant first. *)
Definition append (value n : Z) (bits : BitBuffer) : BitBuffer :=
  bits ++ map (Z.testbit value) (rev (seqZ 0 n)).

(** Modelled from the spec: the loop of [BitBuffer::appendVar]: a
    continuation flag, then the low [chunk] bits, until no bits are left.
    The value is a 32-bit quantity, so 32 groups always suffice. *)
Fixpoint appendVar_loop (groups : nat) (value chunk : Z) (bits : BitBuffer)
  : BitBuffer :=
  match groups with
  | O => bits
  | S g =>
      let rest := Z.shiftr value chunk in
      let more := negb (rest =? 0) in
      let bits1 := append (Z.b2z more) 1 bits in
      let bits2 := append (Z.land value (Z.ones chunk)) chunk bits1 in
      if more then appendVar_loop g rest chunk bits2 else bits2
  end.

(** Modelled from the spec: [BitBuffer::appendVar(value, chunk)]; at least
    one group is emitted. *)
Definition appendVar (value chunk : Z) (bits : BitBuffer) : BitBuffer :=
  appendVar_loop 32 value chunk bits.

(** Modelled from the spec: [BitBuffer::getCount()], the number of bits
    currently buffered. *)
Definition getCount (bits : BitBuffer) : Z := Z.of_nat (length bits).

(** Modelled from the spec: the 16-bit word made of up to 16 buffered bits;
    bit [i] of the word is the [i]-th of them and missing bits are zero. *)
Definition word_of_bits (l : list bool) : Z :=
  fold_right (fun b acc => Z.b2z b + 2 * acc) 0 l.

(** Modelled from the spec: the loop of [BitBuffer::flush] that moves whole
    words to the target; at most [n] words are moved. *)
Fixpoint flush_words (n : nat) (bits : BitBuffer) (into : list Z)
  : BitBuffer * list Z :=
  match n with
  | O => (bits, into)
  | S n' =>
      if (16 <=? length bits)%nat
      then flush_words n' (drop 16 bits) (into ++ [word_of_bits (take 16 bits)])
      else (bits, into)
  end.

(** Modelled from the spec: [BitBuffer::flush(into, final)]; the result is
    the buffer left and the target. *)
Definition flush (final : bool) (bits : BitBuffer) (into : list Z)
  : BitBuffer * list Z :=
  let '(rest, into') := flush_words (length bits) bits into in
  match rest with
  | [] => (rest, into')
  | _ :: _ => if final then ([], into' ++ [word_of_bits rest]) else (rest, into')
  end.

(** *** Codes *)

(** Modelled from the spec: the code types of [struct Code], declared in
    [dubencoder.h], which is not part of the sources at hand. *)
Inductive CodeType := DELTA | REF | REPEAT | INVALID.

#[global] Instance CodeType_eq_dec : EqDecision CodeType.
Proof. solve_decision. Defined.

(** Modelled from the spec: [struct Code], declared in [dubencoder.h]: a
    [type] and an [int] [value]. *)
Record Code := mkCode { type : CodeType; value : Z }.

#[global] Instance Code_eq_dec : EqDecision Code.
Proof. solve_decision. Defined.

(** [DUBEncoder::packCode] *)
Definition packCode (code : Code) (bits : BitBuffer) : BitBuffer :=
  let chunk := 3 in
  match type code with
  | DELTA =>
      let bits1 := append 0 1 bits in
      if value code <? 0
      then appendVar (- value code) chunk (append 1 1 bits1)
      else appendVar (value code) chunk (append 0 1 bits1)
  | REF => appendVar (value code) chunk (append 1 1 bits)
  | REPEAT => appendVar (value code) chunk bits
  | INVALID => bits
  end.

(** [DUBEncoder::codeLen] *)
Definition codeLen (code : Code) : Z := getCount (packCode code []).

(** The back-reference scan of [findBestCode]; [cands] are the values of [i]
    still to try. *)
Fixpoint scanRef (cands : list Z) (dict : list Z) (tile : Z)
    (code : Code) (bestLength : Z) : Code :=
  match cands with
  | [] => code
  | i :: rest =>
      if tile =? vec_get 0 dict (Z.of_nat (length dict) - 1 - i) then
        let candidate := mkCode REF i in
        let len := codeLen candidate in
        if len <=? bestLength then candidate
        else scanRef rest dict tile code bestLength
      else scanRef rest dict tile code bestLength
  end.

(** [DUBEncoder::findBestCode] *)
Definition findBestCode (dict : list Z) (tile : Z) : Code :=
  let code :=
    match dict with
    | [] => mkCode DELTA tile
    | _ :: _ => mkCode DELTA (tile - List.last dict 0)
    end in
  scanRef (seqZ 0 (Z.of_nat (length dict))) dict tile code (codeLen code).

(** *** Blocks *)

(** The local variables of [encodeBlock]. *)
Record BlockState := mkBlock {
  bits : BitBuffer;
  data : list Z;
  dict : list Z;
  prevCode : Code;
  repeatCount : Z;
  repeating : bool
}.

(** [packCode(code, bits); bits.flush(data);] *)
Definition emit (code : Code) (st : BlockState) : BlockState :=
  let '(b, d) := flush false (packCode code (bits st)) (data st) in
  mkBlock b d (dict st) (prevCode st) (repeatCount st) (repeating st).

(** The body of the tile loop of [encodeBlock]. *)
Definition encodeTile (st : BlockState) (tile : Z) : BlockState :=
  let code := findBestCode (dict st) tile in
  let sameCode :=
    bool_decide (type code = type (prevCode st))
    && (value code =? value (prevCode st)) in
  let st1 :=
    mkBlock (bits st) (data st) (dict st ++ [tile]) code
            (repeatCount st) (repeating st) in
  if repeating st1 then
    if sameCode then
      mkBlock (bits st1) (data st1) (dict st1) (prevCode st1)
              (wrap_u32 (repeatCount st1 + 1)) (repeating st1)
    else
      let st2 := emit (mkCode REPEAT (wrap_s32 (repeatCount st1))) st1 in
      emit code
        (mkBlock (bits st2) (data st2) (dict st2) (prevCode st2)
                 (repeatCount st2) false)
  else if sameCode then
    emit code
      (mkBlock (bits st1) (data st1) (dict st1) (prevCode st1) 0 true)
  else emit code st1.

Definition initBlock : BlockState :=
  mkBlock [] [] [] (mkCode INVALID 0) 0 false.

(** The steps after the tile loop: the stowed REPEAT and the final flush. *)
Definition finishBlock (st : BlockState) : list Z :=
  let bits1 :=
    if repeating st
    then packCode (mkCode REPEAT (wrap_s32 (repeatCount st))) (bits st)
    else bits st in
  snd (flush true bits1 (data st)).

(** The tiles [pTopLeft[x + y*mWidth]] in the order the loops visit them.
    The pointer [pTopLeft] is the function from an offset to the tile there. *)
Definition blockTiles (pTopLeft : Z -> Z) (mWidth width height : Z) : list Z :=
  y ← seqZ 0 height;
  x ← seqZ 0 width;
  [wrap_u16 (pTopLeft (wrap_u32 (x + wrap_u32 (y * mWidth))))].

(** [DUBEncoder::encodeBlock] *)
Definition encodeBlock (pTopLeft : Z -> Z) (mWidth width height : Z) : list Z :=
  finishBlock
    (fold_left encodeTile (blockTiles pTopLeft mWidth width height) initBlock).

(** *** The encoder object *)

Definition BLOCK_SIZE : Z := 8.

(** Modelled from the spec: the class [DUBEncoder] is declared in
    [dubencoder.h], which is not part of the sources at hand; these are the
    members that the functions of [dubencoder.cpp] read and write: three
    [unsigned] dimensions, the index width and the two result vectors of
    [uint16_t]. *)
Record DUBEncoder := mkDUB {
  mWidth : Z;
  mHeight : Z;
  mFrames : Z;
  mIndex16 : bool;
  indexResult : list Z;
  blockResult : list Z
}.

(** The values [0, BLOCK_SIZE, 2*BLOCK_SIZE, ...] below [limit]: the loops
    [for (unsigned y = 0; y < limit; y += BLOCK_SIZE)].  The loop runs at
    most [limit] times, which is the bound [n] it is called with. *)
Fixpoint blockStarts (n : nat) (y limit : Z) : list Z :=
  match n with
  | O => []
  | S n' =>
      if y <? limit then y :: blockStarts n' (wrap_u32 (y + BLOCK_SIZE)) limit
      else []
  end.

(** The encoded payload of every block, in the order of the three loops of
    [encodeTiles]; [rd i] is [tiles[i]]. *)
Definition blockPayloadsFrom (rd : Z -> Z) (w h frames : Z) : list (list Z) :=
  f ← seqZ 0 frames;
  y ← blockStarts (Z.to_nat h) 0 h;
  x ← blockStarts (Z.to_nat w) 0 w;
  [encodeBlock
     (fun k => rd (wrap_u32 (wrap_u32 (x + wrap_u32 (y * w))
                             + wrap_u32 (wrap_u32 (f * w) * h)) + k))
     w
     (Z.min BLOCK_SIZE (wrap_u32 (w - x)))
     (Z.min BLOCK_SIZE (wrap_u32 (h - y)))].

(** The deduplication state: the memo, [indexResult] and [blockResult]. *)
Record Dedupe := mkDedupe {
  dedupeMemo : gmap (list Z) Z;
  dIndex : list Z;
  dBlocks : list Z
}.

(** The body of the block loop after [encodeBlock] has run. *)
Definition addBlock (st : Dedupe) (blockData : list Z) : Dedupe :=
  match dedupeMemo st !! blockData with
  | None =>
      let addr := wrap_u16 (Z.of_nat (length (dBlocks st))) in
      mkDedupe (<[blockData := addr]> (dedupeMemo st))
               (dIndex st ++ [addr])
               (dBlocks st ++ blockData)
  | Some a => mkDedupe (dedupeMemo st) (dIndex st ++ [a]) (dBlocks st)
  end.

Definition dedupe (payloads : list (list Z)) : Dedupe :=
  fold_left addBlock payloads (mkDedupe ∅ [] []).

(** [DUBEncoder::getIndexSize] *)
Definition getIndexSize (e : DUBEncoder) : Z :=
  let s := wrap_u32 (Z.of_nat (length (indexResult e))) in
  if mIndex16 e then s else wrap_u32 (s + 1) / 2.

(** The word after the slot of entry [i], as [packIndex] computes it. *)
Definition nextWord (e : DUBEncoder) (i : Z) : Z :=
  if mIndex16 e then wrap_u32 (i + 1) else wrap_u32 (i + 2) / 2.

(** [DUBEncoder::packIndex] *)
Definition packIndex (e : DUBEncoder) (i : Z) : Z :=
  wrap_u32 (wrap_u32 (getIndexSize e + vec_get 0 (indexResult e) i)
            - nextWord e i).

(** The encoder with the index width forced to [b]. *)
Definition withIndex16 (e : DUBEncoder) (b : bool) : DUBEncoder :=
  mkDUB (mWidth e) (mHeight e) (mFrames e) b (indexResult e) (blockResult e).

(** The scan that ends [encodeTiles]: [mIndex16] is cleared, then set as
    soon as one packed entry does not fit 8 bits. *)
Definition scanIndex (e : DUBEncoder) : DUBEncoder :=
  let e0 := withIndex16 e false in
  let E := wrap_u32 (Z.of_nat (length (indexResult e0))) in
  withIndex16 e0 (existsb (fun I => 0x100 <=? packIndex e0 I) (seqZ 0 E)).

(** [DUBEncoder::encodeTiles] on a freshly constructed encoder, whose
    members [mWidth], [mHeight] and [mFrames] are [unsigned] and whose
    result vectors are empty; [rd i] is [tiles[i]]. *)
Definition encodeTilesFrom (rd : Z -> Z) (width height frames : Z) : DUBEncoder :=
  let w := wrap_u32 width in
  let h := wrap_u32 height in
  let f := wrap_u32 frames in
  let d := dedupe (blockPayloadsFrom rd w h f) in
  scanIndex (mkDUB w h f false (dIndex d) (dBlocks d)).

Definition encodeTiles (width height frames : Z) (tiles : list Z) : DUBEncoder :=
  encodeTilesFrom (vec_get 0 tiles) width height frames.

(** The payloads of the blocks of an input, in block order. *)
Definition blockPayloads (width height frames : Z) (tiles : list Z)
  : list (list Z) :=
  blockPayloadsFrom (vec_get 0 tiles)
    (wrap_u32 width) (wrap_u32 height) (wrap_u32 frames).

(** [DUBEncoder::isTooLarge] *)
Definition isTooLarge (e : DUBEncoder) : bool :=
  0x10000 <=? wrap_u32 (getIndexSize e + Z.of_nat (length (blockResult e))).

(** [DUBEncoder::isIndex16] *)
Definition isIndex16 (e : DUBEncoder) : bool := mIndex16 e.

(** [DUBEncoder::getNumBlocks] *)
Definition getNumBlocks (e : DUBEncoder) : Z :=
  wrap_u32 (wrap_u32 (wrap_u32 (wrap_u32 (mWidth e + BLOCK_SIZE) - 1) / BLOCK_SIZE
                      * (wrap_u32 (wrap_u32 (mHeight e + BLOCK_SIZE) - 1) / BLOCK_SIZE))
            * mFrames e).

(** Pairs of bytes packed into little-endian words. *)
Fixpoint packWords (index8 : list Z) : list Z :=
  match index8 with
  | lo :: hi :: rest => wrap_u16 (Z.lor lo (Z.shiftl hi 8)) :: packWords rest
  | _ => []
  end.

(** The index region written by [getResult]. *)
Definition packedIndex (e : DUBEncoder) : list Z :=
  let E := wrap_u32 (Z.of_nat (length (indexResult e))) in
  if mIndex16 e then
    map (fun I => wrap_u16 (packIndex e I)) (seqZ 0 E)
  else
    let index8 := map (fun I => wrap_u8 (packIndex e I)) (seqZ 0 E) in
    packWords (if Nat.odd (length index8) then index8 ++ [0] else index8).

(** [DUBEncoder::getResult] *)
Definition getResult (e : DUBEncoder) (result : list Z) : list Z :=
  vector_insert (result ++ packedIndex e)
                (length (result ++ packedIndex e)) (blockResult e).

End DUB.

(** ** Notions used in the statements *)

Section ADPCMNotions.
Import ADPCM.

(** The multiplier [m(c)]: the low byte of the table entry as [int8_t]. *)
Definition multiplier (c : Z) : Z := wrap_s8 (vec_get 0 codeTable c).

(** The candidate delta as the specification words it: an unsigned
    product, a logical shift, and only then the conversion to [int]. *)
Definition claimedDelta (step code : Z) : Z :=
  wrap_s32
    (Z.shiftr (wrap_u32 (wrap_u32 (wrap_s8 (vec_get 0 codeTable code))
                         * wrap_u32 step)) 3).

(** The ranges of the codec state. *)
Definition state_ok (st : State) : Prop :=
  -32768 <= sample st <= 32767 /\ 0 <= index st <= 88.

(** What the candidate loop holds after the codes [0 .. n-1], once a
    candidate has been accepted. *)
Definition chosen (step diff : Z) (n : nat) (r : Z * Z) : Prop :=
  0 <= r.1 < Z.of_nat n
  /\ r.2 = thisDiff step r.1
  /\ forall c, 0 <= c < Z.of_nat n ->
       errorOf diff r.2 <= errorOf diff (thisDiff step c)
       /\ (errorOf diff (thisDiff step c) = errorOf diff r.2 -> c <= r.1).

(** The input on which the search for the initial index goes wrong: the two
    samples -32768 and 32767. *)
Definition swing : list byte := [Byte.x00; Byte.x80; Byte.xff; Byte.x7f].

End ADPCMNotions.

Section DUBNotions.
Import DUB.

Local Abbreviation payload := (list Z).

(** The words and bits written so far by a block. *)
Definition emittedBits (st : BlockState) : Z :=
  16 * Z.of_nat (length (data st)) + getCount (bits st).

(** The state of a block after its first two tiles when both are 0: the
    codes DELTA 0 and REF 0 have been written and no run is active. *)
Definition afterTwoZeros : BlockState := fold_left encodeTile [0; 0] initBlock.

(** The distinct payloads of a list of blocks, in the order in which they
    first occur: a payload is kept unless it has been kept before. *)
Definition keepNew (kept : list payload) (p : payload) : list payload :=
  if decide (p ∈ kept) then kept else kept ++ [p].

Definition firstOccurrences (ps : list payload) : list payload :=
  fold_left keepNew ps [].

(** The word offset at which [p] starts in the concatenation of [us]. *)
Fixpoint offsetOf (us : list payload) (p : payload) : Z :=
  match us with
  | [] => 0
  | u :: us' =>
      if decide (u = p) then 0 else Z.of_nat (length u) + offsetOf us' p
  end.

(** The state of the block loop after the payloads [ps]. *)
Definition dedupe_inv (ps : list payload) (st : Dedupe) : Prop :=
  let us := firstOccurrences ps in
  dBlocks st = concat us
  /\ dIndex st = map (fun p => wrap_u16 (offsetOf us p)) ps
  /\ forall p, dedupeMemo st !! p
               = if decide (p ∈ ps) then Some (wrap_u16 (offsetOf us p)) else None.

(** The payload of a block made of the single tile [t]. *)
Definition singleTile (t : Z) : list Z :=
  finishBlock (encodeTile initBlock (wrap_u16 t)).

(** The bits of a variable-length integer with chunk size 3. *)
Definition varBits (g : nat) (v : Z) : BitBuffer := appendVar_loop g v 3 [].

(** The 32768 tiles with the top bit set, each once, followed by a tile 0:
    as one-tile frames they make 32768 distinct two-word blocks and one
    more block. *)
Definition largeTiles : list Z := seqZ 32768 32768 ++ [0].

End DUBNotions.

(** ** Notions used in the further statements *)

Section ADPCMStreamNotions.
Import ADPCM.

(** The three header bytes written by [encodeWithIC]. *)
Definition headerOf (st : State) : list byte :=
  [byte_of_Z (sample st); byte_of_Z (Z.shiftr (sample st) 8);
   byte_of_Z (index st)].

(** The samples handed to [encodeSample] during [encodeWithIC], in call
    order: the complete pairs, then the last sample twice when the number of
    samples is odd. *)
Definition fedSamples (inp : list byte) (inBytes : Z) : list Z :=
  let numSamples := inBytes / 2 in
  let numPairs := Z.to_nat (numSamples / 2) in
  map (readSample inp) (seq 0 (2 * numPairs))
  ++ (if Z.testbit numSamples 0
      then [readSample inp (2 * numPairs); readSample inp (2 * numPairs)]
      else []).

(** What a decoder does with one nybble: the predictor moves by the delta
    of the code and the index by its adjustment, both clamped as in
    [encodeSample]. *)
Definition decodeNybble (st : State) (code : Z) : State :=
  let step := vec_get 0 stepSizeTable (index st) in
  mkState
    (Z.min 32767 (Z.max (-32768) (sample st + thisDiff step code)))
    (Z.min INDEX_MAX
       (Z.max 0 (index st + Z.shiftr (vec_get 0 codeTable code) 8))).

(** The states a decoder goes through on the body bytes: the low nybble of
    each byte first, then the high one. *)
Fixpoint decodeBody (st : State) (body : list byte) : list State :=
  match body with
  | [] => []
  | b :: rest =>
      let st1 := decodeNybble st (Z.land (Z_of_byte b) 15) in
      let st2 := decodeNybble st1 (Z.shiftr (Z_of_byte b) 4) in
      st1 :: st2 :: decodeBody st2 rest
  end.

(** The sum of the squared differences between the predictor after each
    sample and that sample. *)
Fixpoint squaredError (sts : list State) (ss : list Z) : Z :=
  match sts, ss with
  | st :: sts', s :: ss' =>
      (sample st - s) * (sample st - s) + squaredError sts' ss'
  | _, _ => 0
  end.

(** The error metric of an initial state on a prefix of the input. *)
Definition errorFrom (inp : list byte) (inBytes : Z) (st : State) : Z :=
  fst (encodeWithIC st inp inBytes).

(** The four unit moves tried by the hill climber of [optimizeIC]. *)
Definition neighbours (st : State) : list State :=
  [mkState (wrap_s16 (sample st + 1)) (index st);
   mkState (wrap_s16 (sample st - 1)) (index st)]
  ++ (if index st <? INDEX_MAX then [mkState (sample st) (index st + 1)] else [])
  ++ (if 0 <? index st then [mkState (sample st) (index st - 1)] else []).

End ADPCMStreamNotions.

Section DUBStreamNotions.
Import DUB.

(** What a decoder does with a DELTA or a REF code, given the tiles of the
    block decoded so far: a DELTA adds to the last tile (to zero when there
    is none), a REF counts back from the last tile. *)
Definition decodeCode (dict : list Z) (c : Code) : Z :=
  match type c with
  | DELTA => wrap_u16 (List.last dict 0 + value c)
  | REF => vec_get 0 dict (Z.of_nat (length dict) - 1 - value c)
  | _ => 0
  end.

(** The DELTA code tried first by [findBestCode]. *)
Definition deltaCode (dict : list Z) (tile : Z) : Code :=
  match dict with
  | [] => mkCode DELTA tile
  | _ :: _ => mkCode DELTA (tile - List.last dict 0)
  end.

(** The codes handed to [packCode] by one iteration of the tile loop of
    [encodeBlock], in call order. *)
Definition tileCodes (st : BlockState) (tile : Z) : list Code :=
  let code := findBestCode (dict st) tile in
  let sameCode :=
    bool_decide (type code = type (prevCode st))
    && (value code =? value (prevCode st)) in
  if repeating st then
    if sameCode then []
    else [mkCode REPEAT (wrap_s32 (repeatCount st)); code]
  else [code].

(** The codes handed to [packCode] by [encodeBlock] from the state [st] on:
    those of the tile loop, then the stowed REPEAT. *)
Fixpoint blockCodesFrom (st : BlockState) (tiles : list Z) : list Code :=
  match tiles with
  | [] =>
      if repeating st then [mkCode REPEAT (wrap_s32 (repeatCount st))] else []
  | t :: ts => tileCodes st t ++ blockCodesFrom (encodeTile st t) ts
  end.

Definition blockCodes (tiles : list Z) : list Code :=
  blockCodesFrom initBlock tiles.

(** The bits of a sequence of codes. *)
Definition packCodes (cs : list Code) (b : BitBuffer) : BitBuffer :=
  fold_left (fun b c => packCode c b) cs b.

(** A code applied [n] more times. *)
Fixpoint applyCode (n : nat) (c : Code) (dict : list Z) : list Z :=
  match n with
  | O => dict
  | S k => applyCode k c (dict ++ [decodeCode dict c])
  end.

(** A decoder for the codes of a block: every DELTA or REF code gives one
    tile; after two equal codes in a row the next code is a REPEAT, whose
    value tells how many more times that code applies. *)
Fixpoint decodeCodes (cs : list Code) (prev : Code) (dict : list Z) : list Z :=
  match cs with
  | [] => dict
  | c :: rest =>
      let dict1 := dict ++ [decodeCode dict c] in
      if bool_decide (c = prev) then
        match rest with
        | r :: rest' =>
            decodeCodes rest' c (applyCode (Z.to_nat (value r)) c dict1)
        | [] => dict1
        end
      else decodeCodes rest c dict1
  end.

(** The decoder once it has seen two equal codes [c] in a row. *)
Definition afterRun (c : Code) (D : list Z) (rest : list Code) : list Z :=
  match rest with
  | r :: rest' => decodeCodes rest' c (applyCode (Z.to_nat (value r)) c D)
  | [] => D
  end.

End DUBStreamNotions.

Section DUBResultNotions.
Import DUB.

(** [DUBEncoder::getCompressedWords] *)
Definition getCompressedWords (e : DUBEncoder) : Z :=
  wrap_u32 (getIndexSize e + Z.of_nat (length (blockResult e))).

(** Entry [i] of the index region of a result, as a reader finds it: word
    [i] of a 16-bit index, byte [i] of an 8-bit one, the low byte of each
    word first. *)
Definition readIndex (index16 : bool) (res : list Z) (i : Z) : Z :=
  if index16 then vec_get 0 res i
  else Z.land (Z.shiftr (vec_get 0 res (i / 2)) (8 * (i mod 2))) 255.

End DUBResultNotions.

Section DUBBitNotions.
Import DUB.

(** Reading back a variable-length integer of 3-bit groups: a continuation
    flag, then the three bits of the group, the most significant first;
    the groups come least significant first. *)
Fixpoint parseVar (groups : nat) (bs : list bool) : option (Z * list bool) :=
  match groups, bs with
  | S g, more :: b2 :: b1 :: b0 :: rest =>
      let low := 4 * Z.b2z b2 + 2 * Z.b2z b1 + Z.b2z b0 in
      if more then
        match parseVar g rest with
        | Some (high, rest') => Some (low + 8 * high, rest')
        | None => None
        end
      else Some (low, rest)
  | _, _ => None
  end.

(** Reading back a DELTA or a REF code: the type bit, for a DELTA the sign
    bit, then the value. *)
Definition parseCode (bs : list bool) : option (Code * list bool) :=
  match bs with
  | false :: sign :: rest =>
      match parseVar 11 rest with
      | Some (v, rest') => Some (mkCode DELTA (if sign then - v else v), rest')
      | None => None
      end
  | true :: rest =>
      match parseVar 11 rest with
      | Some (v, rest') => Some (mkCode REF v, rest')
      | None => None
      end
  | _ => None
  end.

(** The words of a block from its tiles: the tile loop of [encodeBlock]
    and the steps after it. *)
Definition encodeTileList (ts : list Z) : list Z :=
  finishBlock (fold_left encodeTile ts initBlock).

(** The tiles of every block, in the order of the three loops of
    [encodeTiles]; [rd i] is [tiles[i]]. *)
Definition blockTilesFrom (rd : Z -> Z) (w h frames : Z) : list (list Z) :=
  f ← seqZ 0 frames;
  y ← blockStarts (Z.to_nat h) 0 h;
  x ← blockStarts (Z.to_nat w) 0 w;
  [blockTiles
     (fun k => rd (wrap_u32 (wrap_u32 (x + wrap_u32 (y * w))
                             + wrap_u32 (wrap_u32 (f * w) * h)) + k))
     w
     (Z.min BLOCK_SIZE (wrap_u32 (w - x)))
     (Z.min BLOCK_SIZE (wrap_u32 (h - y)))].

Definition blockTileLists (width height frames : Z) (tiles : list Z)
  : list (list Z) :=
  blockTilesFrom (vec_get 0 tiles)
    (wrap_u32 width) (wrap_u32 height) (wrap_u32 frames).

(** The bits of a word, bit 0 first. *)
Fixpoint bitsOfZ (n : nat) (w : Z) : list bool :=
  match n with
  | O => []
  | S k => Z.odd w :: bitsOfZ k (Z.div2 w)
  end.

Definition bitsOfWords (ws : list Z) : list bool := ws ≫= bitsOfZ 16.

(** A decoder for the bits of a block of [total] tiles: codes are read
    until the tiles are complete; the code after two equal codes in a row
    is a REPEAT count without header. *)
Fixpoint decodeBits (fuel total : nat) (bs : list bool) (prev : Code)
    (dict : list Z) : option (list Z) :=
  match fuel with
  | O => None
  | S k =>
      if (total <=? length dict)%nat then Some dict else
      match parseCode bs with
      | None => None
      | Some (c, rest) =>
          let dict1 := dict ++ [decodeCode dict c] in
          if bool_decide (c = prev) then
            match parseVar 11 rest with
            | None => None
            | Some (n, rest') =>
                decodeBits k total rest' c (applyCode (Z.to_nat n) c dict1)
            end
          else decodeBits k total rest c dict1
      end
  end.

(** The tiles of a block of [total] tiles, from its words. *)
Definition decodeBlock (total : nat) (ws : list Z) : option (list Z) :=
  decodeBits (S total) total (bitsOfWords ws) (mkCode INVALID 0) [].

End DUBBitNotions.

(** * Properties *)

(** ** Fixed-width arithmetic *)

Lemma wrap_s32_small z : - 2 ^ 31 <= z < 2 ^ 31 -> wrap_s32 z = z.
Proof.
  intros Hz. unfold wrap_s32.
  rewrite Z.mod_small by lia. lia.
Qed.

Lemma wrap_u32_small z : 0 <= z < 2 ^ 32 -> wrap_u32 z = z.
Proof. intros Hz. unfold wrap_u32. now apply Z.mod_small. Qed.

Lemma wrap_u16_small z : 0 <= z < 2 ^ 16 -> wrap_u16 z = z.
Proof. intros Hz. unfold wrap_u16. now apply Z.mod_small. Qed.

Lemma wrap_u16_range z : 0 <= wrap_u16 z < 2 ^ 16.
Proof. unfold wrap_u16. apply Z.mod_pos_bound. lia. Qed.

Lemma wrap_u32_range z : 0 <= wrap_u32 z < 2 ^ 32.
Proof. unfold wrap_u32. apply Z.mod_pos_bound. lia. Qed.

(** A product formed in unsigned arithmetic and read back as [int] is the
    signed product whenever that product fits. *)
Lemma signed_of_unsigned_mul a b :
  - 2 ^ 31 <= a * b < 2 ^ 31 ->
  wrap_s32 (wrap_u32 (wrap_u32 a * wrap_u32 b)) = a * b.
Proof.
  intros Hab. unfold wrap_s32, wrap_u32.
  rewrite <- Z.mul_mod by lia.
  rewrite Zplus_mod_idemp_l.
  rewrite Z.mod_small by lia. lia.
Qed.

Lemma vec_get_lookup {A} (d : A) (v : list A) (i : nat) x :
  v !! i = Some x -> vec_get d v (Z.of_nat i) = x.
Proof.
  intros H. unfold vec_get.
  destruct (Z.ltb_spec (Z.of_nat i) 0); [lia|].
  rewrite Nat2Z.id. now apply nth_lookup_Some.
Qed.

(** ** PCM *)

(** C10: [PCMEncoder::encode] leaves the bytes already in [out] in place and
    appends the input after them. *)
Theorem PCM_encode_appends (inp out : list byte) :
  PCM.encode inp out = out ++ inp
  /\ take (length out) (PCM.encode inp out) = out
  /\ drop (length out) (PCM.encode inp out) = inp.
Proof.
  assert (E : PCM.encode inp out = out ++ inp).
  { unfold PCM.encode, vector_insert.
    rewrite firstn_all, drop_all. now rewrite app_nil_r. }
  rewrite E. split; [reflexivity|]. split.
  - now rewrite take_app_length.
  - now rewrite drop_app_length.
Qed.

(** ** ADPCM: the per-sample step *)

Section PerSample.
Import ADPCM.

Lemma code_cases (c : Z) :
  0 <= c <= 15 ->
  c = 0 \/ c = 1 \/ c = 2 \/ c = 3 \/ c = 4 \/ c = 5 \/ c = 6 \/ c = 7 \/
  c = 8 \/ c = 9 \/ c = 10 \/ c = 11 \/ c = 12 \/ c = 13 \/ c = 14 \/ c = 15.
Proof. lia. Qed.

Lemma multiplier_range c : 0 <= c <= 15 -> -15 <= multiplier c <= 15.
Proof.
  intros Hc. destruct (code_cases c Hc) as
    [->|[->|[->|[->|[->|[->|[->|[->|[->|[->|[->|[->|[->|[->|[->| ->]]]]]]]]]]]]]]];
    vm_compute; split; discriminate.
Qed.

Lemma multiplier_sign c :
  0 <= c <= 15 ->
  (c <= 7 -> 1 <= multiplier c) /\ (8 <= c -> multiplier c <= -1).
Proof.
  intros Hc. destruct (code_cases c Hc) as
    [->|[->|[->|[->|[->|[->|[->|[->|[->|[->|[->|[->|[->|[->|[->| ->]]]]]]]]]]]]]]];
    vm_compute; split; intros H; try discriminate; exfalso; apply H; reflexivity.
Qed.

Lemma step_range (idx : Z) :
  0 <= idx <= 88 -> 7 <= vec_get 0 stepSizeTable idx <= 32767.
Proof.
  intros Hidx.
  assert (HA : Forall (fun s => 7 <= s <= 32767) stepSizeTable).
  { unfold stepSizeTable. repeat (constructor; [lia|]). constructor. }
  rewrite Forall_forall in HA. apply HA.
  unfold vec_get. destruct (Z.ltb_spec idx 0); [lia|].
  apply list_elem_of_In, nth_In. change (length stepSizeTable) with 89%nat. lia.
Qed.

(** The delta of the code: the signed product, floored by the shift. *)
Lemma thisDiff_floor step c :
  0 <= step <= 32767 -> 0 <= c <= 15 ->
  thisDiff step c = (multiplier c * step) / 2 ^ 3.
Proof.
  intros Hs Hc. unfold thisDiff. fold (multiplier c).
  pose proof (multiplier_range c Hc) as Hm.
  rewrite signed_of_unsigned_mul by nia.
  apply Z.shiftr_div_pow2. lia.
Qed.

End PerSample.

Section CandidateSearch.
Import ADPCM.

Lemma bestOf_S step diff n :
  bestOf step diff (S n) = tryCode step diff (bestOf step diff n) (Z.of_nat n).
Proof.
  unfold bestOf. rewrite seqZ_S, fold_left_app. reflexivity.
Qed.

Lemma tryCode_chosen step diff n r :
  chosen step diff (S n) r ->
  chosen step diff (S (S n)) (tryCode step diff r (Z.of_nat (S n))).
Proof.
  intros (Hr & Hd & Hmin). unfold tryCode.
  destruct (Z.leb_spec (errorOf diff (thisDiff step (Z.of_nat (S n))))
                       (errorOf diff r.2)) as [Hle|Hgt].
  - split; [cbn [fst]; lia|]. split; [reflexivity|].
    intros c Hc. cbn [fst snd].
    destruct (Z.eq_dec c (Z.of_nat (S n))) as [->|Hne]; [lia|].
    destruct (Hmin c) as [H1 _]; lia.
  - split; [lia|]. split; [assumption|].
    intros c Hc.
    destruct (Z.eq_dec c (Z.of_nat (S n))) as [->|Hne]; [lia|].
    apply Hmin. lia.
Qed.

Lemma bestOf_chosen step diff n :
  errorOf diff (thisDiff step 0) <= errorOf diff 0x100000 ->
  chosen step diff (S n) (bestOf step diff (S n)).
Proof.
  intros H0. induction n as [|n IH].
  - rewrite bestOf_S. change (bestOf step diff 0) with (0, 0x100000).
    unfold tryCode. cbn [snd]. change (Z.of_nat 0) with 0.
    destruct (Z.leb_spec (errorOf diff (thisDiff step 0))
                         (errorOf diff 0x100000)) as [_|Hgt]; [|lia].
    split; [cbn [fst]; lia|]. split; [reflexivity|].
    intros c Hc. assert (c = 0) as -> by lia. cbn [fst snd]. lia.
  - rewrite bestOf_S. now apply tryCode_chosen.
Qed.

(** With a 16-bit predictor and a 16-bit input sample the first candidate is
    always closer to [diff] than the initial [bestDiff = 0x100000]. *)
Lemma first_code_accepted step diff :
  0 <= step <= 32767 -> -65535 <= diff <= 65535 ->
  errorOf diff (thisDiff step 0) <= errorOf diff 0x100000.
Proof.
  intros Hs Hd. rewrite thisDiff_floor by lia.
  change (multiplier 0) with 1. rewrite Z.mul_1_l.
  change (2 ^ 3) with 8.
  assert (0 <= step / 8 < 4096)
    by (split; [apply Z.div_pos; lia | apply Z.div_lt_upper_bound; lia]).
  unfold errorOf. lia.
Qed.

End CandidateSearch.

Section PerSampleClaims.
Import ADPCM.

(** C2 (as stated, refuted): the candidate delta is not the logical shift of
    the unsigned product.  At index 0 (step 7) and code 8 (multiplier -1) the
    code computes [-7 >> 3 = -1]; the claimed order gives 536870911. *)
Lemma candidate_delta_not_logical_shift :
  ~ (forall idx c, 0 <= idx <= 88 -> 0 <= c <= 15 ->
       thisDiff (vec_get 0 stepSizeTable idx) c
       = claimedDelta (vec_get 0 stepSizeTable idx) c).
Proof.
  intros H. specialize (H 0 8 ltac:(lia) ltac:(lia)).
  vm_compute in H. discriminate H.
Qed.

(** C2 (amended): for every index and code the candidate delta is the
    product of the signed multiplier and the step, formed in unsigned 32-bit
    arithmetic, converted to a signed 32-bit integer and only then shifted
    right by 3 arithmetically, which is the floor of [m(c) * step / 8].  It
    agrees with the logical-shift reading on the codes 0..7 and is negative,
    unlike that reading, on the codes 8..15. *)
Theorem candidate_delta_arithmetic_shift (idx c : Z) :
  0 <= idx <= 88 -> 0 <= c <= 15 ->
  let step := vec_get 0 stepSizeTable idx in
  thisDiff step c
  = Z.shiftr (wrap_s32 (wrap_u32 (wrap_u32 (multiplier c) * wrap_u32 step))) 3
  /\ thisDiff step c = (multiplier c * step) / 8
  /\ (c <= 7 -> thisDiff step c = claimedDelta step c)
  /\ (8 <= c -> thisDiff step c < 0 <= claimedDelta step c).
Proof.
  intros Hidx Hc step.
  pose proof (step_range idx Hidx) as Hs. fold step in Hs.
  pose proof (multiplier_range c Hc) as Hm.
  pose proof (multiplier_sign c Hc) as [Hpos Hneg].
  assert (Hfl : thisDiff step c = (multiplier c * step) / 8)
    by (apply thisDiff_floor; lia).
  split; [reflexivity|]. split; [exact Hfl|]. split.
  - intros Hle. specialize (Hpos Hle). rewrite Hfl.
    unfold claimedDelta. fold (multiplier c).
    rewrite (wrap_u32_small (multiplier c)) by lia.
    rewrite (wrap_u32_small step) by lia.
    rewrite wrap_u32_small by nia.
    rewrite Z.shiftr_div_pow2 by lia. change (2 ^ 3) with 8.
    symmetry. apply wrap_s32_small.
    assert (0 <= multiplier c * step / 8) by (apply Z.div_pos; nia).
    assert (multiplier c * step / 8 <= 61439)
      by (apply Z.div_le_upper_bound; nia).
    lia.
  - intros Hge. specialize (Hneg Hge). split.
    + rewrite Hfl. apply Z.div_lt_upper_bound; nia.
    + unfold claimedDelta. rewrite Z.shiftr_div_pow2 by lia.
      pose proof (wrap_u32_range
        (wrap_u32 (wrap_s8 (vec_get 0 codeTable c)) * wrap_u32 step)) as Hr.
      set (p := wrap_u32 _) in *.
      assert (0 <= p / 2 ^ 3) by (apply Z.div_pos; lia).
      assert (p / 2 ^ 3 < 2 ^ 29)
        by (apply Z.div_lt_upper_bound; lia).
      rewrite wrap_s32_small; lia.
Qed.

Lemma candidate_delta_arithmetic_shift_witness :
  ADPCM.thisDiff (vec_get 0 ADPCM.stepSizeTable 0) 8 = (multiplier 8 * 7) / 8.
Proof.
  exact (proj1 (proj2 (candidate_delta_arithmetic_shift 0 8
                         ltac:(lia) ltac:(lia)))).
Defined.

(** C4: the nybble returned by [encodeSample] minimises
    [max(delta - diff, diff - delta)] over the 16 candidates, it is the
    largest code number among the minimisers, and the predictor moves by
    that candidate's delta. *)
Theorem encodeSample_minimises_error (st : State) (s : Z) :
  state_ok st -> -32768 <= s <= 32767 ->
  let step := vec_get 0 stepSizeTable (index st) in
  let diff := s - sample st in
  let c := (encodeSample st s).2 in
  0 <= c <= 15
  /\ (forall c', 0 <= c' <= 15 ->
        errorOf diff (thisDiff step c) <= errorOf diff (thisDiff step c')
        /\ (errorOf diff (thisDiff step c') = errorOf diff (thisDiff step c)
            -> c' <= c))
  /\ sample (encodeSample st s).1
     = Z.min 32767 (Z.max (-32768) (sample st + thisDiff step c)).
Proof.
  intros [Hsm Hix] Hs step diff c.
  pose proof (step_range (index st) Hix) as Hstep. fold step in Hstep.
  assert (Hch : chosen step diff 16 (bestOf step diff 16)).
  { apply bestOf_chosen, first_code_accepted; unfold diff; lia. }
  unfold c, encodeSample. fold step. fold diff.
  destruct (bestOf step diff 16) as [bestCode bestDiff].
  destruct Hch as (Hr & Hd & Hmin). cbn [fst snd] in *.
  split; [lia|]. split.
  - intros c' Hc'. rewrite <- Hd. apply Hmin. lia.
  - now rewrite Hd.
Qed.

Lemma encodeSample_minimises_error_witness :
  (encodeSample (mkState 0 0) 100).2 = 7
  /\ sample (encodeSample (mkState 0 0) 100).1 = 13.
Proof.
  pose proof (encodeSample_minimises_error (mkState 0 0) 100
                ltac:(unfold state_ok; cbn; lia) ltac:(lia)) as H.
  cbv zeta in H. destruct H as (_ & _ & H3).
  split; [reflexivity|]. rewrite H3. reflexivity.
Defined.

End PerSampleClaims.

(** ** ADPCM: the stream *)

Section Stream.
Import ADPCM.

Lemma encodeSample_ok (st : State) (s : Z) : state_ok (encodeSample st s).1.
Proof.
  unfold encodeSample, state_ok, INDEX_MAX.
  destruct (bestOf _ _ 16) as [bestCode bestDiff]. cbn [fst sample index]. lia.
Qed.

Lemma encodePair_states_ok st s1 s2 : Forall state_ok (encodePair_states st s1 s2).
Proof.
  unfold encodePair_states. repeat constructor; apply encodeSample_ok.
Qed.

Lemma encodePair_state st s1 s2 out :
  (encodePair st s1 s2 out).1.1 = List.last (encodePair_states st s1 s2) st.
Proof.
  unfold encodePair, encodePair_states. cbn [List.last].
  destruct (encodeSample st s1) as [st1 n1]. cbn [fst].
  destruct (encodeSample st1 s2) as [st2 n2]. reflexivity.
Qed.

Lemma encodePair_out st s1 s2 out :
  (encodePair st s1 s2 out).2 = out ++ (encodePair st s1 s2 []).2
  /\ length (encodePair st s1 s2 []).2 = 1%nat.
Proof.
  unfold encodePair.
  destruct (encodeSample st s1) as [st1 n1].
  destruct (encodeSample st1 s2) as [st2 n2]. split; reflexivity.
Qed.

Lemma encodePairs_states_ok n inp : forall p st,
  Forall state_ok (encodePairs_states n inp p st).
Proof.
  induction n as [|n IH]; intros p st; cbn [encodePairs_states].
  - constructor.
  - apply Forall_app. split; [apply encodePair_states_ok | apply IH].
Qed.

Lemma last_cons_default {A} (x : A) (l : list A) (d d' : A) :
  List.last (x :: l) d = List.last (x :: l) d'.
Proof.
  revert x. induction l as [|y l IH]; intros x; [reflexivity|].
  change (List.last (y :: l) d = List.last (y :: l) d'). apply IH.
Qed.

Lemma last_app_nonempty {A} (l k : list A) (d : A) :
  List.last (l ++ k) d = List.last k (List.last l d).
Proof.
  revert d. induction l as [|x l IH]; intros d; [reflexivity|].
  destruct l as [|y l].
  - destruct k as [|z k]; [reflexivity|].
    change (List.last (z :: k) d = List.last (z :: k) x).
    apply last_cons_default.
  - change (List.last ((y :: l) ++ k) d = List.last k (List.last (y :: l) d)).
    apply IH.
Qed.

(** The position of [inPtr] and the codec state after the pair loop. *)
Lemma encodePairs_state n inp : forall p st error out,
  let r := encodePairs n inp p st error out in
  r.1.1.1 = (p + 2 * n)%nat
  /\ r.1.1.2 = List.last (encodePairs_states n inp p st) st.
Proof.
  induction n as [|n IH]; intros p st error out; cbn [encodePairs encodePairs_states].
  - cbn. split; [lia|reflexivity].
  - pose proof (encodePair_state st (readSample inp p) (readSample inp (S p)) out) as Hst.
    destruct (encodePair st (readSample inp p) (readSample inp (S p)) out)
      as [[st' e] out']. cbn [fst] in Hst.
    destruct (IH (S (S p)) st' (wrap_u64 (error + e)) out') as [Hp Hs].
    split; [rewrite Hp; lia|].
    rewrite Hs, last_app_nonempty, Hst. reflexivity.
Qed.

(** C7: every codec state reached after a call of [encodeSample] during
    [encodeWithIC] has its predictor in [-32768, 32767] and its index in
    [0, 88], whatever the initial conditions and the input; the list of
    states is the one the run goes through, ending in the run's final state. *)
Theorem codec_state_in_range (st : State) (inp : list byte) (inBytes : Z) :
  (forall s, state_ok (encodeSample st s).1)
  /\ Forall state_ok (encodeWithIC_states st inp inBytes)
  /\ (encodeWithIC_run st inp inBytes).1.1
     = List.last (encodeWithIC_states st inp inBytes) st.
Proof.
  split; [intros s; apply encodeSample_ok|]. split.
  - unfold encodeWithIC_states.
    destruct (Z.testbit (inBytes / 2) 0).
    + apply Forall_app. split;
        [apply encodePairs_states_ok | apply encodePair_states_ok].
    + apply encodePairs_states_ok.
  - unfold encodeWithIC_run, encodeWithIC_states.
    set (n := Z.to_nat (inBytes / 2 / 2)).
    set (hdr := [_; _; _]).
    destruct (encodePairs_state n inp 0 st 0 hdr) as [Hp Hs].
    destruct (encodePairs n inp 0 st 0 hdr) as [[[p st1] error] out1].
    cbn [fst snd] in Hp, Hs. subst p st1.
    destruct (Z.testbit (inBytes / 2) 0).
    + rewrite last_app_nonempty. cbn [Nat.add].
      pose proof (encodePair_state
        (List.last (encodePairs_states n inp 0 st) st)
        (readSample inp (2 * n)) (readSample inp (2 * n)) out1) as Hst.
      destruct (encodePair _ _ _ out1) as [[st2 e] out2]. exact Hst.
    + reflexivity.
Qed.

(** The header and the single padded pair written for two or three bytes. *)
Lemma encodeWithIC_one_sample st inp n :
  n = 2 \/ n = 3 ->
  (encodeWithIC st inp n).2
  = [byte_of_Z (sample st); byte_of_Z (Z.shiftr (sample st) 8);
     byte_of_Z (index st)]
    ++ (encodePair st (readSample inp 0) (readSample inp 0) []).2.
Proof.
  intros Hn. unfold encodeWithIC, encodeWithIC_run.
  assert (Hs : n / 2 = 1) by (destruct Hn as [-> | ->]; reflexivity).
  rewrite Hs. change (1 / 2) with 0. change (Z.testbit 1 0) with true.
  set (hdr := [_; _; _]).
  change (encodePairs (Z.to_nat 0) inp 0 st 0 hdr) with (0%nat, st, 0, hdr).
  cbv beta iota.
  pose proof (encodePair_out st (readSample inp 0) (readSample inp 0) hdr) as [Ho _].
  destruct (encodePair st _ _ hdr) as [[st2 e] out2]. exact Ho.
Qed.

Lemma encodeWithIC_no_sample st inp n :
  n = 0 \/ n = 1 ->
  (encodeWithIC st inp n).2
  = [byte_of_Z (sample st); byte_of_Z (Z.shiftr (sample st) 8);
     byte_of_Z (index st)].
Proof.
  intros [-> | ->]; reflexivity.
Qed.

(** C8: on an input of fewer than 4 bytes [optimizeIC] returns the state
    (0, 0) at once, whatever the fuel, and [encode] writes the header
    [0, 0, 0] followed by the one byte of the pair made of the lone sample
    taken twice when the input holds a complete sample (2 or 3 bytes), and by
    nothing otherwise. *)
Theorem encode_short_input (fuel : nat) (inp : list byte) :
  (length inp < 4)%nat ->
  let s := readSample inp 0 in
  let body :=
    if decide (2 <= length inp)%nat
    then (encodePair (mkState 0 0) s s []).2 else [] in
  optimizeIC fuel inp = Some (mkState 0 0)
  /\ encode fuel inp = Some ([Byte.x00; Byte.x00; Byte.x00] ++ body)
  /\ length body = (if decide (2 <= length inp)%nat then 1 else 0)%nat.
Proof.
  intros Hlen s body.
  assert (Hopt : optimizeIC fuel inp = Some (mkState 0 0)).
  { unfold optimizeIC.
    destruct (Z.ltb_spec (Z.of_nat (length inp)) 4); [reflexivity|lia]. }
  split; [exact Hopt|]. unfold encode. rewrite Hopt.
  rewrite wrap_u32_small by lia.
  unfold body. destruct (decide (2 <= length inp)%nat) as [Hge|Hlt].
  - rewrite encodeWithIC_one_sample by lia.
    split; [reflexivity|]. apply encodePair_out. exact [].
  - rewrite encodeWithIC_no_sample by lia. split; reflexivity.
Qed.

Lemma encode_short_input_witness :
  encode 0 [Byte.x12; Byte.x34; Byte.x56]
  = Some [Byte.x00; Byte.x00; Byte.x00; Byte.x77].
Proof.
  pose proof (encode_short_input 0 [Byte.x12; Byte.x34; Byte.x56]
                ltac:(cbn; lia)) as H.
  cbv zeta in H. destruct H as (_ & H & _). rewrite H. reflexivity.
Defined.

Lemma tryIndex_snd smp inp n acc idx :
  (tryIndex smp inp n acc idx).2 = acc.2 \/ (tryIndex smp inp n acc idx).2 = idx.
Proof. unfold tryIndex. destruct (_ <? _); [right|left]; reflexivity. Qed.

Lemma searchIndex_below smp inp n l : forall acc,
  acc.2 <= 87 -> Forall (fun i => i <= 87) l ->
  (fold_left (tryIndex smp inp n) l acc).2 <= 87.
Proof.
  induction l as [|i l IH]; intros acc Hacc Hl; [exact Hacc|].
  cbn [fold_left]. inversion Hl; subst. apply IH; [|assumption].
  destruct (tryIndex_snd smp inp n acc i) as [-> | ->]; assumption.
Qed.

(** C3: the exhaustive loop of [optimizeIC] stops before [INDEX_MAX]: it
    never retains the index 88, and on the input [swing] it retains the index
    87 with error 135418801 although the index 88 gives the lower error
    47871954. *)
Theorem searchIndex_skips_last_index :
  (forall smp inp n, (searchIndex smp inp n).2 <= 87)
  /\ searchIndex (-32768) swing 4 = (135418801, 87)
  /\ (encodeWithIC (mkState (-32768) 88) swing 4).1 = 47871954.
Proof.
  split; [|split; vm_compute; reflexivity].
  intros smp inp n. unfold searchIndex. apply searchIndex_below.
  - cbn. lia.
  - apply Forall_forall. intros i Hi. apply elem_of_seqZ in Hi.
    unfold INDEX_MAX in Hi. lia.
Qed.

End Stream.

(** ** DUB: the bit buffer and the codes *)

Section BitBufferFacts.
Import DUB.

Lemma getCount_append v n b : 0 <= n -> getCount (append v n b) = getCount b + n.
Proof.
  intros Hn. unfold getCount, append.
  rewrite length_app, length_map, length_rev, length_seqZ. lia.
Qed.

Lemma appendVar_loop_app g chunk : forall v b,
  appendVar_loop g v chunk b = b ++ appendVar_loop g v chunk [].
Proof.
  induction g as [|g IH]; intros v b; cbn [appendVar_loop].
  - now rewrite app_nil_r.
  - destruct (negb (Z.shiftr v chunk =? 0)).
    + rewrite IH. symmetry. rewrite IH. unfold append.
      now rewrite !app_nil_l, !app_assoc.
    + unfold append. now rewrite !app_nil_l, !app_assoc.
Qed.

Lemma getCount_app (b c : BitBuffer) : getCount (b ++ c) = getCount b + getCount c.
Proof. unfold getCount. rewrite length_app. lia. Qed.

Lemma getCount_nonneg (b : BitBuffer) : 0 <= getCount b.
Proof. unfold getCount. lia. Qed.

(** A variable-length integer with chunk size 3 takes at least one group of
    four bits. *)
Lemma appendVar_loop_S g v chunk b :
  appendVar_loop (S g) v chunk b
  = let rest := Z.shiftr v chunk in
    let more := negb (rest =? 0) in
    let b2 := append (Z.land v (Z.ones chunk)) chunk (append (Z.b2z more) 1 b) in
    if more then appendVar_loop g rest chunk b2 else b2.
Proof. reflexivity. Qed.

Lemma getCount_appendVar_app v chunk b :
  getCount (appendVar v chunk b) = getCount b + getCount (appendVar v chunk []).
Proof.
  unfold appendVar. rewrite appendVar_loop_app. apply getCount_app.
Qed.

Lemma getCount_appendVar v : 4 <= getCount (appendVar v 3 []).
Proof.
  unfold appendVar. change 32%nat with (S 31). rewrite appendVar_loop_S.
  cbv zeta. destruct (negb (Z.shiftr v 3 =? 0)).
  - rewrite appendVar_loop_app, getCount_app, !getCount_append by lia.
    pose proof (getCount_nonneg (appendVar_loop 31 (Z.shiftr v 3) 3 [])).
    change (getCount []) with 0. lia.
  - rewrite !getCount_append by lia. change (getCount []) with 0. lia.
Qed.

Lemma getCount_packCode code b : getCount (packCode code b) = getCount b + codeLen code.
Proof.
  unfold codeLen, packCode. cbv zeta.
  destruct (type code); [destruct (value code <? 0)| | |];
    rewrite ?(getCount_appendVar_app _ _ (append _ _ _));
    rewrite ?(getCount_appendVar_app _ _ b);
    rewrite ?getCount_append by lia;
    change (getCount []) with 0; lia.
Qed.

Lemma codeLen_nonneg code : 0 <= codeLen code.
Proof. apply getCount_nonneg. Qed.

Lemma codeLen_header code :
  type code = DELTA \/ type code = REF -> 5 <= codeLen code.
Proof.
  intros Ht. unfold codeLen, packCode. cbv zeta.
  destruct Ht as [-> | ->]; [destruct (value code <? 0)|];
    rewrite (getCount_appendVar_app _ _ (append _ _ _));
    rewrite ?getCount_append by lia;
    match goal with
    | |- context [appendVar ?v 3 []] => pose proof (getCount_appendVar v)
    end;
    change (getCount []) with 0; lia.
Qed.

Lemma scanRef_type cands dict tile code best :
  type code = DELTA ->
  let r := scanRef cands dict tile code best in
  type r = DELTA \/ type r = REF.
Proof.
  intros Hc. induction cands as [|i rest IH]; cbn [scanRef]; [now left|].
  destruct (tile =? _); [|exact IH].
  destruct (_ <=? best); [now right | exact IH].
Qed.

(** [findBestCode] only ever returns a DELTA or a REF code. *)
Lemma findBestCode_type dict tile :
  type (findBestCode dict tile) = DELTA \/ type (findBestCode dict tile) = REF.
Proof.
  unfold findBestCode. apply scanRef_type. now destruct dict.
Qed.

Lemma flush_words_count n : forall b into,
  let r := flush_words n b into in
  exists ws, r.2 = into ++ ws
             /\ 16 * Z.of_nat (length ws) + getCount r.1 = getCount b.
Proof.
  induction n as [|n IH]; intros b into; cbn [flush_words].
  - exists []. split; [now rewrite app_nil_r | cbn; lia].
  - destruct (Nat.leb_spec 16 (length b)) as [Hge|Hlt].
    + destruct (IH (drop 16 b) (into ++ [word_of_bits (take 16 b)]))
        as (ws & Hws & Hcount).
      exists (word_of_bits (take 16 b) :: ws). split.
      * rewrite Hws. now rewrite <- app_assoc.
      * unfold getCount in *. rewrite length_drop in Hcount.
        cbn [length]. lia.
    + exists []. split; [now rewrite app_nil_r | cbn; lia].
Qed.

(** The bound on the words moved is never what ends the loop of [flush]:
    less than a word is left in the buffer. *)
Lemma flush_words_leaves_less_than_a_word n : forall b into,
  (length b <= 16 * n + 15)%nat ->
  (length (flush_words n b into).1 < 16)%nat.
Proof.
  induction n as [|n IH]; intros b into Hlen; cbn [flush_words].
  - cbn [fst]. lia.
  - destruct (Nat.leb_spec 16 (length b)) as [Hge|Hlt]; [|cbn [fst]; lia].
    apply IH. rewrite length_drop. lia.
Qed.

Lemma flush_leaves_less_than_a_word final b into :
  (length (flush final b into).1 < 16)%nat.
Proof.
  unfold flush.
  pose proof (flush_words_leaves_less_than_a_word (length b) b into
                ltac:(lia)) as Hlt.
  destruct (flush_words (length b) b into) as [rest into'].
  cbn [fst] in Hlt. destruct rest; [cbn; lia|].
  destruct final; [cbn; lia | exact Hlt].
Qed.

(** A flush that is not final keeps every bit, in [data] or in the buffer. *)
Lemma flush_keeps_count b into :
  let r := flush false b into in
  16 * Z.of_nat (length r.2) + getCount r.1
  = 16 * Z.of_nat (length into) + getCount b.
Proof.
  unfold flush.
  destruct (flush_words_count (length b) b into) as (ws & Hws & Hcount).
  destruct (flush_words (length b) b into) as [rest into'].
  cbn [fst snd] in *. subst into'.
  destruct rest; cbn [fst snd]; rewrite length_app; lia.
Qed.

(** The final flush leaves at least one word when anything was written. *)
Lemma flush_final_nonempty b into :
  0 < 16 * Z.of_nat (length into) + getCount b ->
  (flush true b into).2 <> [].
Proof.
  intros Hpos. unfold flush.
  destruct (flush_words_count (length b) b into) as (ws & Hws & Hcount).
  destruct (flush_words (length b) b into) as [rest into'].
  cbn [fst snd] in *. subst into'.
  destruct rest as [|x rest]; cbn [fst snd].
  - change (getCount []) with 0 in Hcount.
    intros E. apply (f_equal length) in E. rewrite length_app in E.
    cbn [length] in E. lia.
  - intros E. apply (f_equal length) in E. rewrite !length_app in E.
    cbn [length] in E. lia.
Qed.

Lemma emittedBits_emit code st :
  emittedBits (emit code st) = emittedBits st + codeLen code.
Proof.
  unfold emit, emittedBits.
  pose proof (flush_keeps_count (packCode code (bits st)) (data st)) as H.
  destruct (flush false _ _) as [b d]. cbn [fst snd bits data] in *.
  rewrite H, getCount_packCode. lia.
Qed.

Lemma emit_fields code st :
  dict (emit code st) = dict st /\ prevCode (emit code st) = prevCode st
  /\ repeatCount (emit code st) = repeatCount st
  /\ repeating (emit code st) = repeating st
  /\ (bits (emit code st), data (emit code st))
     = flush false (packCode code (bits st)) (data st).
Proof.
  unfold emit. destruct (flush false _ _) as [b d]. repeat split.
Qed.

End BitBufferFacts.

Section BlockClaims.
Import DUB.

(** Three equal tiles: DELTA 0, REF 0, REF 0 and the stowed REPEAT 0 are all
    written, 20 bits in two words. *)
Example three_zero_tiles_payload :
  encodeBlock (fun _ => 0) 3 3 1 = [2112; 0]
  /\ codeLen (mkCode DELTA 0) + 2 * codeLen (mkCode REF 0)
     + codeLen (mkCode REPEAT 0) = 20.
Proof. split; reflexivity. Qed.

(** C1 (as stated, refuted): after the tiles 0, 0 the third tile 0 again
    yields REF 0, equal to the previous code, with no run active; the
    encoder starts the run and still writes the 5 bits of that code. *)
Lemma run_start_is_not_skipped :
  ~ (forall st tile,
       let code := findBestCode (dict st) tile in
       repeating st = false ->
       type code = type (prevCode st) -> value code = value (prevCode st) ->
       let st' := encodeTile st tile in
       repeating st' = true /\ repeatCount st' = 0
       /\ emittedBits st' = emittedBits st).
Proof.
  intros H.
  specialize (H afterTwoZeros 0 eq_refl eq_refl eq_refl).
  destruct H as (_ & _ & H). vm_compute in H. discriminate H.
Qed.

(** C1 (amended): when the chosen code equals the previous code and no run
    is active, the encoder sets [repeating] with [repeatCount = 0] and writes
    that code as usual, which adds its [codeLen >= 5] bits to the block; it
    is only while a run is active that an equal code is skipped, counted in
    [repeatCount] and adds no bits. *)
Theorem run_start_emits_code (st : BlockState) (tile : Z) :
  let code := findBestCode (dict st) tile in
  type code = type (prevCode st) -> value code = value (prevCode st) ->
  let st' := encodeTile st tile in
  (repeating st = false ->
     repeating st' = true /\ repeatCount st' = 0
     /\ (bits st', data st') = flush false (packCode code (bits st)) (data st)
     /\ emittedBits st' = emittedBits st + codeLen code
     /\ 5 <= codeLen code)
  /\ (repeating st = true ->
     repeating st' = true /\ repeatCount st' = wrap_u32 (repeatCount st + 1)
     /\ bits st' = bits st /\ data st' = data st).
Proof.
  intros code Ht Hv st'. subst st'. unfold encodeTile. fold code.
  rewrite Ht, Hv, bool_decide_eq_true_2, Z.eqb_refl by reflexivity.
  cbn [andb repeating].
  split; intros Hrep; rewrite Hrep.
  - set (st1 := mkBlock _ _ _ _ 0 true).
    destruct (emit_fields code st1) as (_ & _ & Hc & Hr & Hf).
    rewrite Hc, Hr, Hf, emittedBits_emit.
    repeat split. apply codeLen_header, findBestCode_type.
  - repeat split.
Qed.

Lemma run_start_emits_code_witness :
  emittedBits (encodeTile afterTwoZeros 0) = emittedBits afterTwoZeros + 5.
Proof.
  pose proof (run_start_emits_code afterTwoZeros 0 eq_refl eq_refl) as H.
  cbv zeta in H. destruct H as [H _].
  destruct (H eq_refl) as (_ & _ & _ & He & _).
  rewrite He. reflexivity.
Defined.

End BlockClaims.

(** ** DUB: deduplication *)

Section DedupeFacts.
Import DUB.

Lemma firstOccurrences_snoc ps p :
  firstOccurrences (ps ++ [p]) = keepNew (firstOccurrences ps) p.
Proof. unfold firstOccurrences. now rewrite fold_left_app. Qed.

Lemma elem_of_firstOccurrences ps p : p ∈ firstOccurrences ps <-> p ∈ ps.
Proof.
  induction ps as [|q ps IH] using rev_ind.
  - reflexivity.
  - rewrite firstOccurrences_snoc. unfold keepNew.
    destruct (decide (q ∈ firstOccurrences ps)) as [Hin|Hni];
      rewrite ?elem_of_app, ?list_elem_of_singleton, IH.
    + split; [tauto|]. intros [H| ->]; [assumption | now apply IH].
    + reflexivity.
Qed.

Lemma NoDup_firstOccurrences ps : NoDup (firstOccurrences ps).
Proof.
  induction ps as [|q ps IH] using rev_ind.
  - constructor.
  - rewrite firstOccurrences_snoc. unfold keepNew.
    destruct (decide (q ∈ firstOccurrences ps)) as [Hin|Hni]; [assumption|].
    apply NoDup_app. split; [assumption|]. split.
    + intros x Hx Hq. apply list_elem_of_singleton in Hq. now subst.
    + apply NoDup_singleton.
Qed.

Lemma firstOccurrences_NoDup ps : NoDup ps -> firstOccurrences ps = ps.
Proof.
  induction ps as [|q ps IH] using rev_ind; [reflexivity|].
  intros Hnd. apply NoDup_app in Hnd as (Hps & Hq & _).
  rewrite firstOccurrences_snoc, IH by assumption. unfold keepNew.
  destruct (decide (q ∈ ps)) as [Hin|Hni]; [|reflexivity].
  exfalso. apply (Hq q Hin). now apply list_elem_of_singleton.
Qed.

Lemma offsetOf_nonneg us p : 0 <= offsetOf us p.
Proof.
  induction us as [|u us IH]; cbn [offsetOf]; [lia|].
  destruct (decide (u = p)); lia.
Qed.

Lemma offsetOf_app_in us vs p : p ∈ us -> offsetOf (us ++ vs) p = offsetOf us p.
Proof.
  induction us as [|u us IH]; intros Hin.
  - now apply elem_of_nil in Hin.
  - cbn [app offsetOf]. destruct (decide (u = p)) as [|Hne]; [reflexivity|].
    apply elem_of_cons in Hin as [->|Hin]; [contradiction|].
    now rewrite IH.
Qed.

Lemma offsetOf_app_new us p :
  p ∉ us -> offsetOf (us ++ [p]) p = Z.of_nat (length (concat us)).
Proof.
  induction us as [|u us IH]; intros Hni.
  - cbn. now rewrite decide_True.
  - cbn [app offsetOf concat]. apply not_elem_of_cons in Hni as [Hne Hni].
    rewrite decide_False by congruence.
    rewrite IH, length_app by assumption. lia.
Qed.

(** A payload of [us] lies in the concatenation, at its offset. *)
Lemma offsetOf_points us p :
  p ∈ us ->
  offsetOf us p + Z.of_nat (length p) <= Z.of_nat (length (concat us))
  /\ take (length p) (drop (Z.to_nat (offsetOf us p)) (concat us)) = p.
Proof.
  induction us as [|u us IH]; intros Hin.
  - now apply elem_of_nil in Hin.
  - cbn [offsetOf concat]. rewrite length_app.
    destruct (decide (u = p)) as [->|Hne].
    + split; [lia|]. change (Z.to_nat 0) with 0%nat. rewrite drop_0.
      now rewrite take_app_length.
    + apply elem_of_cons in Hin as [->|Hin]; [contradiction|].
      destruct (IH Hin) as [Hle Htake]. split; [lia|].
      pose proof (offsetOf_nonneg us p).
      rewrite Z2Nat.inj_add, Nat2Z.id by lia.
      now rewrite drop_app_add.
Qed.

(** Distinct non-empty payloads start at distinct offsets. *)
Lemma offsetOf_inj us p q :
  Forall (fun u => u <> []) us -> p ∈ us -> q ∈ us ->
  offsetOf us p = offsetOf us q -> p = q.
Proof.
  induction us as [|u us IH]; intros Hne Hp Hq Heq.
  - now apply elem_of_nil in Hp.
  - apply Forall_cons in Hne as [Hu Hne]. cbn [offsetOf] in Heq.
    assert (0 < Z.of_nat (length u)) by (destruct u; [contradiction|cbn; lia]).
    pose proof (offsetOf_nonneg us p). pose proof (offsetOf_nonneg us q).
    destruct (decide (u = p)) as [Hup|Hnp], (decide (u = q)) as [Huq|Hnq];
      try congruence; try lia.
    apply elem_of_cons in Hp as [->|Hp]; [contradiction|].
    apply elem_of_cons in Hq as [->|Hq]; [contradiction|].
    apply IH; try assumption. lia.
Qed.

Lemma dedupe_inv_step ps st p :
  dedupe_inv ps st -> dedupe_inv (ps ++ [p]) (addBlock st p).
Proof.
  intros (Hblocks & Hindex & Hmemo). unfold dedupe_inv, addBlock.
  rewrite firstOccurrences_snoc. unfold keepNew.
  rewrite (Hmemo p).
  destruct (decide (p ∈ ps)) as [Hin|Hni].
  - rewrite decide_True by now apply elem_of_firstOccurrences.
    cbn [dBlocks dIndex dedupeMemo]. split; [assumption|]. split.
    + now rewrite map_app, Hindex.
    + intros q. rewrite Hmemo.
      destruct (decide (q ∈ ps)) as [Hq|Hq].
      * rewrite decide_True; [reflexivity|]. apply elem_of_app. now left.
      * destruct (decide (q ∈ ps ++ [p])) as [Hq'|]; [|reflexivity].
        apply elem_of_app in Hq' as [?|Hq']; [contradiction|].
        apply list_elem_of_singleton in Hq'. now subst.
  - rewrite decide_False by now rewrite elem_of_firstOccurrences.
    assert (Hni' : p ∉ firstOccurrences ps)
      by now rewrite elem_of_firstOccurrences.
    cbn [dBlocks dIndex dedupeMemo]. split; [|split].
    + rewrite Hblocks, concat_app. cbn [concat]. now rewrite app_nil_r.
    + rewrite map_app, Hindex, Hblocks. cbn [map].
      rewrite offsetOf_app_new by assumption. f_equal.
      apply map_ext_in. intros q Hq.
      rewrite offsetOf_app_in; [reflexivity|].
      apply elem_of_firstOccurrences. now apply list_elem_of_In.
    + intros q. rewrite lookup_insert.
      destruct (decide (p = q)) as [<-|Hpq].
      * rewrite decide_True by (apply elem_of_app; right; now left).
        rewrite Hblocks, offsetOf_app_new by assumption. reflexivity.
      * rewrite Hmemo.
        destruct (decide (q ∈ ps)) as [Hq|Hq].
        -- rewrite decide_True by (apply elem_of_app; now left).
           rewrite offsetOf_app_in; [reflexivity|].
           now apply elem_of_firstOccurrences.
        -- rewrite decide_False; [reflexivity|].
           intros Hq'. apply elem_of_app in Hq' as [?|Hq']; [contradiction|].
           apply list_elem_of_singleton in Hq'. congruence.
Qed.

Lemma dedupe_spec ps : dedupe_inv ps (dedupe ps).
Proof.
  unfold dedupe. induction ps as [|p ps IH] using rev_ind.
  - repeat split.
  - rewrite fold_left_app. now apply dedupe_inv_step.
Qed.

End DedupeFacts.

(** ** DUB: every block has a payload *)

Section PayloadFacts.
Import DUB.

Lemma encodeTile_not_repeating st tile :
  repeating st = false ->
  emittedBits (encodeTile st tile)
  = emittedBits st + codeLen (findBestCode (dict st) tile).
Proof.
  intros Hrep. unfold encodeTile. cbn [repeating]. rewrite Hrep.
  destruct (_ && _); now rewrite emittedBits_emit.
Qed.

Lemma encodeTile_grows st tile : emittedBits st <= emittedBits (encodeTile st tile).
Proof.
  destruct (repeating st) eqn:Hrep.
  - unfold encodeTile. cbn [repeating]. rewrite Hrep.
    destruct (_ && _).
    + unfold emittedBits. cbn [bits data]. lia.
    + rewrite emittedBits_emit.
      match goal with
      | |- _ <= emittedBits (mkBlock (bits ?s2) (data ?s2) _ _ _ _) + _ =>
          change (emittedBits (mkBlock (bits s2) (data s2) _ _ _ _))
            with (emittedBits s2)
      end.
      rewrite emittedBits_emit.
      match goal with
      | |- _ <= emittedBits ?s1 + codeLen ?rep + codeLen ?c =>
          change (emittedBits s1) with (emittedBits st);
          pose proof (codeLen_nonneg rep); pose proof (codeLen_nonneg c)
      end. lia.
  - rewrite encodeTile_not_repeating by assumption.
    pose proof (codeLen_nonneg (findBestCode (dict st) tile)). lia.
Qed.

Lemma encodeTiles_grow ts : forall st,
  emittedBits st <= emittedBits (fold_left encodeTile ts st).
Proof.
  induction ts as [|t ts IH]; intros st; cbn [fold_left]; [lia|].
  pose proof (encodeTile_grows st t). specialize (IH (encodeTile st t)). lia.
Qed.

Lemma finishBlock_nonempty st : 0 < emittedBits st -> finishBlock st <> [].
Proof.
  intros Hpos. unfold finishBlock. apply flush_final_nonempty.
  unfold emittedBits in Hpos.
  destruct (repeating st); [|assumption].
  rewrite getCount_packCode.
  pose proof (codeLen_nonneg (mkCode REPEAT (wrap_s32 (repeatCount st)))). lia.
Qed.

Lemma blockTiles_nonempty pTopLeft w width height :
  1 <= width -> 1 <= height -> blockTiles pTopLeft w width height <> [].
Proof.
  intros Hw Hh. unfold blockTiles.
  rewrite (seqZ_cons 0 height), (seqZ_cons 0 width) by lia.
  discriminate.
Qed.

(** A block of at least one tile is encoded into at least one word. *)
Lemma encodeBlock_nonempty pTopLeft w width height :
  1 <= width -> 1 <= height -> encodeBlock pTopLeft w width height <> [].
Proof.
  intros Hw Hh. unfold encodeBlock.
  pose proof (blockTiles_nonempty pTopLeft w width height Hw Hh) as Hne.
  destruct (blockTiles pTopLeft w width height) as [|t ts]; [contradiction|].
  cbn [fold_left]. apply finishBlock_nonempty.
  pose proof (encodeTiles_grow ts (encodeTile initBlock t)) as Hgrow.
  rewrite (encodeTile_not_repeating initBlock t eq_refl) in Hgrow.
  pose proof (codeLen_header _ (findBestCode_type (dict initBlock) t)).
  change (emittedBits initBlock) with 0 in Hgrow. lia.
Qed.

Lemma blockStarts_range n limit : forall y x,
  0 <= y -> x ∈ blockStarts n y limit -> 0 <= x < limit.
Proof.
  induction n as [|n IH]; intros y x Hy Hx; cbn [blockStarts] in Hx.
  - now apply elem_of_nil in Hx.
  - destruct (Z.ltb_spec y limit) as [Hlt|]; [|now apply elem_of_nil in Hx].
    apply elem_of_cons in Hx as [->|Hx]; [lia|].
    apply (IH (wrap_u32 (y + BLOCK_SIZE))); [|assumption].
    apply wrap_u32_range.
Qed.

(** The bound on the iterations is never what ends the loop: every multiple
    of [BLOCK_SIZE] below the limit is visited. *)
Lemma blockStarts_complete n : forall y limit k,
  0 <= y -> limit + BLOCK_SIZE <= 2 ^ 32 -> limit - y <= Z.of_nat n ->
  0 <= k -> y + BLOCK_SIZE * k < limit ->
  y + BLOCK_SIZE * k ∈ blockStarts n y limit.
Proof.
  unfold BLOCK_SIZE.
  induction n as [|n IH]; intros y limit k Hy Hlim Hn Hk Hlt; [lia|].
  cbn [blockStarts]. destruct (Z.ltb_spec y limit); [|lia].
  destruct (Z.eq_dec k 0) as [->|Hne].
  - rewrite Z.mul_0_r, Z.add_0_r. now left.
  - right. unfold BLOCK_SIZE. rewrite wrap_u32_small by lia.
    replace (y + 8 * k) with ((y + 8) + 8 * (k - 1)) by lia.
    apply IH; lia.
Qed.

Lemma blockPayloads_nonempty rd w h frames :
  0 <= w < 2 ^ 32 -> 0 <= h < 2 ^ 32 ->
  Forall (fun p => p <> []) (blockPayloadsFrom rd w h frames).
Proof.
  intros Hw Hh. apply Forall_forall. intros p Hp.
  unfold blockPayloadsFrom in Hp.
  apply list_elem_of_bind in Hp as (f & Hp & _).
  apply list_elem_of_bind in Hp as (y & Hp & Hy).
  apply list_elem_of_bind in Hp as (x & Hp & Hx).
  apply list_elem_of_singleton in Hp. subst p.
  apply blockStarts_range in Hy; [|lia].
  apply blockStarts_range in Hx; [|lia].
  unfold BLOCK_SIZE.
  apply encodeBlock_nonempty; rewrite wrap_u32_small; lia.
Qed.

End PayloadFacts.

(** ** DUB: the index *)

Section IndexClaims.
Import DUB.

Lemma encodeTiles_results width height frames tiles :
  let e := encodeTiles width height frames tiles in
  let ps := blockPayloads width height frames tiles in
  let us := firstOccurrences ps in
  blockResult e = concat us
  /\ indexResult e = map (fun p => wrap_u16 (offsetOf us p)) ps.
Proof.
  cbv zeta. unfold encodeTiles, encodeTilesFrom, blockPayloads.
  destruct (dedupe_spec
    (blockPayloadsFrom (vec_get 0 tiles)
       (wrap_u32 width) (wrap_u32 height) (wrap_u32 frames)))
    as (Hb & Hi & _).
  split; [exact Hb | exact Hi].
Qed.

Lemma encodeTiles_payloads_nonempty width height frames tiles :
  Forall (fun p => p <> []) (blockPayloads width height frames tiles).
Proof.
  apply blockPayloads_nonempty; apply wrap_u32_range.
Qed.

Lemma wrap_u16_le z : 0 <= z -> wrap_u16 z <= z.
Proof. intros Hz. unfold wrap_u16. apply Z.mod_le; lia. Qed.

(** Every stored offset is a 16-bit value that lies strictly inside the
    block data. *)
Lemma stored_offset_range width height frames tiles i :
  let e := encodeTiles width height frames tiles in
  0 <= i < Z.of_nat (length (indexResult e)) ->
  0 <= vec_get 0 (indexResult e) i < 2 ^ 16
  /\ vec_get 0 (indexResult e) i < Z.of_nat (length (blockResult e)).
Proof.
  intros e Hi.
  destruct (encodeTiles_results width height frames tiles) as [Hb Hidx].
  fold e in Hb, Hidx.
  set (ps := blockPayloads width height frames tiles) in *.
  set (us := firstOccurrences ps) in *.
  assert (Hlen : length (indexResult e) = length ps)
    by now rewrite Hidx, length_map.
  destruct (lookup_lt_is_Some_2 ps (Z.to_nat i)) as [p Hp]; [lia|].
  assert (Hget : vec_get 0 (indexResult e) i = wrap_u16 (offsetOf us p)).
  { rewrite <- (Z2Nat.id i) by lia. apply vec_get_lookup.
    rewrite Hidx. change map with (@fmap list _). 
    now rewrite list_lookup_fmap, Hp. }
  rewrite Hget. split; [apply wrap_u16_range|].
  assert (Hin : p ∈ us).
  { apply elem_of_firstOccurrences. eapply list_elem_of_lookup_2, Hp. }
  destruct (offsetOf_points us p Hin) as [Hle _].
  pose proof (encodeTiles_payloads_nonempty width height frames tiles) as Hne.
  rewrite Forall_forall in Hne.
  assert (p <> []) by (apply Hne; eapply list_elem_of_lookup_2, Hp).
  assert (0 < Z.of_nat (length p)) by (destruct p; [contradiction|cbn; lia]).
  pose proof (wrap_u16_le (offsetOf us p) (offsetOf_nonneg us p)).
  rewrite Hb. lia.
Qed.

(** C6 (amended): as long as the block data is at most 65536 words, the
    block-data region is the concatenation of the distinct payloads in
    first-occurrence order, the index entry of every block is the offset at
    which its payload (kept once, at its first occurrence) lies in that
    region, and two blocks have the same entry exactly when their payloads
    are identical. *)
Theorem dedupe_exact_below_64k (width height frames : Z) (tiles : list Z) :
  let e := encodeTiles width height frames tiles in
  let ps := blockPayloads width height frames tiles in
  let us := firstOccurrences ps in
  Z.of_nat (length (blockResult e)) <= 0x10000 ->
  blockResult e = concat us
  /\ indexResult e = map (offsetOf us) ps
  /\ (forall i p, ps !! i = Some p ->
        take (length p) (drop (Z.to_nat (offsetOf us p)) (blockResult e)) = p)
  /\ (forall i j p q, ps !! i = Some p -> ps !! j = Some q ->
        (indexResult e !! i = indexResult e !! j <-> p = q)).
Proof.
  intros e ps us Hsize.
  destruct (encodeTiles_results width height frames tiles) as [Hb Hidx].
  fold e ps us in Hb, Hidx.
  pose proof (encodeTiles_payloads_nonempty width height frames tiles) as Hne.
  fold ps in Hne.
  assert (Hus : Forall (fun p => p <> []) us).
  { apply Forall_forall. intros p Hp. rewrite Forall_forall in Hne.
    apply Hne. now apply elem_of_firstOccurrences. }
  assert (Hexact : forall p, p ∈ ps -> wrap_u16 (offsetOf us p) = offsetOf us p).
  { intros p Hp. apply elem_of_firstOccurrences in Hp. fold us in Hp.
    destruct (offsetOf_points us p Hp) as [Hle _].
    rewrite Forall_forall in Hus. specialize (Hus p Hp).
    assert (0 < Z.of_nat (length p)) by (destruct p; [contradiction|cbn; lia]).
    pose proof (offsetOf_nonneg us p).
    apply wrap_u16_small. rewrite <- Hb in Hle. lia. }
  assert (Hidx' : indexResult e = map (offsetOf us) ps).
  { rewrite Hidx. apply map_ext_in. intros p Hp. apply Hexact.
    now apply list_elem_of_In. }
  split; [exact Hb|]. split; [exact Hidx'|]. split.
  - intros i p Hp. rewrite Hb. apply offsetOf_points.
    apply elem_of_firstOccurrences. eapply list_elem_of_lookup_2, Hp.
  - intros i j p q Hp Hq. rewrite Hidx'. change map with (@fmap list _).
    rewrite !list_lookup_fmap, Hp, Hq. cbn [fmap option_fmap option_map].
    split; [|now intros ->].
    intros Heq. injection Heq as Heq.
    apply (offsetOf_inj us); try assumption;
      apply elem_of_firstOccurrences; eapply list_elem_of_lookup_2; eassumption.
Qed.

Lemma dedupe_exact_below_64k_witness :
  let e := encodeTiles 16 8 1 (replicate 128 5) in
  indexResult e = [0; 0] /\ blockResult e = [2152; 235].
Proof.
  pose proof (dedupe_exact_below_64k 16 8 1 (replicate 128 5)
                ltac:(vm_compute; discriminate)) as H.
  cbv zeta in H. destruct H as (Hb & Hi & _).
  split; [rewrite Hi | rewrite Hb]; vm_compute; reflexivity.
Defined.

(** The entry of [packIndex] under the 8-bit hypothesis, without wrap. *)
Lemma packIndex8_exact (e : DUBEncoder) (i : Z) :
  let n := Z.of_nat (length (indexResult e)) in
  mIndex16 e = false -> n + 1 < 2 ^ 32 -> 0 <= i < n ->
  0 <= vec_get 0 (indexResult e) i < 2 ^ 16 ->
  getIndexSize e = (n + 1) / 2
  /\ nextWord e i = (i + 2) / 2
  /\ nextWord e i <= getIndexSize e
  /\ packIndex e i = (n + 1) / 2 + vec_get 0 (indexResult e) i - (i + 2) / 2.
Proof.
  intros n H8 Hn Hi Hs.
  assert (Hsize : getIndexSize e = (n + 1) / 2).
  { unfold getIndexSize. rewrite H8. fold n.
    now rewrite (wrap_u32_small n), wrap_u32_small by lia. }
  assert (Hnext : nextWord e i = (i + 2) / 2).
  { unfold nextWord. rewrite H8. now rewrite wrap_u32_small by lia. }
  assert (Hle : (i + 2) / 2 <= (n + 1) / 2) by (apply Z.div_le_mono; lia).
  assert (0 <= (i + 2) / 2) by (apply Z.div_pos; lia).
  assert ((n + 1) / 2 < 2 ^ 31) by (apply Z.div_lt_upper_bound; lia).
  repeat split; try congruence.
  unfold packIndex. rewrite Hsize, Hnext.
  now rewrite (wrap_u32_small (_ + _)), wrap_u32_small by lia.
Qed.

(** The entry of [packIndex] under the 16-bit hypothesis, without wrap. *)
Lemma packIndex16_exact (e : DUBEncoder) (i : Z) :
  let n := Z.of_nat (length (indexResult e)) in
  mIndex16 e = true -> n + 2 ^ 16 <= 2 ^ 32 -> 0 <= i < n ->
  0 <= vec_get 0 (indexResult e) i < 2 ^ 16 ->
  getIndexSize e = n
  /\ nextWord e i = i + 1
  /\ nextWord e i <= getIndexSize e
  /\ packIndex e i = n + vec_get 0 (indexResult e) i - (i + 1).
Proof.
  intros n H16 Hn Hi Hs.
  assert (Hsize : getIndexSize e = n).
  { unfold getIndexSize. rewrite H16. fold n. now rewrite wrap_u32_small by lia. }
  assert (Hnext : nextWord e i = i + 1).
  { unfold nextWord. rewrite H16. now rewrite wrap_u32_small by lia. }
  repeat split; try lia.
  unfold packIndex. rewrite Hsize, Hnext.
  now rewrite (wrap_u32_small (_ + _)), wrap_u32_small by lia.
Qed.

Lemma withIndex16_fields e b :
  mIndex16 (withIndex16 e b) = b
  /\ indexResult (withIndex16 e b) = indexResult e
  /\ blockResult (withIndex16 e b) = blockResult e.
Proof. repeat split. Qed.

Lemma encodeTiles_scan width height frames tiles :
  let e := encodeTiles width height frames tiles in
  let n := Z.of_nat (length (indexResult e)) in
  mIndex16 e
  = existsb (fun I => 0x100 <=? packIndex (withIndex16 e false) I)
            (seqZ 0 (wrap_u32 n)).
Proof. reflexivity. Qed.

(** [isTooLarge] is the test [indexSize + blockDataWords >= 65536] as long
    as that sum fits the unsigned arithmetic of the code. *)
Lemma isTooLarge_false (e : DUBEncoder) :
  0 <= getIndexSize e ->
  getIndexSize e + Z.of_nat (length (blockResult e)) < 2 ^ 32 ->
  isTooLarge e = false
  <-> getIndexSize e + Z.of_nat (length (blockResult e)) < 0x10000.
Proof.
  intros Hs Hfit. unfold isTooLarge.
  rewrite wrap_u32_small by lia. rewrite Z.leb_gt. reflexivity.
Qed.

(** C5: the encoder selects the 16-bit index exactly when some block
    position has a packed value of at least 256 under the 8-bit hypothesis,
    that value being [indexSize + storedOffset[i] - nextWord] with
    [indexSize = (blockCount + 1) / 2] and [nextWord = (i + 2) / 2]. *)
Theorem index16_iff_some_entry_exceeds_8_bits
    (width height frames : Z) (tiles : list Z) :
  let e := encodeTiles width height frames tiles in
  let blockCount := Z.of_nat (length (indexResult e)) in
  blockCount + 1 < 2 ^ 32 ->
  isIndex16 e = true <->
  exists i, 0 <= i < blockCount
            /\ 256 <= (blockCount + 1) / 2 + vec_get 0 (indexResult e) i
                      - (i + 2) / 2.
Proof.
  intros e n Hn. unfold isIndex16.
  pose proof (encodeTiles_scan width height frames tiles) as Hscan.
  cbv zeta in Hscan. fold e in Hscan. fold n in Hscan.
  rewrite Hscan, wrap_u32_small by lia.
  assert (Hpack : forall i, 0 <= i < n ->
            packIndex (withIndex16 e false) i
            = (n + 1) / 2 + vec_get 0 (indexResult e) i - (i + 2) / 2).
  { intros i Hi.
    apply (packIndex8_exact (withIndex16 e false) i); try assumption;
      try reflexivity.
    apply (stored_offset_range width height frames tiles i Hi). }
  rewrite existsb_exists. split.
  - intros (i & Hin & Hi). apply list_elem_of_In, elem_of_seqZ in Hin.
    exists i. split; [lia|]. rewrite <- Hpack by lia. lia.
  - intros (i & Hi & Hge). exists i. split.
    + apply list_elem_of_In, elem_of_seqZ. lia.
    + rewrite Hpack by lia. lia.
Qed.

Lemma index16_iff_some_entry_exceeds_8_bits_witness :
  isIndex16 (encodeTiles 8 8 1 (replicate 64 0)) = false.
Proof.
  pose proof (index16_iff_some_entry_exceeds_8_bits 8 8 1 (replicate 64 0)
                ltac:(vm_compute; reflexivity)) as H.
  cbv zeta in H. destruct (isIndex16 _) eqn:E; [|reflexivity].
  apply proj1 in H. destruct (H eq_refl) as (i & Hi & Hge).
  exfalso. vm_compute in Hi. destruct Hi as [H0 H1].
  assert (i = 0) as -> by (destruct i; [reflexivity | destruct p; discriminate | contradiction]).
  vm_compute in Hge. now apply Hge.
Defined.

(** C9 (amended): for every block position and under either index-width
    hypothesis, [indexSize + storedOffset[i] >= nextWord], so that the packed
    value computed in unsigned arithmetic is the exact forward offset
    [indexSize + storedOffset[i] - nextWord].  With the 8-bit index the entry
    is below 256 and is stored as it is; with either width it is below 65536
    and stored as it is whenever the stream is not too large, that is when
    [indexSize + blockDataWords < 65536]. *)
Theorem packed_index_is_forward_offset
    (width height frames : Z) (tiles : list Z) (i : Z) :
  let e := encodeTiles width height frames tiles in
  let blockCount := Z.of_nat (length (indexResult e)) in
  let stored := vec_get 0 (indexResult e) i in
  blockCount + 2 ^ 16 <= 2 ^ 32 -> 0 <= i < blockCount ->
  (forall b, let eb := withIndex16 e b in
     nextWord eb i <= getIndexSize eb + stored
     /\ packIndex eb i = getIndexSize eb + stored - nextWord eb i)
  /\ (mIndex16 e = false -> wrap_u8 (packIndex e i) = packIndex e i)
  /\ (getIndexSize e + Z.of_nat (length (blockResult e)) < 0x10000 ->
      wrap_u16 (packIndex e i) = packIndex e i).
Proof.
  intros e n stored Hn Hi.
  destruct (stored_offset_range width height frames tiles i Hi) as [Hs Hlt].
  fold e stored in Hs, Hlt.
  assert (Hboth : forall b, let eb := withIndex16 e b in
     nextWord eb i <= getIndexSize eb + stored
     /\ packIndex eb i = getIndexSize eb + stored - nextWord eb i).
  { intros [|] eb.
    - destruct (packIndex16_exact eb i) as (Hsz & Hnx & Hle & Hp);
        try assumption; try reflexivity.
      change (indexResult eb) with (indexResult e) in *. fold n stored in Hsz, Hp.
      rewrite Hsz, Hnx, Hp. lia.
    - destruct (packIndex8_exact eb i) as (Hsz & Hnx & Hle & Hp);
        try assumption; try reflexivity; [change (indexResult eb) with (indexResult e); fold n; lia|].
      change (indexResult eb) with (indexResult e) in *. fold n stored in Hsz, Hp.
      rewrite Hsz, Hnx, Hp. lia. }
  assert (He : withIndex16 e (mIndex16 e) = e) by now destruct e.
  split; [exact Hboth|]. split.
  - intros H8.
    assert (Hex : existsb (fun I => 0x100 <=? packIndex (withIndex16 e false) I)
                    (seqZ 0 (wrap_u32 n)) = false).
    { pose proof (encodeTiles_scan width height frames tiles) as Hscan.
      cbv zeta in Hscan. fold e in Hscan. fold n in Hscan.
      now rewrite <- Hscan. }
    rewrite wrap_u32_small in Hex by lia.
    assert (Hlt8 : packIndex (withIndex16 e false) i < 256).
    { destruct (Z.leb_spec 0x100 (packIndex (withIndex16 e false) i)) as [Hge|]; [|lia].
      exfalso. apply Bool.not_true_iff_false in Hex. apply Hex.
      apply existsb_exists. exists i. split.
      - apply list_elem_of_In, elem_of_seqZ. lia.
      - now apply Z.leb_le. }
    rewrite <- H8, He in Hlt8.
    destruct (Hboth (mIndex16 e)) as [Hle Hp]. rewrite He in Hle, Hp.
    unfold wrap_u8. apply Z.mod_small. lia.
  - intros Hsmall.
    destruct (Hboth (mIndex16 e)) as [Hle Hp]. rewrite He in Hle, Hp.
    assert (0 <= nextWord e i).
    { unfold nextWord. destruct (mIndex16 e); [apply wrap_u32_range|].
      apply Z.div_pos; [apply wrap_u32_range | lia]. }
    assert (1 <= nextWord e i).
    { unfold nextWord. destruct (mIndex16 e).
      - rewrite wrap_u32_small; lia.
      - rewrite wrap_u32_small by lia. apply Z.div_le_lower_bound; lia. }
    apply wrap_u16_small. lia.
Qed.

Lemma packed_index_is_forward_offset_witness :
  let e := encodeTiles 16 8 1 (replicate 128 5) in
  wrap_u16 (packIndex e 1) = packIndex e 1.
Proof.
  pose proof (packed_index_is_forward_offset 16 8 1 (replicate 128 5) 1
                ltac:(vm_compute; discriminate)
                ltac:(vm_compute; split; [discriminate | reflexivity])) as H.
  cbv zeta in H. destruct H as (_ & _ & H).
  apply H. vm_compute. reflexivity.
Defined.

End IndexClaims.

(** ** DUB: streams of single-tile blocks *)

Section SingleTileBlocks.
Import DUB.

Lemma encodeBlock_1x1 pTopLeft w :
  encodeBlock pTopLeft w 1 1 = singleTile (pTopLeft 0).
Proof. reflexivity. Qed.

Lemma bind_singleton_map {A B} (g : A -> B) (l : list A) :
  l ≫= (fun x => [g x]) = map g l.
Proof.
  induction l as [|x l IH]; [reflexivity|].
  rewrite bind_cons, IH. reflexivity.
Qed.

(** With a width and a height of one tile every frame is one block. *)
Lemma blockPayloadsFrom_1x1 rd n :
  0 <= n <= 2 ^ 32 ->
  blockPayloadsFrom rd 1 1 n = map (fun f => singleTile (rd f)) (seqZ 0 n).
Proof.
  intros Hn. rewrite <- bind_singleton_map. unfold blockPayloadsFrom.
  apply Forall_bind_ext, Forall_forall. intros f Hf.
  apply elem_of_seqZ in Hf.
  change (blockStarts (Z.to_nat 1) 0 1) with [0].
  rewrite !bind_singleton.
  change (Z.min BLOCK_SIZE (wrap_u32 (1 - 0))) with 1.
  rewrite encodeBlock_1x1.
  change (wrap_u32 (0 + wrap_u32 (0 * 1))) with 0.
  rewrite !Z.mul_1_r, !(wrap_u32_small f), Z.add_0_l by lia.
  rewrite (wrap_u32_small f), Z.add_0_r by lia.
  reflexivity.
Qed.

End SingleTileBlocks.

Section LargeStreams.
Import DUB.

Lemma encodeTiles_1x1 n tiles :
  0 <= n < 2 ^ 32 ->
  blockPayloads 1 1 n tiles
  = map (fun f => singleTile (vec_get 0 tiles f)) (seqZ 0 n).
Proof.
  intros Hn. unfold blockPayloads.
  change (wrap_u32 1) with 1. rewrite (wrap_u32_small n) by lia.
  apply blockPayloadsFrom_1x1. lia.
Qed.

Lemma offsetOf_head us p : (forall u, u ∈ us -> u = p) -> offsetOf us p = 0.
Proof.
  intros Hall. destruct us as [|u us]; [reflexivity|].
  cbn [offsetOf]. rewrite decide_True; [reflexivity|].
  apply Hall. now left.
Qed.

Lemma vec_get_replicate (m : nat) (i : Z) : vec_get 0 (replicate m 0) i = 0.
Proof.
  unfold vec_get. destruct (i <? 0); [reflexivity|].
  rewrite nth_lookup. destruct (replicate m 0 !! Z.to_nat i) eqn:E; [|reflexivity].
  apply lookup_replicate in E as [-> _]. reflexivity.
Qed.

(** The stream of [n] one-tile frames that all hold the tile 0: every block
    has the same payload and every index entry is 0. *)
Lemma uniform_stream_index (n : Z) :
  0 <= n < 2 ^ 32 ->
  let e := encodeTiles 1 1 n (replicate (Z.to_nat n) 0) in
  Z.of_nat (length (indexResult e)) = n
  /\ forall i, vec_get 0 (indexResult e) i = 0.
Proof.
  intros Hn e.
  destruct (encodeTiles_results 1 1 n (replicate (Z.to_nat n) 0)) as [_ Hidx].
  fold e in Hidx. rewrite encodeTiles_1x1 in Hidx by assumption.
  set (ps := map _ (seqZ 0 n)) in Hidx.
  assert (Hps : forall p, p ∈ ps -> p = singleTile 0).
  { intros p Hp. unfold ps in Hp. apply list_elem_of_In, in_map_iff in Hp.
    destruct Hp as (f & <- & _). rewrite vec_get_replicate. reflexivity. }
  split.
  - rewrite Hidx. unfold ps. rewrite !length_map, length_seqZ. lia.
  - intros i. unfold vec_get. destruct (i <? 0); [reflexivity|].
    rewrite nth_lookup.
    destruct (indexResult e !! Z.to_nat i) as [a|] eqn:E; [|reflexivity].
    rewrite Hidx in E. change map with (@fmap list _) in E.
    rewrite list_lookup_fmap in E.
    destruct (ps !! Z.to_nat i) as [p|] eqn:Ep; [|discriminate].
    injection E as <-. cbn [default].
    assert (Hp : p = singleTile 0) by (eapply Hps, list_elem_of_lookup_2, Ep).
    rewrite offsetOf_head; [reflexivity|].
    intros u Hu. apply (proj1 (elem_of_firstOccurrences ps u)) in Hu.
    rewrite Hp. apply Hps, Hu.
Qed.

(** An encoder with 65537 index entries that all store 0 selects the 16-bit
    index, and its first entry, whose exact value is 65536, is written as 0. *)
Lemma first_entry_wraps (e : DUBEncoder) :
  Z.of_nat (length (indexResult e)) = 65537 ->
  (forall i, vec_get 0 (indexResult e) i = 0) ->
  mIndex16 e
  = existsb (fun I => 0x100 <=? packIndex (withIndex16 e false) I)
            (seqZ 0 (wrap_u32 (Z.of_nat (length (indexResult e))))) ->
  mIndex16 e = true
  /\ packedIndex e !! Z.to_nat 0 = Some 0
  /\ getIndexSize e + vec_get 0 (indexResult e) 0 - nextWord e 0 = 65536.
Proof.
  intros Hlen Hzero Hscan.
  pose proof (packIndex8_exact (withIndex16 e false) 0) as Hp8.
  cbv zeta in Hp8.
  rewrite (proj1 (proj2 (withIndex16_fields e false))) in Hp8.
  rewrite Hlen, Hzero in Hp8.
  specialize (Hp8 eq_refl ltac:(lia) ltac:(lia) ltac:(lia)).
  destruct Hp8 as (_ & _ & _ & Hp8).
  assert (H16 : mIndex16 e = true).
  { rewrite Hscan, Hlen.
    apply existsb_exists. exists 0. split.
    - apply list_elem_of_In, elem_of_seqZ.
      rewrite wrap_u32_small; lia.
    - rewrite Hp8. reflexivity. }
  pose proof (packIndex16_exact e 0) as Hp16.
  cbv zeta in Hp16. rewrite Hlen, Hzero in Hp16.
  specialize (Hp16 H16 ltac:(lia) ltac:(lia) ltac:(lia)).
  destruct Hp16 as (Hsz & Hnx & _ & Hp16).
  split; [exact H16|]. split.
  - change (Z.to_nat 0) with 0%nat. unfold packedIndex. rewrite H16, Hlen.
    change map with (@fmap list _).
    rewrite list_lookup_fmap, lookup_seqZ_lt
      by (rewrite wrap_u32_small; lia).
    cbn [fmap option_fmap option_map].
    change (0 + Z.of_nat 0) with 0. rewrite Hp16. reflexivity.
  - rewrite Hsz, Hnx, Hzero. reflexivity.
Qed.

(** C9 (as stated, refuted): 65537 one-tile frames of tile 0 give 65537
    index entries that all store the offset 0; the index is 16 bits wide and
    the packed value of entry 0 is [65537 + 0 - 1 = 65536], which
    [getResult] writes as the 16-bit word 0. *)
Lemma index16_entry_wraps_on_large_stream :
  ~ (forall width height frames tiles i,
       let e := encodeTiles width height frames tiles in
       0 <= i < Z.of_nat (length (indexResult e)) ->
       (forall b, nextWord (withIndex16 e b) i
                  <= getIndexSize (withIndex16 e b) + vec_get 0 (indexResult e) i)
       /\ (mIndex16 e = true ->
           packedIndex e !! Z.to_nat i
           = Some (getIndexSize e + vec_get 0 (indexResult e) i - nextWord e i))).
Proof.
  intros H.
  destruct (uniform_stream_index 65537 ltac:(lia)) as [Hlen Hzero].
  destruct (first_entry_wraps _ Hlen Hzero (encodeTiles_scan _ _ _ _))
    as (H16 & Hout & Hexact).
  destruct (H 1 1 65537 (replicate (Z.to_nat 65537) 0) 0) as [_ Hclaim].
  - rewrite Hlen. lia.
  - specialize (Hclaim H16). rewrite Hexact in Hclaim.
    rewrite Hout in Hclaim. discriminate Hclaim.
Qed.

End LargeStreams.

(** ** DUB: the payload of a single large tile *)

Section LargeTiles.
Import DUB.

Lemma varBits_S g v :
  varBits (S g) v
  = [negb (Z.shiftr v 3 =? 0);
     Z.testbit (Z.land v (Z.ones 3)) 2;
     Z.testbit (Z.land v (Z.ones 3)) 1;
     Z.testbit (Z.land v (Z.ones 3)) 0]
    ++ (if negb (Z.shiftr v 3 =? 0) then varBits g (Z.shiftr v 3) else []).
Proof.
  unfold varBits. rewrite appendVar_loop_S. cbv zeta.
  assert (Hflag : forall b : bool, Z.testbit (Z.b2z b) 0 = b)
    by (intros [|]; reflexivity).
  destruct (negb (Z.shiftr v 3 =? 0)) eqn:Hmore.
  - rewrite appendVar_loop_app. unfold append.
    change (rev (seqZ 0 1)) with [0]. change (rev (seqZ 0 3)) with [2; 1; 0].
    cbn [map app]. now rewrite Hflag.
  - unfold append.
    change (rev (seqZ 0 1)) with [0]. change (rev (seqZ 0 3)) with [2; 1; 0].
    cbn [map app]. now rewrite Hflag.
Qed.

Lemma shiftr3_bounds v lo hi :
  8 * lo <= v < 8 * hi -> lo <= Z.shiftr v 3 < hi.
Proof.
  intros Hv. rewrite Z.shiftr_div_pow2 by lia. change (2 ^ 3) with 8.
  split; [apply Z.div_le_lower_bound; lia | apply Z.div_lt_upper_bound; lia].
Qed.

(** The bound of 32 groups is never what ends the loop of [appendVar] on a
    32-bit value: eleven groups are enough, and more change nothing. *)
Lemma appendVar_loop_enough g : forall v b extra,
  0 <= v < 8 ^ Z.of_nat (S g) ->
  appendVar_loop (S g + extra) v 3 b = appendVar_loop (S g) v 3 b.
Proof.
  induction g as [|g IH]; intros v b extra Hv.
  - change (8 ^ Z.of_nat 1) with 8 in Hv.
    change (1 + extra)%nat with (S extra). rewrite !appendVar_loop_S. cbv zeta.
    assert (Z.shiftr v 3 = 0) as -> by (pose proof (shiftr3_bounds v 0 1); lia).
    reflexivity.
  - change (S (S g) + extra)%nat with (S (S g + extra)).
    rewrite (appendVar_loop_S (S g + extra)), (appendVar_loop_S (S g)). cbv zeta.
    destruct (negb (Z.shiftr v 3 =? 0)); [|reflexivity].
    apply IH.
    rewrite (Nat2Z.inj_succ (S g)), Z.pow_succ_r in Hv by lia.
    pose proof (shiftr3_bounds v 0 (8 ^ Z.of_nat (S g))). lia.
Qed.

Lemma appendVar_32_bits v b :
  0 <= v < 2 ^ 32 -> appendVar v 3 b = appendVar_loop 11 v 3 b.
Proof.
  intros Hv. unfold appendVar.
  change 32%nat with (11 + 21)%nat. apply (appendVar_loop_enough 10).
  change (8 ^ Z.of_nat 11) with (2 ^ 33). lia.
Qed.

(** A value with [k + 1] significant groups takes [4 * (k + 1)] bits. *)
Lemma length_varBits k : forall g v,
  (k < g)%nat -> 8 ^ Z.of_nat k <= v < 8 ^ Z.of_nat (S k) ->
  length (varBits g v) = (4 * (k + 1))%nat.
Proof.
  induction k as [|k IH]; intros g v Hg Hv.
  - destruct g as [|g]; [lia|]. rewrite varBits_S.
    change (8 ^ Z.of_nat 0) with 1 in Hv. change (8 ^ Z.of_nat 1) with 8 in Hv.
    assert (Z.shiftr v 3 = 0) as ->.
    { pose proof (shiftr3_bounds v 0 1). lia. }
    reflexivity.
  - destruct g as [|g]; [lia|]. rewrite varBits_S.
    rewrite (Nat2Z.inj_succ (S k)), Z.pow_succ_r in Hv by lia.
    rewrite (Nat2Z.inj_succ k), Z.pow_succ_r in Hv by lia.
    pose proof (shiftr3_bounds v (8 ^ Z.of_nat k) (8 ^ Z.of_nat (S k))) as Hs.
    rewrite (Nat2Z.inj_succ k), Z.pow_succ_r in Hs by lia.
    specialize (Hs ltac:(lia)).
    assert (0 < 8 ^ Z.of_nat k) by (apply Z.pow_pos_nonneg; lia).
    destruct (Z.eqb_spec (Z.shiftr v 3) 0) as [E|_]; [lia|].
    cbn [negb]. rewrite length_app, (IH g (Z.shiftr v 3)).
    + cbn [length]. lia.
    + lia.
    + rewrite (Nat2Z.inj_succ k), Z.pow_succ_r by lia. lia.
Qed.

Lemma low_bits_eq v v' :
  Z.testbit (Z.land v (Z.ones 3)) 2 = Z.testbit (Z.land v' (Z.ones 3)) 2 ->
  Z.testbit (Z.land v (Z.ones 3)) 1 = Z.testbit (Z.land v' (Z.ones 3)) 1 ->
  Z.testbit (Z.land v (Z.ones 3)) 0 = Z.testbit (Z.land v' (Z.ones 3)) 0 ->
  v mod 8 = v' mod 8.
Proof.
  intros H2 H1 H0. rewrite !Z.land_ones in * by lia.
  change (2 ^ 3) with 8 in *.
  apply Z.bits_inj'. intros n Hn.
  destruct (Z.lt_ge_cases n 3) as [Hlt|Hge].
  - assert (n = 0 \/ n = 1 \/ n = 2) as [->|[->| ->]] by lia; assumption.
  - change 8 with (2 ^ 3). now rewrite !Z.mod_pow2_bits_high by lia.
Qed.

(** The bits determine the value. *)
Lemma varBits_inj g : forall v v',
  0 <= v < 8 ^ Z.of_nat g -> 0 <= v' < 8 ^ Z.of_nat g ->
  varBits g v = varBits g v' -> v = v'.
Proof.
  induction g as [|g IH]; intros v v' Hv Hv' Heq.
  - change (8 ^ Z.of_nat 0) with 1 in *. lia.
  - rewrite !varBits_S in Heq.
    rewrite Nat2Z.inj_succ, Z.pow_succ_r in Hv, Hv' by lia.
    injection Heq as Hflag H2 H1 H0 Hrest.
    pose proof (low_bits_eq v v' H2 H1 H0) as Hlow.
    pose proof (shiftr3_bounds v 0 (8 ^ Z.of_nat g) ltac:(lia)) as Hs.
    pose proof (shiftr3_bounds v' 0 (8 ^ Z.of_nat g) ltac:(lia)) as Hs'.
    assert (Hhigh : Z.shiftr v 3 = Z.shiftr v' 3).
    { destruct (Z.eqb_spec (Z.shiftr v 3) 0) as [E|N],
               (Z.eqb_spec (Z.shiftr v' 3) 0) as [E'|N'];
        cbn [negb] in *; try discriminate; [congruence|].
      now apply IH. }
    rewrite !Z.shiftr_div_pow2 in Hhigh by lia. change (2 ^ 3) with 8 in Hhigh.
    rewrite (Z.div_mod v 8), (Z.div_mod v' 8) by lia. congruence.
Qed.

Lemma word_of_bits_inj : forall l l',
  length l = length l' -> word_of_bits l = word_of_bits l' -> l = l'.
Proof.
  induction l as [|b l IH]; intros [|b' l'] Hlen Heq; try discriminate.
  - reflexivity.
  - cbn [word_of_bits fold_right] in Heq.
    fold (word_of_bits l) in Heq. fold (word_of_bits l') in Heq.
    injection Hlen as Hlen.
    assert (b = b' /\ word_of_bits l = word_of_bits l') as [-> Hw]
      by (destruct b, b'; cbn [Z.b2z] in Heq; split; try reflexivity; lia).
    f_equal. now apply IH.
Qed.

Lemma flush_words_short n b into :
  (length b < 16)%nat -> flush_words n b into = (b, into).
Proof.
  intros Hlen. destruct n as [|n]; [reflexivity|]. cbn [flush_words].
  destruct (Nat.leb_spec 16 (length b)); [lia | reflexivity].
Qed.

(** A buffer of 17 to 31 bits is flushed into two words. *)
Lemma flush_two_words (b : BitBuffer) :
  (16 < length b < 32)%nat ->
  flush false b [] = (drop 16 b, [word_of_bits (take 16 b)])
  /\ flush true (drop 16 b) [word_of_bits (take 16 b)]
     = ([], [word_of_bits (take 16 b); word_of_bits (drop 16 b)]).
Proof.
  intros Hlen.
  assert (Hd : (0 < length (drop 16 b) < 16)%nat) by (rewrite length_drop; lia).
  split; unfold flush.
  - destruct (length b) as [|n] eqn:E; [lia|]. cbn [flush_words]. rewrite E.
    destruct (Nat.leb_spec 16 (S n)); [|lia].
    rewrite flush_words_short by lia.
    destruct (drop 16 b); reflexivity.
  - rewrite flush_words_short by lia.
    destruct (drop 16 b) as [|x r]; [cbn in Hd; lia|]. reflexivity.
Qed.

Lemma encodeTile_init t :
  encodeTile initBlock t
  = emit (mkCode DELTA t) (mkBlock [] [] [t] (mkCode DELTA t) 0 false).
Proof. reflexivity. Qed.

Lemma packCode_delta t :
  0 <= t -> packCode (mkCode DELTA t) [] = [false; false] ++ varBits 32 t.
Proof.
  intros Ht. unfold packCode. cbn [type value].
  destruct (Z.ltb_spec t 0); [lia|].
  unfold appendVar. rewrite appendVar_loop_app. reflexivity.
Qed.

(** The payload of a one-tile block whose tile has 16 significant bits:
    26 bits in two words. *)
Lemma singleTile_large t :
  32768 <= t < 65536 ->
  let b := [false; false] ++ varBits 32 t in
  length b = 26%nat
  /\ singleTile t = [word_of_bits (take 16 b); word_of_bits (drop 16 b)].
Proof.
  intros Ht b.
  assert (Hlen : length b = 26%nat).
  { unfold b. rewrite length_app, (length_varBits 5); [reflexivity|lia|].
    change (8 ^ Z.of_nat 5) with 32768. change (8 ^ Z.of_nat 6) with 262144. lia. }
  split; [exact Hlen|].
  unfold singleTile. rewrite wrap_u16_small by lia.
  rewrite encodeTile_init. unfold emit, finishBlock.
  cbn [bits data repeating]. rewrite packCode_delta by lia. fold b.
  destruct (flush_two_words b ltac:(lia)) as [-> Hfin].
  cbn [fst snd bits data repeating]. now rewrite Hfin.
Qed.

Lemma two_words_inj (a b c d : Z) : [a; b] = [c; d] -> a = c /\ b = d.
Proof. intros H. injection H as -> ->. split; reflexivity. Qed.

Lemma singleTile_large_inj t t' :
  32768 <= t < 65536 -> 32768 <= t' < 65536 ->
  singleTile t = singleTile t' -> t = t'.
Proof.
  intros Ht Ht' Heq.
  destruct (singleTile_large t Ht) as [Hlen Hs].
  destruct (singleTile_large t' Ht') as [Hlen' Hs'].
  rewrite Hs, Hs' in Heq. apply two_words_inj in Heq as [H1 H2].
  apply word_of_bits_inj in H1; [|rewrite !length_take; lia].
  apply word_of_bits_inj in H2; [|rewrite !length_drop; lia].
  assert (Hb : [false; false] ++ varBits 32 t = [false; false] ++ varBits 32 t').
  { rewrite <- (take_drop 16 (_ ++ varBits 32 t)), H1, H2. apply take_drop. }
  apply app_inv_head in Hb.
  assert (65536 < 8 ^ Z.of_nat 32) by (vm_compute; reflexivity).
  apply (varBits_inj 32); [lia | lia | exact Hb].
Qed.

End LargeTiles.

(** ** DUB: block data beyond 65536 words *)

Section OffsetWrap.
Import DUB.

Lemma offsetOf_lookup (l : list (list Z)) (j : nat) (p : list Z) :
  NoDup l -> l !! j = Some p ->
  offsetOf l p = Z.of_nat (length (concat (take j l))).
Proof.
  intros Hnd Hj.
  pose proof (take_drop_middle l j p Hj) as Hsplit.
  rewrite <- Hsplit in Hnd. apply NoDup_app in Hnd as (_ & Hfresh & _).
  assert (Hni : p ∉ take j l).
  { intros Hin. apply (Hfresh p Hin). now left. }
  rewrite <- Hsplit at 1.
  change (p :: drop (S j) l) with ([p] ++ drop (S j) l).
  rewrite app_assoc, offsetOf_app_in by (apply elem_of_app; right; now left).
  now apply offsetOf_app_new.
Qed.

Lemma length_concat_pairs (l : list (list Z)) :
  Forall (fun p => length p = 2%nat) l ->
  length (concat l) = (2 * length l)%nat.
Proof.
  induction 1 as [|p l Hp _ IH]; [reflexivity|].
  cbn [concat length]. rewrite length_app, Hp, IH. lia.
Qed.

(** When the first [k] payloads are distinct two-word payloads and
    [2 * k = 65536], a new payload met at position [k] is given the offset of
    the first block. *)
Lemma offset_collision (ps : list (list Z)) (idx : list Z) (k : nat) p q :
  NoDup ps ->
  idx = map (fun r => wrap_u16 (offsetOf (firstOccurrences ps) r)) ps ->
  ps !! 0%nat = Some p -> ps !! k = Some q ->
  (forall j r, (j < k)%nat -> ps !! j = Some r -> length r = 2%nat) ->
  Z.of_nat k = 32768 ->
  idx !! 0%nat = Some 0 /\ idx !! k = Some 0.
Proof.
  intros Hnd -> Hp Hq Hpairs Hk.
  rewrite firstOccurrences_NoDup by assumption.
  change map with (@fmap list _).
  rewrite !list_lookup_fmap, Hp, Hq. cbn [fmap option_fmap option_map].
  rewrite (offsetOf_lookup ps 0 p), (offsetOf_lookup ps k q) by assumption.
  split; [reflexivity|].
  rewrite length_concat_pairs.
  - rewrite length_take_le by (apply lookup_lt_Some in Hq; lia).
    rewrite Nat2Z.inj_mul, Hk. reflexivity.
  - apply Forall_forall. intros r Hr.
    apply list_elem_of_lookup in Hr as (j & Hj).
    pose proof (lookup_lt_Some _ _ _ Hj) as Hlt.
    rewrite length_take in Hlt.
    rewrite lookup_take_lt in Hj by lia.
    apply (Hpairs j r); [lia | exact Hj].
Qed.

Lemma vec_get_largeTiles f :
  0 <= f <= 32768 ->
  vec_get 0 largeTiles f = if f <? 32768 then 32768 + f else 0.
Proof.
  intros Hf. unfold vec_get, largeTiles.
  destruct (Z.ltb_spec f 0); [lia|]. rewrite nth_lookup.
  destruct (Z.ltb_spec f 32768) as [Hlt|Hge].
  - rewrite lookup_app_l by (rewrite length_seqZ; lia).
    rewrite lookup_seqZ_lt by lia. rewrite Z2Nat.id by lia. reflexivity.
  - assert (f = 32768) as -> by lia.
    rewrite lookup_app_r by (rewrite length_seqZ; lia).
    rewrite length_seqZ, Nat.sub_diag. reflexivity.
Qed.

Lemma largeTiles_payloads :
  let ps := blockPayloads 1 1 32769 largeTiles in
  NoDup ps
  /\ ps !! 0%nat = Some (singleTile 32768)
  /\ ps !! Z.to_nat 32768 = Some (singleTile 0)
  /\ (forall j r, (j < Z.to_nat 32768)%nat -> ps !! j = Some r ->
        length r = 2%nat).
Proof.
  intros ps. unfold ps. rewrite encodeTiles_1x1 by lia.
  change map with (@fmap list _).
  assert (Hget : forall j : nat, Z.of_nat j <= 32768 ->
            (fmap (M:=list) (fun f => singleTile (vec_get 0 largeTiles f))
               (seqZ 0 32769)) !! j
            = Some (singleTile (if Z.of_nat j <? 32768
                                then 32768 + Z.of_nat j else 0))).
  { intros j Hj. rewrite list_lookup_fmap, lookup_seqZ_lt by lia.
    cbn [fmap option_fmap option_map].
    rewrite Z.add_0_l, vec_get_largeTiles by lia. reflexivity. }
  split; [|split; [|split]].
  - apply NoDup_fmap_2_strong; [|apply NoDup_seqZ].
    intros x y Hx Hy Heq.
    apply elem_of_seqZ in Hx. apply elem_of_seqZ in Hy.
    rewrite !vec_get_largeTiles in Heq by lia.
    destruct (Z.ltb_spec x 32768), (Z.ltb_spec y 32768).
    + apply singleTile_large_inj in Heq; lia.
    + destruct (singleTile_large (32768 + x) ltac:(lia)) as [_ Hs].
      rewrite Hs in Heq. discriminate Heq.
    + destruct (singleTile_large (32768 + y) ltac:(lia)) as [_ Hs].
      rewrite Hs in Heq. discriminate Heq.
    + lia.
  - rewrite (Hget 0%nat) by lia. reflexivity.
  - rewrite Hget by lia. rewrite Z2Nat.id by lia. reflexivity.
  - intros j r Hj Hr. rewrite Hget in Hr by lia.
    destruct (Z.ltb_spec (Z.of_nat j) 32768); [|lia].
    injection Hr as <-.
    destruct (singleTile_large (32768 + Z.of_nat j) ltac:(lia)) as [_ Hs].
    now rewrite Hs.
Qed.

(** C6 (as stated, refuted): on the 32769 one-tile frames [largeTiles] the
    first 32768 blocks fill exactly 65536 words of block data, so the last
    block, whose payload is new and one word long, is given the offset 65536
    stored in 16 bits, that is 0: it shares the index entry of the first
    block although their payloads differ. *)
Lemma distinct_payloads_share_an_offset :
  ~ (forall width height frames tiles,
       let e := encodeTiles width height frames tiles in
       let ps := blockPayloads width height frames tiles in
       let us := firstOccurrences ps in
       blockResult e = concat us
       /\ indexResult e = map (offsetOf us) ps
       /\ (forall i j p q, ps !! i = Some p -> ps !! j = Some q ->
             (indexResult e !! i = indexResult e !! j <-> p = q))).
Proof.
  intros H. destruct (H 1 1 32769 largeTiles) as (_ & _ & Hiff). clear H.
  destruct largeTiles_payloads as (Hnd & Hp & Hq & Hpairs).
  destruct (encodeTiles_results 1 1 32769 largeTiles) as [_ Hidx].
  destruct (offset_collision _ _ _ _ _ Hnd Hidx Hp Hq Hpairs ltac:(lia))
    as [H0 Hk].
  specialize (Hiff _ _ _ _ Hp Hq).
  rewrite H0, Hk in Hiff.
  pose proof (proj1 Hiff eq_refl) as Heq.
  clear Hiff Hnd Hp Hq Hpairs Hidx H0 Hk.
  destruct (singleTile_large 32768 ltac:(lia)) as [_ Hs].
  rewrite Hs in Heq. clear Hs.
  assert (Hone : singleTile 0 = [0]) by reflexivity.
  rewrite Hone in Heq. discriminate Heq.
Qed.

End OffsetWrap.

(** * Further properties *)

(** ** Bytes and bit fields *)

Lemma Z_of_byte_of_Z z : Z_of_byte (byte_of_Z z) = wrap_u8 z.
Proof.
  unfold Z_of_byte, byte_of_Z.
  assert (Hr : 0 <= wrap_u8 z < 256) by (apply Z.mod_pos_bound; lia).
  destruct (Byte.of_N (Z.to_N (wrap_u8 z))) as [b|] eqn:E.
  - cbn [default id]. apply Byte.to_of_N in E. rewrite E. lia.
  - apply Byte.of_N_None_iff in E. lia.
Qed.

Lemma Z_of_byte_range b : 0 <= Z_of_byte b < 256.
Proof.
  unfold Z_of_byte. pose proof (Byte.to_N_bounded b). lia.
Qed.

Lemma wrap_s16_range z : -32768 <= wrap_s16 z <= 32767.
Proof.
  unfold wrap_s16. pose proof (Z.mod_pos_bound (z + 2 ^ 15) (2 ^ 16)). lia.
Qed.

Lemma wrap_s16_small z : -32768 <= z <= 32767 -> wrap_s16 z = z.
Proof. intros Hz. unfold wrap_s16. rewrite Z.mod_small; lia. Qed.

Lemma wrap_u64_range z : 0 <= wrap_u64 z < 2 ^ 64.
Proof. unfold wrap_u64. apply Z.mod_pos_bound. lia. Qed.

Lemma wrap_u64_small z : 0 <= z < 2 ^ 64 -> wrap_u64 z = z.
Proof. intros Hz. unfold wrap_u64. now apply Z.mod_small. Qed.

(** A field placed above the bits of [a] is added to it. *)
Lemma lor_shiftl_add a b k :
  0 <= k -> 0 <= a < 2 ^ k -> Z.lor a (Z.shiftl b k) = a + b * 2 ^ k.
Proof.
  intros Hk Ha. rewrite <- Z.shiftl_mul_pow2 by lia.
  symmetry. apply Z.add_nocarry_lor.
  apply Z.bits_inj'. intros n Hn. rewrite Z.land_spec, Z.bits_0.
  destruct (Z.lt_ge_cases n k) as [Hlt|Hge].
  - rewrite Z.shiftl_spec_low by lia. apply andb_false_r.
  - rewrite <- (Z.mod_small a (2 ^ k)) by lia.
    rewrite Z.mod_pow2_bits_high by lia. reflexivity.
Qed.

Lemma field_split a b k :
  0 <= k -> 0 <= a < 2 ^ k -> 0 <= b ->
  Z.land (a + b * 2 ^ k) (Z.ones k) = a /\ Z.shiftr (a + b * 2 ^ k) k = b.
Proof.
  intros Hk Ha Hb. assert (0 < 2 ^ k) by (apply Z.pow_pos_nonneg; lia). split.
  - rewrite Z.land_ones by lia.
    rewrite Z.mod_add by lia. apply Z.mod_small. lia.
  - rewrite Z.shiftr_div_pow2 by lia.
    rewrite Z.div_add by lia. rewrite Z.div_small by lia. lia.
Qed.

(** ** ADPCM: nybbles, header and body *)

Section ADPCMBody.
Import ADPCM.

Lemma bestOf_code_range step diff n :
  0 <= (bestOf step diff n).1 <= Z.max 0 (Z.of_nat n - 1).
Proof.
  induction n as [|n IH].
  - change (bestOf step diff 0) with (0, 0x100000). cbn [fst]. lia.
  - rewrite bestOf_S. unfold tryCode.
    destruct (_ <=? _); cbn [fst]; lia.
Qed.

Lemma encodeSample_code_range st s : 0 <= (encodeSample st s).2 <= 15.
Proof.
  unfold encodeSample.
  pose proof (bestOf_code_range
    (vec_get 0 stepSizeTable (index st)) (s - sample st) 16) as H.
  destruct (bestOf _ _ 16) as [bestCode bestDiff]. cbn [fst snd] in *. lia.
Qed.

Lemma readSample_range inp k : -32768 <= readSample inp k <= 32767.
Proof. apply wrap_s16_range. Qed.

Lemma nybble_byte n1 n2 :
  0 <= n1 <= 15 -> 0 <= n2 <= 15 ->
  Z.land (Z_of_byte (byte_of_Z (Z.lor n1 (Z.shiftl n2 4)))) 15 = n1
  /\ Z.shiftr (Z_of_byte (byte_of_Z (Z.lor n1 (Z.shiftl n2 4)))) 4 = n2.
Proof.
  intros H1 H2.
  rewrite Z_of_byte_of_Z, (lor_shiftl_add n1 n2 4) by lia.
  change (2 ^ 4) with 16. unfold wrap_u8. rewrite Z.mod_small by lia.
  apply (field_split n1 n2 4); lia.
Qed.

(** X1: the byte written by [encodePair] holds the code of the first sample
    in its low nybble and the code of the second sample in its high nybble,
    both in 0..15, so that the two codes can be read back from it. *)
Theorem encodePair_byte_splits (st : State) (s1 s2 : Z) (out : list byte) :
  let r1 := encodeSample st s1 in
  let r2 := encodeSample r1.1 s2 in
  exists b,
    (encodePair st s1 s2 out).2 = out ++ [b]
    /\ 0 <= r1.2 <= 15 /\ 0 <= r2.2 <= 15
    /\ Z.land (Z_of_byte b) 15 = r1.2
    /\ Z.shiftr (Z_of_byte b) 4 = r2.2.
Proof.
  intros r1 r2. unfold encodePair. fold r1.
  pose proof (encodeSample_code_range st s1) as H1. fold r1 in H1.
  destruct r1 as [st1 n1]. cbn [fst snd] in *. fold r2.
  pose proof (encodeSample_code_range st1 s2) as H2. fold r2 in H2.
  destruct r2 as [st2 n2]. cbn [fst snd] in *.
  exists (byte_of_Z (Z.lor n1 (Z.shiftl n2 4))).
  split; [reflexivity|]. split; [exact H1|]. split; [exact H2|].
  apply nybble_byte; assumption.
Qed.

(** With a valid state and a 16-bit sample, the state after [encodeSample]
    is the one a decoder computes from the nybble alone. *)
Lemma encodeSample_decodes st s :
  state_ok st -> -32768 <= s <= 32767 ->
  (encodeSample st s).1 = decodeNybble st (encodeSample st s).2.
Proof.
  intros [Hsm Hix] Hs.
  pose proof (step_range (index st) Hix) as Hstep.
  assert (Hch : chosen (vec_get 0 stepSizeTable (index st)) (s - sample st) 16
                  (bestOf (vec_get 0 stepSizeTable (index st)) (s - sample st) 16)).
  { apply bestOf_chosen, first_code_accepted; lia. }
  unfold encodeSample, decodeNybble.
  destruct (bestOf _ _ 16) as [bestCode bestDiff].
  destruct Hch as (_ & Hd & _). cbn [fst snd] in *. now rewrite Hd.
Qed.

Lemma encodePair_decodes st s1 s2 out :
  state_ok st -> -32768 <= s1 <= 32767 -> -32768 <= s2 <= 32767 ->
  exists b, (encodePair st s1 s2 out).2 = out ++ [b]
            /\ decodeBody st [b] = encodePair_states st s1 s2.
Proof.
  intros Hst H1 H2.
  pose proof (encodeSample_decodes st s1 Hst H1) as Hd1.
  pose proof (encodeSample_decodes (encodeSample st s1).1 s2
                (encodeSample_ok st s1) H2) as Hd2.
  pose proof (encodeSample_code_range st s1) as Hc1.
  pose proof (encodeSample_code_range (encodeSample st s1).1 s2) as Hc2.
  unfold encodePair, encodePair_states.
  destruct (encodeSample st s1) as [st1 n1]. cbn [fst snd] in *.
  destruct (encodeSample st1 s2) as [st2 n2]. cbn [fst snd] in *.
  exists (byte_of_Z (Z.lor n1 (Z.shiftl n2 4))). split; [reflexivity|].
  cbn [decodeBody]. destruct (nybble_byte n1 n2 Hc1 Hc2) as [-> ->].
  now rewrite <- Hd1, <- Hd2.
Qed.

Lemma decodeBody_app st b1 b2 :
  decodeBody st (b1 ++ b2)
  = decodeBody st b1 ++ decodeBody (List.last (decodeBody st b1) st) b2.
Proof.
  revert st. induction b1 as [|b b1 IH]; intros st; [reflexivity|].
  cbn [app decodeBody]. rewrite IH.
  set (st1 := decodeNybble st _). set (st2 := decodeNybble st1 _).
  assert (E : List.last (decodeBody st2 b1) st2
              = List.last (st1 :: st2 :: decodeBody st2 b1) st).
  { destruct (decodeBody st2 b1) as [|x l]; [reflexivity|].
    change (List.last (x :: l) st2 = List.last (x :: l) st).
    apply last_cons_default. }
  now rewrite E.
Qed.

Lemma encodePair_states_last_ok st s1 s2 :
  state_ok (List.last (encodePair_states st s1 s2) st).
Proof. apply encodeSample_ok. Qed.

Lemma encodePairs_states_last_ok k inp : forall p st,
  state_ok st -> state_ok (List.last (encodePairs_states k inp p st) st).
Proof.
  induction k as [|k IH]; intros p st Hst; [exact Hst|].
  cbn [encodePairs_states]. rewrite last_app_nonempty.
  apply IH, encodePair_states_last_ok.
Qed.

(** The body bytes appended by the pair loop: one per pair, and a decoder
    started in the same valid state goes through the states of the encoder. *)
Lemma encodePairs_body k inp : forall p st error out,
  exists body,
    (encodePairs k inp p st error out).2 = out ++ body
    /\ length body = k
    /\ (state_ok st -> decodeBody st body = encodePairs_states k inp p st).
Proof.
  induction k as [|k IH]; intros p st error out.
  - exists []. cbn. rewrite app_nil_r. repeat split.
  - cbn [encodePairs encodePairs_states].
    pose proof (encodePair_state st (readSample inp p) (readSample inp (S p)) out)
      as Hlast.
    pose proof (encodePair_out st (readSample inp p) (readSample inp (S p)) out)
      as [Hout Hone].
    pose proof (fun H => encodePair_decodes st (readSample inp p)
      (readSample inp (S p)) [] H (readSample_range inp p)
      (readSample_range inp (S p))) as Hdec.
    destruct (encodePair st (readSample inp p) (readSample inp (S p)) out)
      as [[st' e] out'] eqn:E. cbn [fst snd] in Hlast, Hout.
    destruct (IH (S (S p)) st' (wrap_u64 (error + e)) out')
      as (body & Hb & Hlen & Hd).
    exists ((encodePair st (readSample inp p) (readSample inp (S p)) []).2 ++ body).
    split; [rewrite Hb, Hout; now rewrite app_assoc|].
    split; [rewrite length_app, Hone, Hlen; reflexivity|].
    intros Hst. destruct (Hdec Hst) as (b & Hb1 & Hd1).
    rewrite Hb1 in *. cbn [app] in Hd1 |- *.
    change (b :: body) with ([b] ++ body).
    rewrite decodeBody_app, Hd1, <- Hlast. f_equal.
    apply Hd. rewrite Hlast. apply encodePair_states_last_ok.
Qed.

(** The whole output of [encodeWithIC]. *)
Lemma encodeWithIC_body st inp inBytes :
  0 <= inBytes ->
  exists body,
    (encodeWithIC st inp inBytes).2 = headerOf st ++ body
    /\ Z.of_nat (length body) = (inBytes / 2 + 1) / 2
    /\ (state_ok st -> decodeBody st body = encodeWithIC_states st inp inBytes).
Proof.
  intros Hn. unfold encodeWithIC, encodeWithIC_run, encodeWithIC_states.
  fold (headerOf st).
  set (ns := inBytes / 2). set (k := Z.to_nat (ns / 2)).
  assert (Hns : 0 <= ns) by (apply Z.div_pos; lia).
  assert (Hk : Z.of_nat k = ns / 2)
    by (unfold k; rewrite Z2Nat.id; [reflexivity | apply Z.div_pos; lia]).
  destruct (encodePairs_body k inp 0 st 0 (headerOf st)) as (body & Hb & Hlen & Hd).
  destruct (encodePairs_state k inp 0 st 0 (headerOf st)) as [Hp Hs].
  destruct (encodePairs k inp 0 st 0 (headerOf st)) as [[[p st1] error] out1].
  cbn [fst snd] in Hb, Hp, Hs. subst p out1.
  rewrite Z.bit0_odd.
  destruct (Z.odd ns) eqn:Hodd.
  - pose proof (encodePair_out st1 (readSample inp (0 + 2 * k))
                  (readSample inp (0 + 2 * k)) (headerOf st ++ body)) as [Hout Hone].
    pose proof (fun H => encodePair_decodes st1 (readSample inp (0 + 2 * k))
      (readSample inp (0 + 2 * k)) [] H (readSample_range inp _)
      (readSample_range inp _)) as Hdec.
    destruct (encodePair st1 _ _ (headerOf st ++ body)) as [[st2 e] out2].
    cbn [fst snd] in Hout.
    exists (body ++ (encodePair st1 (readSample inp (0 + 2 * k))
                      (readSample inp (0 + 2 * k)) []).2).
    split; [rewrite Hout; now rewrite app_assoc|]. split.
    + rewrite length_app, Hone, Hlen, Nat2Z.inj_add, Hk.
      rewrite (Z.div_mod ns 2) at 2 by lia.
      rewrite Zmod_odd, Hodd.
      replace (2 * (ns / 2) + 1 + 1) with ((ns / 2 + 1) * 2) by lia.
      rewrite Z.div_mul by lia. reflexivity.
    + intros Hst. destruct (Hdec ltac:(rewrite Hs; now apply encodePairs_states_last_ok))
        as (b & Hb1 & Hd1).
      rewrite Hb1. cbn [app]. rewrite decodeBody_app, (Hd Hst), <- Hs.
      now rewrite Hd1.
  - exists body. split; [reflexivity|]. split; [|exact Hd].
    rewrite Hlen, Hk.
    rewrite (Z.div_mod ns 2) at 2 by lia.
    rewrite Zmod_odd, Hodd, Z.add_0_r.
    rewrite (Z.mul_comm 2), Z.div_add_l by lia.
    change (1 / 2) with 0. lia.
Qed.

(** X2: [encodeWithIC] writes the 3 header bytes and one byte for every two
    samples, rounded up: 3 + ceil(numSamples / 2) bytes, where
    [numSamples = inBytes / 2] (a trailing odd byte is not a sample). *)
Theorem encodeWithIC_length (st : State) (inp : list byte) (inBytes : Z) :
  0 <= inBytes ->
  take 3 (encodeWithIC st inp inBytes).2 = headerOf st
  /\ Z.of_nat (length (encodeWithIC st inp inBytes).2)
     = 3 + (inBytes / 2 + 1) / 2.
Proof.
  intros Hn.
  destruct (encodeWithIC_body st inp inBytes Hn) as (body & -> & Hlen & _).
  split.
  - change 3%nat with (length (headerOf st)). apply take_app_length.
  - rewrite length_app, Nat2Z.inj_add, Hlen. reflexivity.
Qed.

Lemma encodeWithIC_length_witness :
  length (encodeWithIC (mkState 0 0) swing 4).2 = 4%nat.
Proof.
  pose proof (encodeWithIC_length (mkState 0 0) swing 4 ltac:(lia)) as [_ H].
  apply Nat2Z.inj. rewrite H. reflexivity.
Defined.

(** X3: the header written by [encodeWithIC] reads back as the initial
    state: bytes 0 and 1 are the predictor as a little-endian signed 16-bit
    value, byte 2 is the index. *)
Theorem header_reads_back (st : State) (inp : list byte) (inBytes : Z) :
  state_ok st -> 0 <= inBytes ->
  exists b0 b1 b2 rest,
    (encodeWithIC st inp inBytes).2 = b0 :: b1 :: b2 :: rest
    /\ wrap_s16 (Z.lor (Z_of_byte b0) (Z.shiftl (Z_of_byte b1) 8)) = sample st
    /\ Z_of_byte b2 = index st.
Proof.
  intros [Hsm Hix] Hn.
  destruct (encodeWithIC_body st inp inBytes Hn) as (body & -> & _ & _).
  unfold headerOf. cbn [app].
  eexists _, _, _, _. split; [reflexivity|].
  rewrite !Z_of_byte_of_Z. unfold wrap_u8. split.
  - rewrite lor_shiftl_add by (try apply Z.mod_pos_bound; lia).
    rewrite Z.shiftr_div_pow2 by lia. change (2 ^ 8) with 256.
    assert (E : sample st mod 256 + (sample st / 256) mod 256 * 256
                = sample st mod 65536).
    { change 65536 with (256 * 256).
      rewrite (Z.rem_mul_r (sample st) 256 256) by lia. lia. }
    rewrite E. unfold wrap_s16. change (2 ^ 16) with 65536.
    rewrite Zplus_mod_idemp_l. rewrite Z.mod_small; lia.
  - apply Z.mod_small. lia.
Qed.

Lemma header_reads_back_witness :
  exists b0 b1 b2 rest,
    (encodeWithIC (mkState (-2) 88) swing 4).2 = b0 :: b1 :: b2 :: rest
    /\ wrap_s16 (Z.lor (Z_of_byte b0) (Z.shiftl (Z_of_byte b1) 8)) = -2
    /\ Z_of_byte b2 = 88.
Proof.
  apply (header_reads_back (mkState (-2) 88) swing 4).
  - unfold state_ok. cbn. lia.
  - lia.
Defined.

(** X4: a decoder that starts from the header state and applies the body
    nybbles, low nybble first, goes through exactly the codec states of the
    encoder: the encoder's predictor is the decoder's output. *)
Theorem decoder_follows_encoder (st : State) (inp : list byte) (inBytes : Z) :
  state_ok st -> 0 <= inBytes ->
  decodeBody st (drop 3 (encodeWithIC st inp inBytes).2)
  = encodeWithIC_states st inp inBytes.
Proof.
  intros Hst Hn.
  destruct (encodeWithIC_body st inp inBytes Hn) as (body & -> & _ & Hd).
  change 3%nat with (length (headerOf st)). rewrite drop_app_length.
  now apply Hd.
Qed.

Lemma decoder_follows_encoder_witness :
  decodeBody (mkState 0 0) (drop 3 (encodeWithIC (mkState 0 0) swing 4).2)
  = encodeWithIC_states (mkState 0 0) swing 4.
Proof.
  apply decoder_follows_encoder.
  - unfold state_ok. cbn. lia.
  - lia.
Defined.

(** *** The error metric *)

Lemma squaredError_app sts ss t u :
  length sts = length ss ->
  squaredError (sts ++ t) (ss ++ u) = squaredError sts ss + squaredError t u.
Proof.
  revert ss. induction sts as [|st sts IH]; intros [|s0 ss] Hlen;
    try discriminate; [reflexivity|].
  cbn [app squaredError]. rewrite IH by (cbn in Hlen; lia). lia.
Qed.

Lemma length_encodePairs_states k inp : forall p st,
  length (encodePairs_states k inp p st) = (2 * k)%nat.
Proof.
  induction k as [|k IH]; intros p st; [reflexivity|].
  cbn [encodePairs_states]. rewrite length_app, IH. cbn [encodePair_states length].
  lia.
Qed.

Lemma square_bound d : -65535 <= d <= 65535 -> 0 <= d * d <= 4294836225.
Proof.
  intros Hd. split; [apply Z.square_nonneg|].
  destruct (Z.le_gt_cases 0 d).
  - change 4294836225 with (65535 * 65535).
    apply Z.mul_le_mono_nonneg; lia.
  - replace (d * d) with ((- d) * (- d)) by lia.
    change 4294836225 with (65535 * 65535).
    apply Z.mul_le_mono_nonneg; lia.
Qed.

(** One pair adds the two squared differences; each is below 2^32. *)
Lemma encodePair_error st s1 s2 out :
  -32768 <= s1 <= 32767 -> -32768 <= s2 <= 32767 ->
  (encodePair st s1 s2 out).1.2 = squaredError (encodePair_states st s1 s2) [s1; s2]
  /\ 0 <= squaredError (encodePair_states st s1 s2) [s1; s2] <= 8589672450.
Proof.
  intros H1 H2. unfold encodePair, encodePair_states.
  pose proof (encodeSample_ok st s1) as [Ha _].
  pose proof (encodeSample_ok (encodeSample st s1).1 s2) as [Hb _].
  destruct (encodeSample st s1) as [st1 n1]. cbn [fst snd] in *.
  destruct (encodeSample st1 s2) as [st2 n2]. cbn [fst snd squaredError] in *.
  rewrite Z.add_0_r.
  pose proof (square_bound (sample st1 - s1) ltac:(lia)).
  pose proof (square_bound (sample st2 - s2) ltac:(lia)).
  split; [apply wrap_u64_small|]; lia.
Qed.

Lemma encodePairs_error k inp : forall p st error out,
  0 <= error -> error + Z.of_nat k * 8589672450 < 2 ^ 64 ->
  let se := squaredError (encodePairs_states k inp p st)
                         (map (readSample inp) (seq p (2 * k))) in
  (encodePairs k inp p st error out).1.2 = error + se
  /\ 0 <= se <= Z.of_nat k * 8589672450.
Proof.
  induction k as [|k IH]; intros p st error out He Hfit se.
  - cbn. lia.
  - unfold se. cbn [encodePairs encodePairs_states].
    replace (2 * S k)%nat with (S (S (2 * k))) by lia. cbn [seq map].
    pose proof (encodePair_error st (readSample inp p) (readSample inp (S p)) out
                  (readSample_range inp p) (readSample_range inp (S p)))
      as [Herr Hbound].
    pose proof (encodePair_state st (readSample inp p) (readSample inp (S p)) out)
      as Hlast.
    destruct (encodePair st (readSample inp p) (readSample inp (S p)) out)
      as [[st' e] out'] eqn:E. cbn [fst snd] in Herr, Hlast. subst e.
    set (e := squaredError _ [_; _]) in *.
    rewrite wrap_u64_small by lia.
    destruct (IH (S (S p)) st' (error + e) out' ltac:(lia) ltac:(lia))
      as [Hr Hse].
    rewrite Hr, <- Hlast.
    change (readSample inp p :: readSample inp (S p)
            :: map (readSample inp) (seq (S (S p)) (2 * k)))
      with ([readSample inp p; readSample inp (S p)]
            ++ map (readSample inp) (seq (S (S p)) (2 * k))).
    rewrite squaredError_app by reflexivity. fold e. lia.
Qed.

Lemma encodeWithIC_error_exact st inp inBytes :
  0 <= inBytes < 2 ^ 32 ->
  (encodeWithIC st inp inBytes).1
  = squaredError (encodeWithIC_states st inp inBytes) (fedSamples inp inBytes)
  /\ 0 <= squaredError (encodeWithIC_states st inp inBytes)
                       (fedSamples inp inBytes) < 2 ^ 64 - 1.
Proof.
  intros Hn. unfold encodeWithIC, encodeWithIC_run,
    encodeWithIC_states, fedSamples.
  fold (headerOf st).
  set (ns := inBytes / 2). set (k := Z.to_nat (ns / 2)).
  assert (Hns : 0 <= ns < 2 ^ 31).
  { unfold ns. split; [apply Z.div_pos; lia | apply Z.div_lt_upper_bound; lia]. }
  assert (Hk : Z.of_nat k < 2 ^ 30).
  { unfold k. rewrite Z2Nat.id by (apply Z.div_pos; lia).
    apply Z.div_lt_upper_bound; lia. }
  destruct (encodePairs_error k inp 0 st 0 (headerOf st) ltac:(lia) ltac:(lia))
    as [Herr Hse].
  destruct (encodePairs_state k inp 0 st 0 (headerOf st)) as [Hp Hs].
  pose proof (length_encodePairs_states k inp 0 st) as Hlen.
  destruct (encodePairs k inp 0 st 0 (headerOf st)) as [[[p st1] error] out1].
  cbn [fst snd] in Herr, Hp, Hs. subst p error.
  set (se := squaredError _ _) in *.
  destruct (Z.testbit ns 0).
  - pose proof (encodePair_error st1 (readSample inp (0 + 2 * k))
                  (readSample inp (0 + 2 * k)) out1
                  (readSample_range inp _) (readSample_range inp _))
      as [Hperr Hbound].
    destruct (encodePair st1 _ _ out1) as [[st2 e] out2].
    cbn [fst snd] in Hperr. subst e st1. cbn [Nat.add] in *.
    set (e := squaredError _ [_; _]) in *.
    rewrite squaredError_app by (rewrite Hlen, length_map, length_seq; reflexivity).
    fold se e. rewrite wrap_u64_small by lia. cbn [fst]. lia.
  - rewrite !app_nil_r. fold se. cbn [fst]. lia.
Qed.

Lemma length_encodeWithIC_states st inp inBytes :
  length (encodeWithIC_states st inp inBytes) = length (fedSamples inp inBytes).
Proof.
  unfold encodeWithIC_states, fedSamples.
  destruct (Z.testbit (inBytes / 2) 0);
    rewrite ?length_app, length_encodePairs_states, length_map, length_seq;
    cbn [length encodePair_states]; lia.
Qed.

(** X5: the error metric returned by [encodeWithIC] is exactly the sum,
    over the samples it encodes (the last one twice when their number is
    odd), of the squared difference between the predictor after the sample
    and the sample; for any 32-bit length the 64-bit sum does not wrap. *)
Theorem error_is_sum_of_squares (st : State) (inp : list byte) (inBytes : Z) :
  0 <= inBytes < 2 ^ 32 ->
  let sts := encodeWithIC_states st inp inBytes in
  let ss := fedSamples inp inBytes in
  length sts = length ss
  /\ Z.of_nat (length ss) = 2 * ((inBytes / 2 + 1) / 2)
  /\ (encodeWithIC st inp inBytes).1 = squaredError sts ss
  /\ 0 <= squaredError sts ss < 2 ^ 64 - 1.
Proof.
  intros Hn sts ss.
  split; [apply length_encodeWithIC_states|].
  split; [|apply encodeWithIC_error_exact, Hn].
  unfold ss, fedSamples. set (ns := inBytes / 2).
  assert (Hns : 0 <= ns) by (apply Z.div_pos; lia).
  assert (Hk : Z.of_nat (Z.to_nat (ns / 2)) = ns / 2)
    by (rewrite Z2Nat.id; [reflexivity | apply Z.div_pos; lia]).
  rewrite length_app, length_map, length_seq, Nat2Z.inj_add, Nat2Z.inj_mul, Hk.
  rewrite Z.bit0_odd.
  pose proof (Z.div_mod ns 2 ltac:(lia)) as Hd.
  pose proof (Z.div_mod (ns + 1) 2 ltac:(lia)) as Hd'.
  pose proof (Z.mod_pos_bound (ns + 1) 2 ltac:(lia)) as Hb.
  rewrite Zmod_odd in Hd. destruct (Z.odd ns); cbn [length]; lia.
Qed.

Lemma error_is_sum_of_squares_witness :
  (encodeWithIC (mkState (-32768) 88) swing 4).1
  = squaredError (encodeWithIC_states (mkState (-32768) 88) swing 4)
                 (fedSamples swing 4).
Proof.
  pose proof (error_is_sum_of_squares (mkState (-32768) 88) swing 4
                ltac:(lia)) as H.
  cbv zeta in H. exact (proj1 (proj2 (proj2 H))).
Defined.

Lemma errorFrom_range inp inBytes st :
  0 <= inBytes < 2 ^ 32 -> 0 <= errorFrom inp inBytes st < 2 ^ 64 - 1.
Proof.
  intros Hn. unfold errorFrom.
  destruct (encodeWithIC_error_exact st inp inBytes Hn) as [-> H]. exact H.
Qed.

End ADPCMBody.

(** ** ADPCM: the part of the input that is read *)

Section ADPCMInput.
Import ADPCM.

Lemma nth_take_agree {A} (d : A) (k j : nat) (l l' : list A) :
  take k l = take k l' -> (j < k)%nat -> nth j l d = nth j l' d.
Proof.
  intros Heq Hj.
  rewrite <- (take_drop k l), <- (take_drop k l'), Heq.
  destruct (Nat.lt_ge_cases j (length (take k l'))) as [Hlt|Hge].
  - now rewrite !app_nth1 by exact Hlt.
  - assert (Hl' : (length l' < k)%nat) by (rewrite length_take in Hge; lia).
    assert (Hl : (length l < k)%nat).
    { apply (f_equal length) in Heq. rewrite !length_take in Heq. lia. }
    rewrite !drop_ge by lia. rewrite !app_nil_r.
    reflexivity.
Qed.

Lemma readSample_agree (k : nat) (j : nat) inp inp' :
  take (2 * k) inp = take (2 * k) inp' -> (j < k)%nat ->
  readSample inp j = readSample inp' j.
Proof.
  intros Heq Hj. unfold readSample.
  rewrite (nth_take_agree _ (2 * k) (2 * j) inp inp' Heq) by lia.
  rewrite (nth_take_agree _ (2 * k) (2 * j + 1) inp inp' Heq) by lia.
  reflexivity.
Qed.

Lemma encodePairs_agree (k : nat) inp inp' : forall n p st error out,
  take (2 * k) inp = take (2 * k) inp' -> (p + 2 * n <= k)%nat ->
  encodePairs n inp p st error out = encodePairs n inp' p st error out.
Proof.
  induction n as [|n IH]; intros p st error out Heq Hp; [reflexivity|].
  cbn [encodePairs].
  rewrite (readSample_agree k p inp inp' Heq) by lia.
  rewrite (readSample_agree k (S p) inp inp' Heq) by lia.
  destruct (encodePair st _ _ out) as [[st' e] out'].
  apply IH; [exact Heq | lia].
Qed.

(** X20: [encodeWithIC] reads the input only through its first
    [inBytes / 2] samples: two inputs that agree on these
    [2 * (inBytes / 2)] bytes give the same state, error and output, so a
    trailing odd byte and everything after it are never looked at. *)
Theorem encodeWithIC_reads_only_samples
    (st : State) (inp inp' : list byte) (inBytes : Z) :
  0 <= inBytes ->
  take (Z.to_nat (2 * (inBytes / 2))) inp
  = take (Z.to_nat (2 * (inBytes / 2))) inp' ->
  encodeWithIC_run st inp inBytes = encodeWithIC_run st inp' inBytes
  /\ encodeWithIC st inp inBytes = encodeWithIC st inp' inBytes.
Proof.
  intros Hn Heq.
  assert (Hrun : encodeWithIC_run st inp inBytes
                 = encodeWithIC_run st inp' inBytes).
  { unfold encodeWithIC_run.
    set (ns := inBytes / 2) in *.
    assert (Hns : 0 <= ns) by (apply Z.div_pos; lia).
    assert (Hk : Z.to_nat (2 * ns) = (2 * Z.to_nat ns)%nat) by lia.
    rewrite Hk in Heq.
    assert (Hpairs : (2 * Z.to_nat (ns / 2) <= Z.to_nat ns)%nat).
    { pose proof (Z.mul_div_le ns 2 ltac:(lia)).
      assert (0 <= ns / 2) by (apply Z.div_pos; lia). lia. }
    rewrite (encodePairs_agree (Z.to_nat ns) inp inp' (Z.to_nat (ns / 2)) 0)
      by (try exact Heq; lia).
    pose proof (encodePairs_state (Z.to_nat (ns / 2)) inp' 0 st 0
                  [byte_of_Z (sample st); byte_of_Z (Z.shiftr (sample st) 8);
                   byte_of_Z (index st)]) as [Hp _].
    destruct (encodePairs (Z.to_nat (ns / 2)) inp' 0 st 0 _)
      as [[[p st1] error] out1].
    cbn [fst] in Hp. subst p.
    destruct (Z.testbit ns 0) eqn:Hodd; [|reflexivity].
    rewrite (readSample_agree (Z.to_nat ns) _ inp inp' Heq); [reflexivity|].
    rewrite Z.bit0_odd in Hodd.
    pose proof (Z.div_mod ns 2 ltac:(lia)) as Hdm.
    rewrite Zmod_odd, Hodd in Hdm.
    assert (0 <= ns / 2) by (apply Z.div_pos; lia). lia. }
  split; [exact Hrun|]. unfold encodeWithIC. now rewrite Hrun.
Qed.

Lemma encodeWithIC_reads_only_samples_witness :
  encodeWithIC (mkState 0 0) (swing ++ [Byte.x01]) 5
  = encodeWithIC (mkState 0 0) (swing ++ [Byte.xff; Byte.x02]) 5.
Proof.
  refine (proj2 (encodeWithIC_reads_only_samples (mkState 0 0)
                   (swing ++ [Byte.x01]) (swing ++ [Byte.xff; Byte.x02]) 5 _ _)).
  - lia.
  - reflexivity.
Defined.

End ADPCMInput.

(** ** ADPCM: the search for the initial conditions *)

Section ADPCMSearch.
Import ADPCM.

Lemma wrap_s16_idem_add a b : wrap_s16 (wrap_s16 a + b) = wrap_s16 (a + b).
Proof.
  unfold wrap_s16. change (2 ^ 15) with 32768. change (2 ^ 16) with 65536.
  f_equal.
  replace ((a + 32768) mod 65536 - 32768 + b + 32768)
    with ((a + 32768) mod 65536 + b) by lia.
  rewrite Zplus_mod_idemp_l. f_equal. lia.
Qed.

(** What the exhaustive loop holds after the indices [0 .. n-1]. *)
Lemma searchIndex_prefix smp inp inBytes (k : nat) :
  0 <= inBytes < 2 ^ 32 ->
  let f i := errorFrom inp inBytes (mkState smp i) in
  let r := fold_left (tryIndex smp inp inBytes) (seqZ 0 (Z.of_nat (S k)))
             (wrap_u64 (-1), 0) in
  0 <= r.2 <= Z.of_nat k
  /\ r.1 = f r.2
  /\ (forall j, 0 <= j <= Z.of_nat k -> r.1 <= f j)
  /\ (forall j, 0 <= j < r.2 -> r.1 < f j).
Proof.
  intros Hn f. induction k as [|k IH]; intros r.
  - subst r. change (seqZ 0 (Z.of_nat 1)) with [0]. cbn [fold_left].
    unfold tryIndex. fold (errorFrom inp inBytes (mkState smp 0)). fold (f 0).
    pose proof (errorFrom_range inp inBytes (mkState smp 0) Hn) as Hr.
    fold (f 0) in Hr. cbn [fst].
    change (wrap_u64 (-1)) with (2 ^ 64 - 1).
    destruct (f 0 <? 2 ^ 64 - 1) eqn:E; [|apply Z.ltb_ge in E; lia].
    cbn [fst snd]. repeat split; try lia.
    intros j Hj. replace j with 0 by lia. lia.
  - subst r. rewrite seqZ_S, fold_left_app. cbv zeta in IH.
    set (r0 := fold_left _ (seqZ 0 (Z.of_nat (S k))) _) in *.
    destruct IH as (Hi & He & Hmin & Hfirst).
    cbn [fold_left]. unfold tryIndex.
    fold (errorFrom inp inBytes (mkState smp (0 + Z.of_nat (S k)))).
    fold (f (0 + Z.of_nat (S k))). rewrite Z.add_0_l.
    destruct (f (Z.of_nat (S k)) <? r0.1) eqn:E.
    + apply Z.ltb_lt in E. cbn [fst snd]. repeat split; try lia.
      * intros j Hj. destruct (Z.eq_dec j (Z.of_nat (S k))) as [->|Hne]; [lia|].
        specialize (Hmin j ltac:(lia)). lia.
      * intros j Hj. specialize (Hmin j ltac:(lia)). lia.
    + apply Z.ltb_ge in E. repeat split; try lia; try assumption.
      intros j Hj. destruct (Z.eq_dec j (Z.of_nat (S k))) as [->|Hne]; [lia|].
      apply Hmin. lia.
Qed.

(** X6: the exhaustive loop of [optimizeIC] returns, among the indices 0 to
    87, the earliest one with the least error metric, together with that
    error. *)
Theorem searchIndex_is_first_minimum (smp : Z) (inp : list byte) (inBytes : Z) :
  0 <= inBytes < 2 ^ 32 ->
  let r := searchIndex smp inp inBytes in
  0 <= r.2 <= 87
  /\ r.1 = errorFrom inp inBytes (mkState smp r.2)
  /\ (forall j, 0 <= j <= 87 ->
        r.1 <= errorFrom inp inBytes (mkState smp j))
  /\ (forall j, 0 <= j < r.2 ->
        r.1 < errorFrom inp inBytes (mkState smp j)).
Proof.
  intros Hn. exact (searchIndex_prefix smp inp inBytes 87 Hn).
Qed.

Lemma searchIndex_is_first_minimum_witness :
  (searchIndex 0 swing 4).1
  = errorFrom swing 4 (mkState 0 (searchIndex 0 swing 4).2).
Proof.
  pose proof (searchIndex_is_first_minimum 0 swing 4 ltac:(lia)) as H.
  cbv zeta in H. exact (proj1 (proj2 H)).
Defined.

(** The state handed to the hill climber and its error. *)
Lemma searchIndex_start smp inp inBytes :
  0 <= inBytes < 2 ^ 32 ->
  0 <= (searchIndex smp inp inBytes).2 <= 87
  /\ (searchIndex smp inp inBytes).1
     = errorFrom inp inBytes (mkState smp (searchIndex smp inp inBytes).2)
  /\ (forall j, 0 <= j <= 87 ->
        (searchIndex smp inp inBytes).1 <= errorFrom inp inBytes (mkState smp j)).
Proof.
  intros Hn.
  destruct (searchIndex_prefix smp inp inBytes 87 Hn) as (H1 & H2 & H3 & _).
  split; [exact H1 | split; [exact H2 | exact H3]].
Qed.

(** *** The hill climber *)

Lemma hillClimb_S fuel inp inBytes st error :
  hillClimb (S fuel) inp inBytes st error =
    let err := errorFrom inp inBytes in
    let st1 := mkState (wrap_s16 (sample st + 1)) (index st) in
    if err st1 <? error then hillClimb fuel inp inBytes st1 (err st1) else
    let st2 := mkState (wrap_s16 (sample st1 - 2)) (index st1) in
    if err st2 <? error then hillClimb fuel inp inBytes st2 (err st2) else
    let st3 := mkState (wrap_s16 (sample st2 + 1)) (index st2) in
    let up := mkState (sample st3) (index st3 + 1) in
    if (index st3 <? INDEX_MAX) && (err up <? error)
    then hillClimb fuel inp inBytes up (err up) else
    let down := mkState (sample st3) (index st3 - 1) in
    if (0 <? index st3) && (err down <? error)
    then hillClimb fuel inp inBytes down (err down) else
    Some st3.
Proof. reflexivity. Qed.

(** The three unit moves of the predictor add up to nothing. *)
Lemma sample_moves_cancel s :
  -32768 <= s <= 32767 ->
  wrap_s16 (wrap_s16 (s + 1) - 2) = wrap_s16 (s - 1)
  /\ wrap_s16 (wrap_s16 (wrap_s16 (s + 1) - 2) + 1) = s.
Proof.
  intros Hs. split.
  - replace (wrap_s16 (s + 1) - 2) with (wrap_s16 (s + 1) + -2) by lia.
    rewrite wrap_s16_idem_add. f_equal. lia.
  - rewrite wrap_s16_idem_add.
    replace (wrap_s16 (s + 1) - 2 + 1) with (wrap_s16 (s + 1) + -1) by lia.
    rewrite wrap_s16_idem_add. rewrite <- (wrap_s16_small s) at 2 by exact Hs.
    f_equal. lia.
Qed.

(** Every iteration that does not stop lowers the error, which is never
    negative: more fuel than the error is enough. *)
Lemma hillClimb_terminates inp inBytes :
  0 <= inBytes < 2 ^ 32 ->
  forall fuel st error,
    error < Z.of_nat fuel -> (0 < fuel)%nat ->
    exists st', hillClimb fuel inp inBytes st error = Some st'.
Proof.
  intros Hn. induction fuel as [|fuel IH]; intros st error Hf Hpos; [lia|].
  rewrite hillClimb_S. cbv zeta.
  assert (Hrec : forall s, errorFrom inp inBytes s < error ->
            exists st', hillClimb fuel inp inBytes s (errorFrom inp inBytes s)
                        = Some st').
  { intros s Hs. pose proof (errorFrom_range inp inBytes s Hn).
    apply IH; lia. }
  repeat match goal with
  | |- context [if ?c then _ else _] =>
      let E := fresh "E" in destruct c eqn:E
  end;
  try (eexists; reflexivity);
  apply Hrec;
  repeat match goal with
  | H : _ && _ = true |- _ => apply andb_true_iff in H; destruct H
  end;
  apply Z.ltb_lt; assumption.
Qed.

Lemma hillClimb_more_fuel inp inBytes : forall fuel st error st',
  hillClimb fuel inp inBytes st error = Some st' ->
  hillClimb (S fuel) inp inBytes st error = Some st'.
Proof.
  induction fuel as [|fuel IH]; intros st error st' H; [discriminate|].
  rewrite hillClimb_S in H. rewrite hillClimb_S. cbv zeta in *.
  repeat match goal with
  | |- context [if ?c then _ else _] => destruct c
  end; try (apply IH; assumption); assumption.
Qed.

Lemma hillClimb_fuel_le inp inBytes fuel fuel' st error st' :
  (fuel <= fuel')%nat ->
  hillClimb fuel inp inBytes st error = Some st' ->
  hillClimb fuel' inp inBytes st error = Some st'.
Proof.
  induction 1 as [|m Hle IH]; intros H; [exact H|].
  apply hillClimb_more_fuel, IH, H.
Qed.

(** What the hill climber returns when it starts from a state together
    with its error. *)
Lemma hillClimb_result inp inBytes : forall fuel st st',
  -32768 <= sample st <= 32767 ->
  hillClimb fuel inp inBytes st (errorFrom inp inBytes st) = Some st' ->
  errorFrom inp inBytes st' <= errorFrom inp inBytes st
  /\ -32768 <= sample st' <= 32767
  /\ (0 <= index st <= INDEX_MAX -> 0 <= index st' <= INDEX_MAX)
  /\ Forall (fun nb => errorFrom inp inBytes st' <= errorFrom inp inBytes nb)
       (neighbours st').
Proof.
  induction fuel as [|fuel IH]; intros st st' Hs H; [discriminate|].
  rewrite hillClimb_S in H. cbv zeta in H. cbn [sample index] in H.
  destruct (sample_moves_cancel (sample st) Hs) as [Hm1 Hm3].
  rewrite Hm3, Hm1 in H.
  assert (Hrec : forall s, errorFrom inp inBytes s < errorFrom inp inBytes st ->
            -32768 <= sample s <= 32767 ->
            (0 <= index st <= INDEX_MAX -> 0 <= index s <= INDEX_MAX) ->
            hillClimb fuel inp inBytes s (errorFrom inp inBytes s) = Some st' ->
            errorFrom inp inBytes st' <= errorFrom inp inBytes st
            /\ -32768 <= sample st' <= 32767
            /\ (0 <= index st <= INDEX_MAX -> 0 <= index st' <= INDEX_MAX)
            /\ Forall (fun nb => errorFrom inp inBytes st'
                                 <= errorFrom inp inBytes nb) (neighbours st')).
  { intros s Hlt Hss Hix Hh.
    destruct (IH s st' Hss Hh) as (H1 & H2 & H3 & H4).
    repeat split; try lia; try assumption; intros Hi; apply H3, Hix, Hi. }
  destruct (_ <? _) eqn:E1 in H.
  { apply Z.ltb_lt in E1. apply (Hrec _ E1); cbn [sample index];
      [apply wrap_s16_range | tauto | exact H]. }
  destruct (_ <? _) eqn:E2 in H.
  { apply Z.ltb_lt in E2. apply (Hrec _ E2); cbn [sample index];
      [apply wrap_s16_range | tauto | exact H]. }
  destruct (_ && _) eqn:E3 in H.
  { apply andb_true_iff in E3. destruct E3 as [E3 E3'].
    apply Z.ltb_lt in E3, E3'. apply (Hrec _ E3'); cbn [sample index];
      [exact Hs | lia | exact H]. }
  destruct (_ && _) eqn:E4 in H.
  { apply andb_true_iff in E4. destruct E4 as [E4 E4'].
    apply Z.ltb_lt in E4, E4'. apply (Hrec _ E4'); cbn [sample index];
      [exact Hs | lia | exact H]. }
  injection H as <-. apply Z.ltb_ge in E1, E2.
  assert (Est : {| sample := sample st; index := index st |} = st)
    by (destruct st; reflexivity).
  rewrite Est in *.
  repeat split; try lia; try tauto.
  unfold neighbours.
  repeat apply Forall_app_2; repeat apply Forall_cons_2; try apply Forall_nil_2;
    try assumption.
  - destruct (index st <? INDEX_MAX); [|apply Forall_nil_2].
    apply Forall_cons_2; [|apply Forall_nil_2].
    cbn [andb] in E3. apply Z.ltb_ge in E3. exact E3.
  - destruct (0 <? index st); [|apply Forall_nil_2].
    apply Forall_cons_2; [|apply Forall_nil_2].
    cbn [andb] in E4. apply Z.ltb_ge in E4. exact E4.
Qed.

Lemma hillClimb_unique inp inBytes fuel1 fuel2 st error a b :
  hillClimb fuel1 inp inBytes st error = Some a ->
  hillClimb fuel2 inp inBytes st error = Some b -> a = b.
Proof.
  intros Ha Hb.
  apply (hillClimb_fuel_le inp inBytes fuel1 (Nat.max fuel1 fuel2)) in Ha; [|lia].
  apply (hillClimb_fuel_le inp inBytes fuel2 (Nat.max fuel1 fuel2)) in Hb; [|lia].
  congruence.
Qed.

(** X7: the hill-climbing loop of [optimizeIC] stops: every accepted move
    strictly lowers the 64-bit error, which is never negative, so the loop
    runs at most [error] + 1 times; the state it returns does not depend on
    the bound put on the number of iterations. *)
Theorem hillClimb_stops (inp : list byte) (inBytes : Z) (st : State) (error : Z) :
  0 <= inBytes < 2 ^ 32 ->
  exists st',
    (forall fuel, error < Z.of_nat fuel -> (0 < fuel)%nat ->
       hillClimb fuel inp inBytes st error = Some st')
    /\ (forall fuel st'',
          hillClimb fuel inp inBytes st error = Some st'' -> st'' = st').
Proof.
  intros Hn.
  destruct (hillClimb_terminates inp inBytes Hn (S (Z.to_nat error)) st error
              ltac:(lia) ltac:(lia)) as [st' Hst'].
  exists st'. split.
  - intros fuel Hf Hpos.
    destruct (hillClimb_terminates inp inBytes Hn fuel st error Hf Hpos)
      as [st'' Hst''].
    rewrite Hst''. f_equal. eapply hillClimb_unique; eassumption.
  - intros fuel st'' H. eapply hillClimb_unique; eassumption.
Qed.

Lemma hillClimb_stops_witness :
  exists st',
    (forall fuel, 0 < Z.of_nat fuel -> (0 < fuel)%nat ->
       hillClimb fuel swing 4 (mkState 0 0) 0 = Some st')
    /\ (forall fuel st'',
          hillClimb fuel swing 4 (mkState 0 0) 0 = Some st'' -> st'' = st').
Proof.
  apply (hillClimb_stops swing 4 (mkState 0 0) 0). lia.
Defined.

(** X8: when the hill climber is started from a state and its error, the
    state it returns is a local minimum of the error metric: none of the
    four unit moves (predictor up or down by one with 16-bit wrap-around,
    index up below [INDEX_MAX], index down above 0) gives a lower error; the
    returned state is not worse than the starting one and stays within the
    ranges of the codec state. *)
Theorem hillClimb_local_minimum (fuel : nat) (inp : list byte) (inBytes : Z)
    (st st' : State) :
  state_ok st ->
  hillClimb fuel inp inBytes st (errorFrom inp inBytes st) = Some st' ->
  state_ok st'
  /\ errorFrom inp inBytes st' <= errorFrom inp inBytes st
  /\ (forall nb, In nb (neighbours st') ->
        errorFrom inp inBytes st' <= errorFrom inp inBytes nb).
Proof.
  intros [Hs Hi] H.
  destruct (hillClimb_result inp inBytes fuel st st' Hs H) as (H1 & H2 & H3 & H4).
  split; [split; [exact H2 | exact (H3 Hi)]|].
  split; [exact H1|].
  intros nb Hnb. rewrite Forall_forall in H4. apply H4.
  apply list_elem_of_In, Hnb.
Qed.

Lemma hillClimb_local_minimum_witness :
  state_ok (mkState 25145 87)
  /\ errorFrom swing 4 (mkState 25145 87) <= errorFrom swing 4 (mkState 25145 87)
  /\ (forall nb, In nb (neighbours (mkState 25145 87)) ->
        errorFrom swing 4 (mkState 25145 87) <= errorFrom swing 4 nb).
Proof.
  apply (hillClimb_local_minimum 1 swing 4 (mkState 25145 87) (mkState 25145 87)).
  - unfold state_ok. cbn. lia.
  - vm_compute. reflexivity.
Defined.

(** The initial conditions found by [optimizeIC]. *)
Lemma optimizeIC_total inp :
  Z.of_nat (length inp) < 2 ^ 32 ->
  exists st,
    state_ok st
    /\ (forall fuel, 2 ^ 64 <= Z.of_nat fuel -> optimizeIC fuel inp = Some st)
    /\ (forall fuel st', optimizeIC fuel inp = Some st' -> st' = st).
Proof.
  intros Hlen. unfold optimizeIC.
  destruct (Z.of_nat (length inp) <? 4) eqn:E.
  { exists (mkState 0 0). split; [unfold state_ok; cbn; lia|].
    split; [reflexivity | congruence]. }
  set (smp := wrap_s16 _).
  change (wrap_u32 (100 * 2)) with 200.
  set (inBytes := Z.min 200 _).
  assert (Hn : 0 <= inBytes < 2 ^ 32).
  { unfold inBytes, wrap_u32. pose proof (Z.mod_pos_bound (Z.of_nat (length inp))
      (2 ^ 32) ltac:(lia)). lia. }
  pose proof (searchIndex_start smp inp inBytes Hn) as Hsearch.
  destruct (searchIndex smp inp inBytes) as [error bestIndex].
  cbn [fst snd] in Hsearch. destruct Hsearch as (Hix & Herr & _).
  pose proof (errorFrom_range inp inBytes (mkState smp bestIndex) Hn) as Hr.
  subst error. set (error := errorFrom inp inBytes (mkState smp bestIndex)) in *.
  destruct (hillClimb_terminates inp inBytes Hn (S (Z.to_nat error))
              (mkState smp bestIndex) error ltac:(lia) ltac:(lia)) as [st Hst].
  exists st. split; [|split].
  - destruct (hillClimb_result inp inBytes _ (mkState smp bestIndex) st
                (wrap_s16_range _) Hst) as (_ & H2 & H3 & _).
    split; [exact H2|]. apply H3. cbn [index]. unfold INDEX_MAX. lia.
  - intros fuel Hf.
    apply (hillClimb_fuel_le inp inBytes (S (Z.to_nat error))); [lia | exact Hst].
  - intros fuel st' H. eapply hillClimb_unique; eassumption.
Qed.

(** X9: [ADPCMEncoder::encode] returns on every input: the search for the
    initial conditions ends in a state within the codec ranges, and the
    output is that state's 3 header bytes followed by one byte for every two
    samples, rounded up. *)
Theorem encode_total (inp : list byte) :
  Z.of_nat (length inp) < 2 ^ 32 ->
  exists st out,
    state_ok st
    /\ (forall fuel, 2 ^ 64 <= Z.of_nat fuel ->
          optimizeIC fuel inp = Some st /\ encode fuel inp = Some out)
    /\ (forall fuel out', encode fuel inp = Some out' -> out' = out)
    /\ take 3 out = headerOf st
    /\ Z.of_nat (length out) = 3 + (Z.of_nat (length inp) / 2 + 1) / 2.
Proof.
  intros Hlen.
  destruct (optimizeIC_total inp Hlen) as (st & Hok & Hsome & Huniq).
  assert (Hw : wrap_u32 (Z.of_nat (length inp)) = Z.of_nat (length inp))
    by (apply Z.mod_small; lia).
  exists st, (encodeWithIC st inp (Z.of_nat (length inp))).2.
  split; [exact Hok|]. split; [|split].
  - intros fuel Hf. unfold encode. rewrite (Hsome fuel Hf), Hw.
    split; reflexivity.
  - intros fuel out'. unfold encode.
    destruct (optimizeIC fuel inp) as [st'|] eqn:E; [|discriminate].
    rewrite (Huniq fuel st' E), Hw. congruence.
  - destruct (encodeWithIC_body st inp (Z.of_nat (length inp)) ltac:(lia))
      as (body & -> & Hb & _).
    split.
    + change 3%nat with (length (headerOf st)). apply take_app_length.
    + rewrite length_app, Nat2Z.inj_add, Hb. reflexivity.
Qed.

Lemma encode_total_witness :
  exists st out,
    state_ok st
    /\ (forall fuel, 2 ^ 64 <= Z.of_nat fuel ->
          optimizeIC fuel swing = Some st /\ encode fuel swing = Some out)
    /\ (forall fuel out', encode fuel swing = Some out' -> out' = out)
    /\ take 3 out = headerOf st
    /\ Z.of_nat (length out) = 3 + (Z.of_nat (length swing) / 2 + 1) / 2.
Proof.
  apply (encode_total swing). cbn. lia.
Defined.

(** X19: for an input of at least 4 bytes, the state found by
    [optimizeIC] starts from the first sample, is within the codec ranges,
    has an error on the first 100 samples that is not above the error of any
    of the initial indices 0 to 87 tried with the first sample, and is a
    local minimum: no unit move of the predictor or of the index lowers the
    error. *)
Theorem optimizeIC_result (fuel : nat) (inp : list byte) (st : State) :
  4 <= Z.of_nat (length inp) < 2 ^ 32 ->
  optimizeIC fuel inp = Some st ->
  let inBytes := Z.min 200 (Z.of_nat (length inp)) in
  let smp := readSample inp 0 in
  state_ok st
  /\ (forall j, 0 <= j <= 87 ->
        errorFrom inp inBytes st <= errorFrom inp inBytes (mkState smp j))
  /\ (forall nb, In nb (neighbours st) ->
        errorFrom inp inBytes st <= errorFrom inp inBytes nb).
Proof.
  intros Hlen Hopt inBytes smp. unfold optimizeIC in Hopt.
  destruct (Z.ltb_spec (Z.of_nat (length inp)) 4) as [|_]; [lia|].
  change (wrap_u32 (100 * 2)) with 200 in Hopt.
  rewrite (wrap_u32_small (Z.of_nat (length inp))) in Hopt by lia.
  fold inBytes in Hopt.
  change (wrap_s16 (Z.lor (Z_of_byte (nth 0 inp Byte.x00))
                          (Z.shiftl (Z_of_byte (nth 1 inp Byte.x00)) 8)))
    with smp in Hopt.
  assert (Hn : 0 <= inBytes < 2 ^ 32) by (unfold inBytes; lia).
  pose proof (searchIndex_start smp inp inBytes Hn) as Hsearch.
  destruct (searchIndex smp inp inBytes) as [error bestIndex].
  cbn [fst snd] in Hsearch. destruct Hsearch as (Hix & Herr & Hmin).
  subst error.
  destruct (hillClimb_result inp inBytes fuel (mkState smp bestIndex) st
              (readSample_range inp 0) Hopt) as (Hle & Hs & Hi & Hnb).
  split; [split; [exact Hs | apply Hi; cbn [index]; unfold INDEX_MAX; lia]|].
  split.
  - intros j Hj. specialize (Hmin j ltac:(lia)). lia.
  - intros nb Hin. rewrite Forall_forall in Hnb.
    apply Hnb, list_elem_of_In, Hin.
Qed.

Lemma optimizeIC_result_witness :
  state_ok (mkState 0 0)
  /\ (forall j, 0 <= j <= 87 ->
        errorFrom (replicate 4 Byte.x00) (Z.min 200 4) (mkState 0 0)
        <= errorFrom (replicate 4 Byte.x00) (Z.min 200 4)
             (mkState (readSample (replicate 4 Byte.x00) 0) j))
  /\ (forall nb, In nb (neighbours (mkState 0 0)) ->
        errorFrom (replicate 4 Byte.x00) (Z.min 200 4) (mkState 0 0)
        <= errorFrom (replicate 4 Byte.x00) (Z.min 200 4) nb).
Proof.
  apply (optimizeIC_result 1 (replicate 4 Byte.x00) (mkState 0 0)).
  - cbn. lia.
  - vm_compute. reflexivity.
Defined.

End ADPCMSearch.

(** ** DUB: the codes of a block *)

Section DUBCodes.
Import DUB.

Lemma scanRef_spec dict tile code best : forall cands,
  let r := scanRef cands dict tile code best in
  r = code
  \/ (type r = REF /\ In (value r) cands
      /\ tile = vec_get 0 dict (Z.of_nat (length dict) - 1 - value r)
      /\ codeLen r <= best).
Proof.
  induction cands as [|i rest IH]; cbn [scanRef]; [now left|].
  destruct (Z.eqb_spec tile (vec_get 0 dict (Z.of_nat (length dict) - 1 - i)))
    as [Heq|_].
  - destruct (Z.leb_spec (codeLen (mkCode REF i)) best) as [Hle|_].
    + right. cbn [type value]. repeat split; [now left | exact Heq | exact Hle].
    + destruct IH as [IH|(H1 & H2 & H3 & H4)]; [now left|].
      right. repeat split; [exact H1 | now right | exact H3 | exact H4].
  - destruct IH as [IH|(H1 & H2 & H3 & H4)]; [now left|].
    right. repeat split; [exact H1 | now right | exact H3 | exact H4].
Qed.

(** A REF candidate that matches and is not longer than the best code so
    far ends the scan. *)
Lemma scanRef_delta dict tile code best : forall cands,
  type code = DELTA ->
  type (scanRef cands dict tile code best) = DELTA ->
  forall i, In i cands ->
    tile = vec_get 0 dict (Z.of_nat (length dict) - 1 - i) ->
    best < codeLen (mkCode REF i).
Proof.
  induction cands as [|j rest IH]; intros Hc Hr i Hi Hm; [destruct Hi|].
  cbn [scanRef] in Hr.
  destruct (Z.eqb_spec tile (vec_get 0 dict (Z.of_nat (length dict) - 1 - j)))
    as [Heq|Hne].
  - destruct (Z.leb_spec (codeLen (mkCode REF j)) best) as [Hle|Hgt];
      [discriminate Hr|].
    destruct Hi as [<-|Hi]; [exact Hgt | now apply IH].
  - destruct Hi as [<-|Hi]; [contradiction | now apply IH].
Qed.

Lemma findBestCode_unfold dict tile :
  findBestCode dict tile
  = scanRef (seqZ 0 (Z.of_nat (length dict))) dict tile (deltaCode dict tile)
      (codeLen (deltaCode dict tile)).
Proof. unfold findBestCode, deltaCode. now destruct dict. Qed.

Lemma deltaCode_decodes dict tile :
  0 <= tile < 65536 ->
  type (deltaCode dict tile) = DELTA
  /\ decodeCode dict (deltaCode dict tile) = tile.
Proof.
  intros Ht. unfold deltaCode, decodeCode.
  destruct dict as [|d dict]; cbn [type value]; (split; [reflexivity|]).
  - cbn [List.last]. apply wrap_u16_small. lia.
  - replace (List.last (d :: dict) 0 + (tile - List.last (d :: dict) 0))
      with tile by lia.
    apply wrap_u16_small. lia.
Qed.

Lemma findBestCode_decodes dict tile :
  0 <= tile < 65536 -> decodeCode dict (findBestCode dict tile) = tile.
Proof.
  intros Ht. rewrite findBestCode_unfold.
  destruct (scanRef_spec dict tile (deltaCode dict tile)
              (codeLen (deltaCode dict tile))
              (seqZ 0 (Z.of_nat (length dict))))
    as [->|(Hty & _ & Hm & _)].
  - apply deltaCode_decodes, Ht.
  - unfold decodeCode. rewrite Hty. symmetry. exact Hm.
Qed.

(** X10: the code chosen by [findBestCode] is a DELTA from the last tile of
    the dictionary or a REF to an earlier tile within it, it is never longer
    than the DELTA code, and a decoder holding the same dictionary gets the
    tile back from it; a DELTA is chosen only when every matching REF would
    be strictly longer. *)
Theorem findBestCode_lossless (dict : list Z) (tile : Z) :
  0 <= tile < 65536 ->
  let code := findBestCode dict tile in
  decodeCode dict code = tile
  /\ codeLen code <= codeLen (deltaCode dict tile)
  /\ (type code = DELTA /\ code = deltaCode dict tile
      /\ (forall i, 0 <= i < Z.of_nat (length dict) ->
            tile = vec_get 0 dict (Z.of_nat (length dict) - 1 - i) ->
            codeLen code < codeLen (mkCode REF i))
      \/ type code = REF /\ 0 <= value code < Z.of_nat (length dict)).
Proof.
  intros Ht code. split; [apply findBestCode_decodes, Ht|].
  destruct (deltaCode_decodes dict tile Ht) as [Hdelta _].
  pose proof (scanRef_delta dict tile (deltaCode dict tile)
                (codeLen (deltaCode dict tile))
                (seqZ 0 (Z.of_nat (length dict))) Hdelta) as Hscan.
  unfold code. rewrite findBestCode_unfold in *.
  destruct (scanRef_spec dict tile (deltaCode dict tile)
              (codeLen (deltaCode dict tile))
              (seqZ 0 (Z.of_nat (length dict))))
    as [E|(Hty & Hin & _ & Hle)].
  - rewrite E in *. split; [lia|]. left.
    split; [exact Hdelta|]. split; [reflexivity|].
    intros i Hi Hm. apply (Hscan Hdelta i); [|exact Hm].
    apply list_elem_of_In, elem_of_seqZ. lia.
  - split; [exact Hle|]. right. split; [exact Hty|].
    apply list_elem_of_In, elem_of_seqZ in Hin. lia.
Qed.

Lemma findBestCode_lossless_witness :
  decodeCode [7; 9; 7] (findBestCode [7; 9; 7] 9) = 9.
Proof.
  pose proof (findBestCode_lossless [7; 9; 7] 9 ltac:(lia)) as H.
  cbv zeta in H. exact (proj1 H).
Defined.

(** *** The scan stops at a shortest code *)

Lemma length_varBits_mono g : forall v v',
  0 <= v <= v' -> (length (varBits g v) <= length (varBits g v'))%nat.
Proof.
  induction g as [|g IH]; intros v v' Hv; [reflexivity|].
  rewrite !varBits_S, !length_app. cbn [length].
  assert (Hs : 0 <= Z.shiftr v 3 <= Z.shiftr v' 3).
  { rewrite !Z.shiftr_div_pow2 by lia.
    split; [apply Z.div_pos; lia | apply Z.div_le_mono; lia]. }
  destruct (Z.eqb_spec (Z.shiftr v 3) 0) as [E|N]; cbn [negb length]; [lia|].
  destruct (Z.eqb_spec (Z.shiftr v' 3) 0) as [E'|N']; [lia|].
  cbn [negb]. specialize (IH _ _ Hs). lia.
Qed.

(** A REF code does not get shorter as its index grows. *)
Lemma codeLen_REF_mono i j :
  0 <= i <= j -> codeLen (mkCode REF i) <= codeLen (mkCode REF j).
Proof.
  intros Hij. unfold codeLen, packCode. cbn [type value].
  rewrite !(getCount_appendVar_app _ _ (append _ _ _)).
  unfold appendVar. fold (varBits 32 i). fold (varBits 32 j).
  pose proof (length_varBits_mono 32 i j Hij). unfold getCount. lia.
Qed.

(** The matches passed over before the scan stops were all too long. *)
Lemma scanRef_passed_over dict tile code best (k : nat) : forall a,
  type code = DELTA ->
  let r := scanRef (seqZ a (Z.of_nat k)) dict tile code best in
  type r = REF ->
  a <= value r
  /\ forall i, a <= i < value r ->
       tile = vec_get 0 dict (Z.of_nat (length dict) - 1 - i) ->
       best < codeLen (mkCode REF i).
Proof.
  induction k as [|k IH]; intros a Hc r Hr; subst r.
  - rewrite seqZ_nil in Hr by lia. cbn [scanRef] in Hr. congruence.
  - rewrite seqZ_cons in * by lia.
    replace (Z.pred (Z.of_nat (S k))) with (Z.of_nat k) in * by lia.
    cbn [scanRef] in *.
    destruct (Z.eqb_spec tile (vec_get 0 dict (Z.of_nat (length dict) - 1 - a)))
      as [Heq|Hne].
    + destruct (Z.leb_spec (codeLen (mkCode REF a)) best) as [Hle|Hgt].
      * cbn [value]. split; [lia|]. intros i Hi. lia.
      * destruct (IH (Z.succ a) Hc Hr) as [Hlo Hpass].
        split; [lia|]. intros i Hi Hm.
        destruct (Z.eq_dec i a) as [->|Hia]; [exact Hgt|].
        apply Hpass; [lia | exact Hm].
    + destruct (IH (Z.succ a) Hc Hr) as [Hlo Hpass].
      split; [lia|]. intros i Hi Hm.
      destruct (Z.eq_dec i a) as [->|Hia]; [contradiction|].
      apply Hpass; [lia | exact Hm].
Qed.

(** X21: [findBestCode] returns a shortest code among its candidates, the
    DELTA code and the REF codes of every position of the dictionary that
    holds the tile: stopping the scan at the first REF that is not longer
    than the DELTA loses nothing, since a REF code never gets shorter as its
    index grows. *)
Theorem findBestCode_shortest (dict : list Z) (tile : Z) :
  let code := findBestCode dict tile in
  codeLen code <= codeLen (deltaCode dict tile)
  /\ (forall i, 0 <= i < Z.of_nat (length dict) ->
        tile = vec_get 0 dict (Z.of_nat (length dict) - 1 - i) ->
        codeLen code <= codeLen (mkCode REF i))
  /\ (forall i j, 0 <= i <= j ->
        codeLen (mkCode REF i) <= codeLen (mkCode REF j)).
Proof.
  intros code. unfold code. rewrite findBestCode_unfold.
  assert (Hdelta : type (deltaCode dict tile) = DELTA)
    by (unfold deltaCode; now destruct dict).
  pose proof (scanRef_delta dict tile (deltaCode dict tile)
                (codeLen (deltaCode dict tile))
                (seqZ 0 (Z.of_nat (length dict))) Hdelta) as Hscan.
  pose proof (scanRef_passed_over dict tile (deltaCode dict tile)
                (codeLen (deltaCode dict tile)) (length dict) 0 Hdelta) as Hpass.
  cbv zeta in Hpass.
  destruct (scanRef_spec dict tile (deltaCode dict tile)
              (codeLen (deltaCode dict tile))
              (seqZ 0 (Z.of_nat (length dict))))
    as [E|(Hty & Hin & _ & Hle)].
  - rewrite E in *. split; [lia|]. split; [|apply codeLen_REF_mono].
    intros i Hi Hm.
    specialize (Hscan Hdelta i ltac:(apply list_elem_of_In, elem_of_seqZ; lia) Hm).
    lia.
  - split; [exact Hle|]. split; [|apply codeLen_REF_mono].
    intros i Hi Hm. destruct (Hpass Hty) as [Hlo Hbefore].
    set (r := scanRef _ dict tile _ _) in *.
    destruct (Z.lt_ge_cases i (value r)) as [Hlt|Hge].
    + specialize (Hbefore i ltac:(lia) Hm). lia.
    + assert (Hr : r = mkCode REF (value r))
        by (destruct r as [t v]; cbn [type value] in *; now subst t).
      rewrite Hr. apply codeLen_REF_mono. lia.
Qed.

(** *** The bits of a block do not depend on when the buffer is flushed *)

Lemma flush_words_fuel : forall n m b into,
  (length b <= 16 * n + 15)%nat -> (length b <= 16 * m + 15)%nat ->
  flush_words n b into = flush_words m b into.
Proof.
  induction n as [|n IH]; intros m b into Hn Hm.
  - rewrite (flush_words_short m) by lia. reflexivity.
  - destruct m as [|m]; [rewrite (flush_words_short (S n)) by lia; reflexivity|].
    cbn [flush_words].
    destruct (Nat.leb_spec 16 (length b)) as [Hge|Hlt]; [|reflexivity].
    apply IH; rewrite length_drop; lia.
Qed.

Lemma flush_false_words b into :
  flush false b into = flush_words (length b) b into.
Proof.
  unfold flush. destruct (flush_words (length b) b into) as [rest into'].
  now destruct rest.
Qed.

Lemma flush_true_step b x into :
  (16 <= length b)%nat ->
  flush true (b ++ x) into
  = flush true (drop 16 b ++ x) (into ++ [word_of_bits (take 16 b)]).
Proof.
  intros Hge. unfold flush.
  assert (Hlen : (16 <= length (b ++ x))%nat) by (rewrite length_app; lia).
  destruct (length (b ++ x)) as [|m] eqn:E; [lia|].
  cbn [flush_words]. rewrite E.
  destruct (Nat.leb_spec 16 (S m)) as [_|]; [|lia].
  rewrite take_app_le, drop_app_le by lia.
  rewrite (flush_words_fuel m (length (drop 16 b ++ x))); [reflexivity| |lia].
  rewrite length_app, length_drop. rewrite length_app in E. lia.
Qed.

Lemma flush_words_resume : forall n b into x,
  (length b <= 16 * n + 15)%nat ->
  flush true ((flush_words n b into).1 ++ x) (flush_words n b into).2
  = flush true (b ++ x) into.
Proof.
  induction n as [|n IH]; intros b into x Hlen; [reflexivity|].
  cbn [flush_words].
  destruct (Nat.leb_spec 16 (length b)) as [Hge|Hlt]; [|reflexivity].
  rewrite IH by (rewrite length_drop; lia).
  symmetry. apply flush_true_step, Hge.
Qed.

Lemma packCode_app code b : packCode code b = b ++ packCode code [].
Proof.
  unfold packCode, appendVar. cbv zeta.
  destruct (type code); [destruct (value code <? 0)| | |];
    rewrite ?app_nil_r; try reflexivity;
    rewrite appendVar_loop_app; symmetry; rewrite appendVar_loop_app;
    unfold append; now rewrite ?app_nil_l, ?app_assoc.
Qed.

Lemma packCodes_app cs : forall b, packCodes cs b = b ++ packCodes cs [].
Proof.
  unfold packCodes. induction cs as [|c cs IH]; intros b; cbn [fold_left].
  - now rewrite app_nil_r.
  - rewrite IH. symmetry. rewrite IH.
    rewrite (packCode_app c b). now rewrite app_assoc.
Qed.

Lemma packCodes_cons c cs b : packCodes (c :: cs) b = packCodes cs (packCode c b).
Proof. reflexivity. Qed.

Lemma emit_resume code st x :
  flush true (bits (emit code st) ++ x) (data (emit code st))
  = flush true (packCode code (bits st) ++ x) (data st).
Proof.
  destruct (emit_fields code st) as (_ & _ & _ & _ & Hf).
  rewrite flush_false_words in Hf.
  pose proof (flush_words_resume (length (packCode code (bits st)))
                (packCode code (bits st)) (data st) x ltac:(lia)) as H.
  rewrite <- Hf in H. exact H.
Qed.

Lemma encodeTile_resume st t x :
  flush true (bits (encodeTile st t) ++ x) (data (encodeTile st t))
  = flush true (packCodes (tileCodes st t) (bits st) ++ x) (data st).
Proof.
  unfold encodeTile, tileCodes. cbv zeta. cbn [repeating].
  destruct (repeating st).
  - destruct (_ && _); [reflexivity|].
    rewrite emit_resume. cbn [bits data].
    rewrite !packCodes_cons. change (packCodes [] ?b) with b.
    rewrite (packCode_app _ (packCode _ (bits st))), <- app_assoc.
    rewrite (packCode_app _ (bits (emit _ _))), <- app_assoc.
    rewrite emit_resume. cbn [bits data]. reflexivity.
  - destruct (_ && _); rewrite emit_resume; reflexivity.
Qed.

Lemma finishBlock_codes : forall ts st,
  finishBlock (fold_left encodeTile ts st)
  = (flush true (packCodes (blockCodesFrom st ts) (bits st)) (data st)).2.
Proof.
  induction ts as [|t ts IH]; intros st; cbn [fold_left blockCodesFrom].
  - unfold finishBlock. now destruct (repeating st).
  - rewrite IH.
    rewrite (packCodes_app _ (bits (encodeTile st t))), encodeTile_resume.
    unfold packCodes. rewrite fold_left_app.
    fold (packCodes (tileCodes st t) (bits st)).
    fold (packCodes (blockCodesFrom (encodeTile st t) ts)
            (packCodes (tileCodes st t) (bits st))).
    now rewrite (packCodes_app _ (packCodes _ (bits st))).
Qed.

(** X11: the words of a block are the final flush of the bits of all its
    codes, in order: flushing the buffer after every code, as [encodeBlock]
    does, changes nothing in the words it leaves. *)
Theorem encodeBlock_is_flush_of_codes (pTopLeft : Z -> Z) (mWidth width height : Z) :
  encodeBlock pTopLeft mWidth width height
  = (flush true
       (packCodes (blockCodes (blockTiles pTopLeft mWidth width height)) [])
       []).2.
Proof.
  unfold encodeBlock, blockCodes. rewrite finishBlock_codes. reflexivity.
Qed.

(** *** The codes of a block give the tiles back *)

Lemma sameCode_decide (c p : Code) :
  bool_decide (type c = type p) && (value c =? value p) = bool_decide (c = p).
Proof.
  destruct c as [tc vc], p as [tp vp]. cbn [type value].
  destruct (decide (tc = tp)) as [->|Hne].
  - rewrite bool_decide_eq_true_2 by reflexivity. cbn [andb].
    destruct (Z.eqb_spec vc vp) as [->|Hv].
    + now rewrite bool_decide_eq_true_2.
    + rewrite bool_decide_eq_false_2; [reflexivity | congruence].
  - rewrite bool_decide_eq_false_2 by exact Hne. cbn [andb].
    rewrite bool_decide_eq_false_2; [reflexivity | congruence].
Qed.

(** The state after one iteration of the tile loop. *)
Lemma encodeTile_fields st t :
  let code := findBestCode (dict st) t in
  let st' := encodeTile st t in
  dict st' = dict st ++ [t] /\ prevCode st' = code
  /\ (if bool_decide (code = prevCode st)
      then repeating st' = true
           /\ repeatCount st'
              = (if repeating st then wrap_u32 (repeatCount st + 1) else 0)
      else repeating st' = false).
Proof.
  cbv zeta. unfold encodeTile. cbv zeta. rewrite sameCode_decide.
  cbn [repeating dict prevCode repeatCount].
  assert (Hd : forall c s, dict (emit c s) = dict s)
    by (intros c s; apply (emit_fields c s)).
  assert (Hp : forall c s, prevCode (emit c s) = prevCode s)
    by (intros c s; apply (emit_fields c s)).
  assert (Hc : forall c s, repeatCount (emit c s) = repeatCount s)
    by (intros c s; apply (emit_fields c s)).
  assert (Hr : forall c s, repeating (emit c s) = repeating s)
    by (intros c s; apply (emit_fields c s)).
  destruct (repeating st) eqn:Hrep, (bool_decide _);
    rewrite ?Hd, ?Hp, ?Hc, ?Hr;
    cbn [repeating dict prevCode repeatCount];
    rewrite ?Hd, ?Hp, ?Hc, ?Hr;
    cbn [repeating dict prevCode repeatCount]; repeat split.
Qed.

Lemma tileCodes_cases st t :
  tileCodes st t
  = let code := findBestCode (dict st) t in
    if repeating st then
      if bool_decide (code = prevCode st) then []
      else [mkCode REPEAT (wrap_s32 (repeatCount st)); code]
    else [code].
Proof. unfold tileCodes. cbv zeta. now rewrite sameCode_decide. Qed.

Lemma applyCode_snoc n c : forall D,
  applyCode (S n) c D
  = applyCode n c D ++ [decodeCode (applyCode n c D) c].
Proof.
  induction n as [|n IH]; intros D; [reflexivity|].
  change (applyCode (S (S n)) c D)
    with (applyCode (S n) c (D ++ [decodeCode D c])).
  rewrite IH. reflexivity.
Qed.

Lemma decodeCodes_cons c rest prev D :
  decodeCodes (c :: rest) prev D
  = if bool_decide (c = prev) then afterRun c (D ++ [decodeCode D c]) rest
    else decodeCodes rest c (D ++ [decodeCode D c]).
Proof. reflexivity. Qed.

Lemma wrap_count n : 0 <= n < 2 ^ 31 -> Z.to_nat (wrap_s32 n) = Z.to_nat n.
Proof. intros Hn. now rewrite wrap_s32_small by lia. Qed.

Lemma decodeCodes_blockCodesFrom : forall ts st,
  Forall (fun t => 0 <= t < 65536) ts ->
  0 <= (if repeating st then repeatCount st else 0) ->
  (if repeating st then repeatCount st else 0) + Z.of_nat (length ts) < 2 ^ 31 ->
  (repeating st = false ->
     decodeCodes (blockCodesFrom st ts) (prevCode st) (dict st) = dict st ++ ts)
  /\ (repeating st = true -> forall D,
        dict st = applyCode (Z.to_nat (repeatCount st)) (prevCode st) D ->
        afterRun (prevCode st) D (blockCodesFrom st ts) = dict st ++ ts).
Proof.
  induction ts as [|t ts IH]; intros st Hts Hc0 Hcount.
  - cbn [blockCodesFrom]. split; intros Hrep; rewrite Hrep in *.
    + now rewrite app_nil_r.
    + intros D HD. cbn [afterRun value decodeCodes].
      rewrite wrap_count by (cbn [length] in Hcount; lia).
      now rewrite app_nil_r.
  - inversion Hts as [|? ? Ht Hts']; subst.
    pose proof (findBestCode_decodes (dict st) t Ht) as Hdec.
    pose proof (encodeTile_fields st t) as Hf. cbv zeta in Hf.
    destruct Hf as (Hdict & Hprev & Hrun).
    cbn [blockCodesFrom]. rewrite tileCodes_cases. cbv zeta.
    set (code := findBestCode (dict st) t) in *.
    set (st' := encodeTile st t) in *.
    assert (Happ : dict st ++ t :: ts = dict st' ++ ts)
      by (rewrite Hdict, <- app_assoc; reflexivity).
    cbn [length] in Hcount.
    split; intros Hrep; rewrite Hrep in *.
    + cbn [app]. rewrite decodeCodes_cons, Hdec, Happ.
      destruct (bool_decide (code = prevCode st)) eqn:Hsame.
      * destruct Hrun as [Hrep' Hcnt'].
        destruct (IH st' Hts') as [_ IHrun];
          [rewrite Hrep', Hcnt'; lia | rewrite Hrep', Hcnt'; lia |].
        rewrite <- Hprev. apply (IHrun Hrep').
        rewrite Hcnt'. cbn [Z.to_nat applyCode]. exact Hdict.
      * destruct (IH st' Hts') as [IHplain _];
          [rewrite Hrun; lia | rewrite Hrun; lia |].
        rewrite <- Hprev, <- Hdict. apply (IHplain Hrun).
    + intros D HD. destruct (bool_decide (code = prevCode st)) eqn:Hsame.
      * apply bool_decide_eq_true_1 in Hsame.
        destruct Hrun as [Hrep' Hcnt']. cbn [app].
        rewrite wrap_u32_small in Hcnt' by lia.
        destruct (IH st' Hts') as [_ IHrun];
          [rewrite Hrep', Hcnt'; lia | rewrite Hrep', Hcnt'; lia |].
        rewrite Happ, <- Hsame, <- Hprev. apply (IHrun Hrep').
        rewrite Hcnt'.
        rewrite Z2Nat.inj_add by lia. change (Z.to_nat 1) with 1%nat.
        rewrite Nat.add_1_r, applyCode_snoc, Hprev, Hsame, <- HD, <- Hsame.
        rewrite Hdec. exact Hdict.
      * cbn [app afterRun value].
        rewrite wrap_count by lia.
        rewrite <- HD, decodeCodes_cons, Hsame, Hdec, Happ.
        destruct (IH st' Hts') as [IHplain _];
          [rewrite Hrun; lia | rewrite Hrun; lia |].
        rewrite <- Hprev, <- Hdict. apply (IHplain Hrun).
Qed.

Lemma blockCodesFrom_types : forall ts st,
  Forall (fun c => type c <> INVALID) (blockCodesFrom st ts).
Proof.
  induction ts as [|t ts IH]; intros st; cbn [blockCodesFrom].
  - destruct (repeating st); repeat constructor. discriminate.
  - apply Forall_app_2; [|apply IH].
    rewrite tileCodes_cases. cbv zeta.
    assert (type (findBestCode (dict st) t) <> INVALID)
      by (destruct (findBestCode_type (dict st) t) as [-> | ->]; discriminate).
    destruct (repeating st); [destruct (bool_decide _)|];
      repeat constructor; try assumption; discriminate.
Qed.

(** X12: the codes that [encodeBlock] packs for a block give its tiles
    back: a decoder that turns every DELTA and REF code into a tile, and
    that reads the code after two equal codes in a row as the number of
    further repetitions, rebuilds the tiles in order.  No code of the block
    has the type INVALID, so the assertion in [packCode] never fails. *)
Theorem blockCodes_round_trip (tiles : list Z) :
  Forall (fun t => 0 <= t < 65536) tiles ->
  Z.of_nat (length tiles) < 2 ^ 31 ->
  decodeCodes (blockCodes tiles) (mkCode INVALID 0) [] = tiles
  /\ Forall (fun c => type c <> INVALID) (blockCodes tiles).
Proof.
  intros Hts Hlen. split; [|apply blockCodesFrom_types].
  destruct (decodeCodes_blockCodesFrom tiles initBlock Hts) as [H _].
  - cbn. lia.
  - cbn [initBlock repeating]. lia.
  - exact (H eq_refl).
Qed.

Lemma blockCodes_round_trip_witness :
  decodeCodes (blockCodes [5; 5; 5; 5; 6]) (mkCode INVALID 0) []
  = [5; 5; 5; 5; 6].
Proof.
  refine (proj1 (blockCodes_round_trip [5; 5; 5; 5; 6] _ _)).
  - repeat constructor; lia.
  - cbn. lia.
Defined.

End DUBCodes.

(** ** DUB: the number of blocks and the result *)

Section DUBResult.
Import DUB.

(** The number of iterations of a block loop. *)
Lemma length_blockStarts n : forall y limit,
  0 <= y -> limit + BLOCK_SIZE <= 2 ^ 32 ->
  (limit - y + 7) / 8 <= Z.of_nat n ->
  Z.of_nat (length (blockStarts n y limit)) = Z.max 0 ((limit - y + 7) / 8).
Proof.
  unfold BLOCK_SIZE.
  induction n as [|n IH]; intros y limit Hy Hlim Hn; cbn [blockStarts].
  - cbn [length]. lia.
  - destruct (Z.ltb_spec y limit) as [Hlt|Hge].
    + cbn [length]. unfold BLOCK_SIZE. rewrite wrap_u32_small by lia.
      assert (E : (limit - y + 7) / 8 = (limit - (y + 8) + 7) / 8 + 1).
      { replace (limit - y + 7) with ((limit - (y + 8) + 7) + 1 * 8) by lia.
        apply Z.div_add. lia. }
      rewrite Nat2Z.inj_succ, IH by lia.
      assert (0 <= (limit - (y + 8) + 7) / 8)
        by (apply Z.div_le_lower_bound; lia).
      lia.
    + cbn [length].
      assert ((limit - y + 7) / 8 <= 0); [|lia].
      assert ((limit - y + 7) / 8 < 1); [|lia].
      apply Z.div_lt_upper_bound; lia.
Qed.

Lemma length_blockStarts_all limit :
  0 <= limit -> limit + BLOCK_SIZE <= 2 ^ 32 ->
  Z.of_nat (length (blockStarts (Z.to_nat limit) 0 limit)) = (limit + 7) / 8.
Proof.
  intros H0 Hlim.
  assert (0 <= (limit + 7) / 8) by (apply Z.div_pos; lia).
  assert ((limit + 7) / 8 <= limit).
  { destruct (Z.eq_dec limit 0) as [->|]; [reflexivity|].
    apply Z.lt_succ_r, Z.div_lt_upper_bound; lia. }
  rewrite length_blockStarts; rewrite ?Z.sub_0_r; lia.
Qed.

Lemma length_bind_const {A B} (f : A -> list B) (k : nat) (l : list A) :
  (forall x, length (f x) = k) -> length (l ≫= f) = (length l * k)%nat.
Proof.
  intros Hk. induction l as [|x l IH]; [reflexivity|].
  change ((x :: l) ≫= f) with (f x ++ (l ≫= f)).
  rewrite length_app, Hk, IH. cbn [length]. lia.
Qed.

Lemma length_blockPayloadsFrom rd w h frames :
  length (blockPayloadsFrom rd w h frames)
  = (length (seqZ 0 frames)
     * (length (blockStarts (Z.to_nat h) 0 h)
        * length (blockStarts (Z.to_nat w) 0 w)))%nat.
Proof.
  unfold blockPayloadsFrom.
  apply length_bind_const. intros f.
  apply length_bind_const. intros y.
  rewrite (length_bind_const _ 1%nat); [lia|]. reflexivity.
Qed.

(** X13: [encodeTiles] leaves one index entry per block, and their number
    is [getNumBlocks], as long as the block loops and the product do not
    wrap: dimensions of at most 2^32 - 8 and fewer than 2^32 blocks. *)
Theorem index_has_one_entry_per_block
    (width height frames : Z) (tiles : list Z) :
  0 <= width <= 2 ^ 32 - 8 -> 0 <= height <= 2 ^ 32 - 8 ->
  0 <= frames < 2 ^ 32 ->
  ((width + 7) / 8) * ((height + 7) / 8) * frames < 2 ^ 32 ->
  let e := encodeTiles width height frames tiles in
  Z.of_nat (length (indexResult e)) = getNumBlocks e
  /\ getNumBlocks e = ((width + 7) / 8) * ((height + 7) / 8) * frames
  /\ length (indexResult e) = length (blockPayloads width height frames tiles).
Proof.
  intros Hw Hh Hf Hfit e.
  assert (Hcw : 0 <= (width + 7) / 8 < 2 ^ 32).
  { split; [apply Z.div_pos; lia | apply Z.div_lt_upper_bound; lia]. }
  assert (Hch : 0 <= (height + 7) / 8 < 2 ^ 32).
  { split; [apply Z.div_pos; lia | apply Z.div_lt_upper_bound; lia]. }
  assert (Hnum : getNumBlocks e = (width + 7) / 8 * ((height + 7) / 8) * frames).
  { unfold getNumBlocks, BLOCK_SIZE.
    change (mWidth e) with (wrap_u32 width).
    change (mHeight e) with (wrap_u32 height).
    change (mFrames e) with (wrap_u32 frames).
    rewrite (wrap_u32_small width), (wrap_u32_small height),
      (wrap_u32_small frames) by lia.
    assert (Hsub : forall a, wrap_u32 (wrap_u32 (a + 8) - 1) = wrap_u32 (a + 7)).
    { intros a. unfold wrap_u32. rewrite Zminus_mod_idemp_l. f_equal. lia. }
    rewrite !Hsub.
    rewrite (wrap_u32_small (width + 7)), (wrap_u32_small (height + 7)) by lia.
    destruct (Z.eq_dec frames 0) as [->|Hne].
    { rewrite !Z.mul_0_r. reflexivity. }
    revert Hfit Hcw Hch.
    generalize ((width + 7) / 8), ((height + 7) / 8). intros a b Hfit Ha Hb.
    assert (0 <= a * b) by (apply Z.mul_nonneg_nonneg; lia).
    assert (a * b * 1 <= a * b * frames)
      by (apply Z.mul_le_mono_nonneg_l; lia).
    rewrite (wrap_u32_small (a * b)) by lia.
    apply wrap_u32_small. lia. }
  assert (Hlen : length (indexResult e)
                 = length (blockPayloads width height frames tiles)).
  { destruct (encodeTiles_results width height frames tiles) as [_ Hidx].
    fold e in Hidx. now rewrite Hidx, length_map. }
  split; [|split; [exact Hnum | exact Hlen]].
  rewrite Hnum, Hlen. unfold blockPayloads.
  rewrite length_blockPayloadsFrom, !Nat2Z.inj_mul, length_seqZ.
  rewrite (wrap_u32_small width), (wrap_u32_small height),
    (wrap_u32_small frames) by lia.
  rewrite !length_blockStarts_all by (unfold BLOCK_SIZE; lia).
  rewrite Z2Nat.id by lia. lia.
Qed.

Lemma index_has_one_entry_per_block_witness :
  let e := encodeTiles 20 9 3 [] in
  Z.of_nat (length (indexResult e)) = getNumBlocks e
  /\ getNumBlocks e = ((20 + 7) / 8) * ((9 + 7) / 8) * 3
  /\ length (indexResult e) = length (blockPayloads 20 9 3 []).
Proof.
  apply (index_has_one_entry_per_block 20 9 3 []); try lia.
  reflexivity.
Defined.

(** *** The result vector *)

Lemma length_packWords n : forall l,
  (length l <= n)%nat -> length (packWords l) = Nat.div2 (length l).
Proof.
  induction n as [|n IH]; intros l Hl.
  - destruct l; [reflexivity | cbn in Hl; lia].
  - destruct l as [|lo [|hi rest]]; try reflexivity.
    cbn [packWords length Nat.div2]. f_equal. apply IH.
    cbn [length] in Hl. lia.
Qed.

Lemma length_packedIndex (e : DUBEncoder) :
  Z.of_nat (length (indexResult e)) < 2 ^ 32 - 1 ->
  Z.of_nat (length (packedIndex e)) = getIndexSize e.
Proof.
  intros Hn. unfold packedIndex, getIndexSize.
  rewrite (wrap_u32_small (Z.of_nat _)) by lia.
  destruct (mIndex16 e).
  - rewrite length_map, length_seqZ. lia.
  - rewrite wrap_u32_small by lia.
    set (index8 := map _ _).
    assert (Hlen : length index8 = length (indexResult e))
      by (unfold index8; rewrite length_map, length_seqZ; lia).
    rewrite (length_packWords (S (length index8)))
      by (destruct (Nat.odd _); rewrite ?length_app; cbn [length]; lia).
    destruct (Nat.odd (length index8)) eqn:Hodd.
    + rewrite length_app. cbn [length].
      pose proof (Nat.div2_odd (length index8 + 1)) as Hd.
      rewrite Nat.add_1_r in Hd at 3. rewrite Nat.odd_succ, <- Nat.negb_odd, Hodd in Hd.
      cbn [negb Nat.b2n] in Hd. rewrite <- Hlen. clearbody index8.
      revert Hd. generalize (Nat.div2 (length index8 + 1)). intros d Hd.
      apply Z.div_unique with (r := 0); lia.
    + pose proof (Nat.div2_odd (length index8)) as Hd.
      rewrite Hodd in Hd. cbn [Nat.b2n] in Hd. rewrite <- Hlen. clearbody index8.
      revert Hd. generalize (Nat.div2 (length index8)). intros d Hd.
      apply Z.div_unique with (r := 1); lia.
Qed.

(** X14: [getResult] appends the packed index and then the block data as
    it is; the packed index has [getIndexSize] words, so the assertion in
    [getResult] holds, and the words added are [getCompressedWords] in
    number. *)
Theorem getResult_layout (e : DUBEncoder) (result : list Z) :
  Z.of_nat (length (indexResult e)) < 2 ^ 31 ->
  Z.of_nat (length (blockResult e)) < 2 ^ 31 ->
  getResult e result = result ++ packedIndex e ++ blockResult e
  /\ Z.of_nat (length (packedIndex e)) = getIndexSize e
  /\ Z.of_nat (length (getResult e result))
     = Z.of_nat (length result) + getCompressedWords e.
Proof.
  intros Hn Hb.
  pose proof (length_packedIndex e ltac:(lia)) as Hidx.
  assert (Hres : getResult e result = result ++ packedIndex e ++ blockResult e).
  { unfold getResult, vector_insert.
    rewrite take_ge, drop_ge by lia. now rewrite app_nil_r, app_assoc. }
  split; [exact Hres|]. split; [exact Hidx|].
  rewrite Hres, !length_app, !Nat2Z.inj_add, Hidx.
  unfold getCompressedWords.
  assert (0 <= getIndexSize e < 2 ^ 31).
  { split; [lia|]. unfold getIndexSize.
    rewrite (wrap_u32_small (Z.of_nat _)) by lia.
    destruct (mIndex16 e); [lia|].
    rewrite wrap_u32_small by lia. apply Z.div_lt_upper_bound; lia. }
  rewrite wrap_u32_small by lia. lia.
Qed.

Lemma getResult_layout_witness :
  getResult (encodeTiles 8 8 1 []) [7]
  = [7] ++ packedIndex (encodeTiles 8 8 1 [])
        ++ blockResult (encodeTiles 8 8 1 []).
Proof.
  refine (proj1 (getResult_layout (encodeTiles 8 8 1 []) [7] _ _)).
  - vm_compute. reflexivity.
  - vm_compute. reflexivity.
Defined.

(** *** Following an index entry to its block *)

Lemma nth_packWords : forall k l,
  (2 * k + 1 < length l)%nat ->
  nth k (packWords l) 0
  = wrap_u16 (Z.lor (nth (2 * k) l 0) (Z.shiftl (nth (2 * k + 1) l 0) 8)).
Proof.
  induction k as [|k IH]; intros l Hl.
  - destruct l as [|lo [|hi rest]]; cbn [length] in Hl; try lia. reflexivity.
  - destruct l as [|lo [|hi rest]]; cbn [length] in Hl; try lia.
    cbn [packWords nth]. rewrite IH by lia.
    replace (2 * S k)%nat with (S (S (2 * k))) by lia.
    replace (S (S (2 * k)) + 1)%nat with (S (S (2 * k + 1))) by lia.
    reflexivity.
Qed.

Lemma byte_of_word lo hi :
  0 <= lo < 256 -> 0 <= hi < 256 ->
  let w := wrap_u16 (Z.lor lo (Z.shiftl hi 8)) in
  Z.land (Z.shiftr w (8 * 0)) 255 = lo /\ Z.land (Z.shiftr w (8 * 1)) 255 = hi.
Proof.
  intros Hlo Hhi w. unfold w.
  rewrite lor_shiftl_add by lia. change (2 ^ 8) with 256.
  rewrite wrap_u16_small by lia.
  destruct (field_split lo hi 8 ltac:(lia) ltac:(lia) ltac:(lia)) as [Hl Hh].
  change (2 ^ 8) with 256 in Hl, Hh. change (Z.ones 8) with 255 in Hl.
  change (8 * 0) with 0. change (8 * 1) with 8.
  rewrite Z.shiftr_0_r, Hl, Hh. split; [reflexivity|].
  change 255 with (Z.ones 8). rewrite Z.land_ones by lia.
  apply Z.mod_small. lia.
Qed.

Lemma nth_map_seqZ (g : Z -> Z) (n : Z) (i : nat) :
  Z.of_nat i < n -> nth i (map g (seqZ 0 n)) 0 = g (Z.of_nat i).
Proof.
  intros Hi. apply nth_lookup_Some. change map with (@fmap list _).
  rewrite list_lookup_fmap, lookup_seqZ_lt by lia. reflexivity.
Qed.

Lemma wrap_u8_range z : 0 <= wrap_u8 z < 256.
Proof. unfold wrap_u8. apply Z.mod_pos_bound. lia. Qed.

(** Reading entry [i] back from the packed index. *)
Lemma readIndex_packedIndex (e : DUBEncoder) (rest : list Z) (i : nat) :
  Z.of_nat (length (indexResult e)) < 2 ^ 31 ->
  (i < length (indexResult e))%nat ->
  0 <= packIndex e (Z.of_nat i) < (if mIndex16 e then 65536 else 256) ->
  readIndex (mIndex16 e) (packedIndex e ++ rest) (Z.of_nat i)
  = packIndex e (Z.of_nat i).
Proof.
  intros Hn Hi Hfit. unfold readIndex, packedIndex.
  rewrite (wrap_u32_small (Z.of_nat _)) by lia.
  destruct (mIndex16 e).
  - unfold vec_get. destruct (Z.ltb_spec (Z.of_nat i) 0); [lia|].
    rewrite Nat2Z.id, app_nth1 by (rewrite length_map, length_seqZ; lia).
    rewrite (nth_map_seqZ (fun I => wrap_u16 (packIndex e I))) by lia.
    apply wrap_u16_small. lia.
  - set (index8 := map _ _).
    assert (Hlen : length index8 = length (indexResult e))
      by (unfold index8; rewrite length_map, length_seqZ; lia).
    set (l := if Nat.odd (length index8) then index8 ++ [0] else index8).
    assert (Hl : (length index8 <= length l)%nat /\ Nat.odd (length l) = false).
    { unfold l. destruct (Nat.odd (length index8)) eqn:Hodd; [|split; [lia|exact Hodd]].
      rewrite length_app. cbn [length]. split; [lia|].
      rewrite Nat.add_1_r, Nat.odd_succ, <- Nat.negb_odd, Hodd. reflexivity. }
    assert (Hbytes : forall j, 0 <= nth j l 0 < 256).
    { intros j. destruct (Nat.lt_ge_cases j (length l)) as [Hj|Hj];
        [|rewrite nth_overflow by lia; lia].
      assert (Hin : In (nth j l 0) l) by (apply nth_In; exact Hj).
      unfold l in Hin. 
      assert (Hin' : In (nth j l 0) (index8 ++ [0])).
      { destruct (Nat.odd (length index8)); [exact Hin|].
        apply in_or_app. now left. }
      apply in_app_or in Hin' as [Hin'|[<-|[]]]; [|lia].
      unfold index8 in Hin'. apply in_map_iff in Hin' as (I & <- & _).
      apply wrap_u8_range. }
    assert (Hnth : nth i l 0 = packIndex e (Z.of_nat i)).
    { assert (E : nth i l 0 = nth i index8 0).
      { unfold l. destruct (Nat.odd (length index8)); [|reflexivity].
        apply app_nth1. lia. }
      rewrite E. unfold index8.
      rewrite (nth_map_seqZ (fun I => wrap_u8 (packIndex e I))) by lia.
      unfold wrap_u8. apply Z.mod_small. change (2 ^ 8) with 256. lia. }
    pose proof (Nat.div2_odd i) as Hdiv.
    pose proof (Nat.div2_odd (length l)) as Hdivl.
    rewrite (proj2 Hl) in Hdivl. cbn [Nat.b2n] in Hdivl.
    set (k := Nat.div2 i) in *.
    assert (Hk : (2 * k + 1 < length l)%nat)
      by (destruct (Nat.odd i); cbn [Nat.b2n] in Hdiv; lia).
    assert (Hq : Z.of_nat i / 2 = Z.of_nat k).
    { symmetry. apply Z.div_unique with (r := Z.of_nat (Nat.b2n (Nat.odd i)));
        [destruct (Nat.odd i); cbn; lia | lia]. }
    assert (Hr : Z.of_nat i mod 2 = Z.of_nat (Nat.b2n (Nat.odd i))).
    { symmetry. apply Z.mod_unique with (q := Z.of_nat k);
        [destruct (Nat.odd i); cbn; lia | lia]. }
    rewrite Hq, Hr. unfold vec_get.
    destruct (Z.ltb_spec (Z.of_nat k) 0); [lia|].
    rewrite Nat2Z.id.
    rewrite app_nth1
      by (rewrite (length_packWords (length l)) by lia;
          pose proof (Nat.div2_odd (length l)); lia).
    rewrite nth_packWords by exact Hk.
    destruct (byte_of_word (nth (2 * k) l 0) (nth (2 * k + 1) l 0)
                (Hbytes _) (Hbytes _)) as [H0 H1].
    rewrite <- Hnth.
    destruct (Nat.odd i); cbn [Nat.b2n] in *.
    + change (Z.of_nat 1) with 1. rewrite H1. f_equal. lia.
    + change (Z.of_nat 0) with 0. rewrite H0. f_equal. lia.
Qed.

(** With the 8-bit index chosen by [encodeTiles], every entry fits 8 bits. *)
Lemma index8_entries_fit width height frames tiles (i : Z) :
  let e := encodeTiles width height frames tiles in
  Z.of_nat (length (indexResult e)) < 2 ^ 31 ->
  0 <= i < Z.of_nat (length (indexResult e)) ->
  mIndex16 e = false -> packIndex e i < 256.
Proof.
  intros e Hn Hi H8.
  pose proof (encodeTiles_scan width height frames tiles) as Hscan.
  cbv zeta in Hscan. fold e in Hscan.
  rewrite H8, wrap_u32_small in Hscan by lia.
  assert (He : withIndex16 e false = e) by (rewrite <- H8; now destruct e).
  rewrite He in Hscan.
  destruct (Z.leb_spec 0x100 (packIndex e i)) as [Hge|Hlt]; [|exact Hlt].
  exfalso. symmetry in Hscan. apply Bool.not_true_iff_false in Hscan.
  apply Hscan, existsb_exists. exists i. split.
  - apply list_elem_of_In, elem_of_seqZ. lia.
  - now apply Z.leb_le.
Qed.

(** Where an index entry leads: past the index region, to the offset of
    the payload in the block data. *)
Lemma index_walk (width height frames : Z) (tiles : list Z) (i : nat) (p : list Z) :
  let e := encodeTiles width height frames tiles in
  let res := getResult e [] in
  let us := firstOccurrences (blockPayloads width height frames tiles) in
  Z.of_nat (length (indexResult e)) < 2 ^ 31 ->
  getIndexSize e + Z.of_nat (length (blockResult e)) < 0x10000 ->
  blockPayloads width height frames tiles !! i = Some p ->
  let entry := readIndex (isIndex16 e) res (Z.of_nat i) in
  entry = packIndex e (Z.of_nat i)
  /\ Z.to_nat (nextWord e (Z.of_nat i) + entry)
     = (length (packedIndex e) + Z.to_nat (offsetOf us p))%nat
  /\ res = packedIndex e ++ concat us
  /\ p ∈ us.
Proof.
  intros e res us Hn Hsmall Hp entry.
  destruct (encodeTiles_results width height frames tiles) as [Hb Hidx].
  fold e in Hb, Hidx.
  set (ps := blockPayloads width height frames tiles) in *.
  fold us in Hb, Hidx.
  assert (Hlen : length (indexResult e) = length ps)
    by now rewrite Hidx, length_map.
  assert (Hi : (i < length (indexResult e))%nat)
    by (rewrite Hlen; eapply lookup_lt_Some, Hp).
  assert (Hsize : 0 <= getIndexSize e).
  { unfold getIndexSize. destruct (mIndex16 e); [apply wrap_u32_range|].
    apply Z.div_pos; [apply wrap_u32_range | lia]. }
  assert (Hin : p ∈ us).
  { apply elem_of_firstOccurrences. eapply list_elem_of_lookup_2, Hp. }
  destruct (offsetOf_points us p Hin) as [Hle _].
  pose proof (offsetOf_nonneg us p) as Hoff.
  rewrite <- Hb in Hle.
  assert (Hstored : vec_get 0 (indexResult e) (Z.of_nat i) = offsetOf us p).
  { rewrite (vec_get_lookup 0 _ i (wrap_u16 (offsetOf us p))).
    - apply wrap_u16_small. lia.
    - rewrite Hidx. change map with (@fmap list _).
      now rewrite list_lookup_fmap, Hp. }
  assert (Hpack : nextWord e (Z.of_nat i) <= getIndexSize e
                  /\ 0 <= nextWord e (Z.of_nat i)
                  /\ packIndex e (Z.of_nat i)
                     = getIndexSize e + offsetOf us p - nextWord e (Z.of_nat i)).
  { destruct (mIndex16 e) eqn:H16.
    - destruct (packIndex16_exact e (Z.of_nat i)) as (Hsz & Hnx & Hnle & Hpk);
        [exact H16 | lia | lia | lia |].
      rewrite Hpk, Hsz, Hnx, Hstored. lia.
    - destruct (packIndex8_exact e (Z.of_nat i)) as (Hsz & Hnx & Hnle & Hpk);
        [exact H16 | lia | lia | lia |].
      assert (0 <= (Z.of_nat i + 2) / 2) by (apply Z.div_pos; lia).
      rewrite Hpk, Hstored. rewrite Hnx in *. lia. }
  destruct Hpack as (Hnle & Hn0 & Hpk).
  assert (Hres : res = packedIndex e ++ blockResult e).
  { unfold res, getResult, vector_insert.
    change ([] ++ packedIndex e) with (packedIndex e).
    rewrite take_ge, drop_ge by reflexivity. now rewrite app_nil_r. }
  assert (Hentry : entry = packIndex e (Z.of_nat i)).
  { unfold entry, isIndex16. rewrite Hres.
    apply readIndex_packedIndex; [exact Hn | exact Hi |].
    split; [lia|].
    destruct (mIndex16 e) eqn:H16; [lia|].
    apply (index8_entries_fit width height frames tiles);
      [exact Hn | split; [lia | apply Nat2Z.inj_lt, Hi] | exact H16]. }
  split; [exact Hentry|]. split; [|split; [now rewrite Hres, Hb | exact Hin]].
  rewrite Hentry, Hpk.
  replace (nextWord e (Z.of_nat i)
           + (getIndexSize e + offsetOf us p - nextWord e (Z.of_nat i)))
    with (getIndexSize e + offsetOf us p) by lia.
  rewrite <- (length_packedIndex e) by lia.
  rewrite Z2Nat.inj_add, Nat2Z.id by lia. reflexivity.
Qed.

(** X15: in the result of an encoder that is not too large, the index
    entry of a block, read back from the index region (a word of a 16-bit
    index, a byte of an 8-bit one), plus the position of the word after the
    entry, is the position in the result at which the payload of that block
    lies. *)
Theorem index_entry_leads_to_payload
    (width height frames : Z) (tiles : list Z) (i : nat) (p : list Z) :
  let e := encodeTiles width height frames tiles in
  let res := getResult e [] in
  Z.of_nat (length (indexResult e)) < 2 ^ 31 ->
  getIndexSize e + Z.of_nat (length (blockResult e)) < 0x10000 ->
  blockPayloads width height frames tiles !! i = Some p ->
  let entry := readIndex (isIndex16 e) res (Z.of_nat i) in
  entry = packIndex e (Z.of_nat i)
  /\ take (length p) (drop (Z.to_nat (nextWord e (Z.of_nat i) + entry)) res) = p.
Proof.
  intros e res Hn Hsmall Hp entry.
  destruct (index_walk width height frames tiles i p Hn Hsmall Hp)
    as (Hentry & Hpos & Hres & Hin).
  fold e res entry in Hentry, Hpos, Hres.
  split; [exact Hentry|].
  rewrite Hpos, Hres, drop_app_add.
  apply offsetOf_points, Hin.
Qed.

Lemma index_entry_leads_to_payload_witness :
  let e := encodeTiles 1 1 2 [3; 4] in
  let res := getResult e [] in
  let entry := readIndex (isIndex16 e) res (Z.of_nat 1) in
  entry = packIndex e (Z.of_nat 1)
  /\ take (length (singleTile 4))
       (drop (Z.to_nat (nextWord e (Z.of_nat 1) + entry)) res) = singleTile 4.
Proof.
  apply (index_entry_leads_to_payload 1 1 2 [3; 4] 1 (singleTile 4)).
  - vm_compute. reflexivity.
  - vm_compute. reflexivity.
  - vm_compute. reflexivity.
Defined.

End DUBResult.

(** ** DUB: reading a block back from its words *)

Section DUBBits.
Import DUB.

Lemma low_group v :
  4 * Z.b2z (Z.testbit (Z.land v (Z.ones 3)) 2)
  + 2 * Z.b2z (Z.testbit (Z.land v (Z.ones 3)) 1)
  + Z.b2z (Z.testbit (Z.land v (Z.ones 3)) 0) = v mod 8.
Proof.
  rewrite Z.land_ones by lia. change (2 ^ 3) with 8.
  pose proof (Z.mod_pos_bound v 8 ltac:(lia)) as Hm.
  assert (E : v mod 8 = 0 \/ v mod 8 = 1 \/ v mod 8 = 2 \/ v mod 8 = 3
              \/ v mod 8 = 4 \/ v mod 8 = 5 \/ v mod 8 = 6 \/ v mod 8 = 7) by lia.
  destruct E as [-> | [-> | [-> | [-> | [-> | [-> | [-> | ->]]]]]]]; reflexivity.
Qed.

Lemma parseVar_S g more b2 b1 b0 rest :
  parseVar (S g) (more :: b2 :: b1 :: b0 :: rest)
  = let low := 4 * Z.b2z b2 + 2 * Z.b2z b1 + Z.b2z b0 in
    if more then
      match parseVar g rest with
      | Some (high, rest') => Some (low + 8 * high, rest')
      | None => None
      end
    else Some (low, rest).
Proof. reflexivity. Qed.

Lemma parseVar_varBits g : forall v rest,
  0 <= v < 8 ^ Z.of_nat (S g) ->
  parseVar (S g) (varBits (S g) v ++ rest) = Some (v, rest).
Proof.
  induction g as [|g IH]; intros v rest Hv;
    rewrite varBits_S; cbn [app]; rewrite parseVar_S; cbv zeta;
    rewrite low_group;
    pose proof (Z.div_mod v 8 ltac:(lia)) as Hdm.
  - change (8 ^ Z.of_nat 1) with 8 in Hv.
    pose proof (shiftr3_bounds v 0 1 ltac:(lia)) as Hs.
    destruct (Z.eqb_spec (Z.shiftr v 3) 0) as [E|N]; [|lia].
    rewrite Z.shiftr_div_pow2 in E by lia. change (2 ^ 3) with 8 in E.
    cbn [negb app]. do 2 f_equal. lia.
  - rewrite Nat2Z.inj_succ, Z.pow_succ_r in Hv by lia.
    pose proof (shiftr3_bounds v 0 (8 ^ Z.of_nat (S g)) ltac:(lia)) as Hs.
    destruct (Z.eqb_spec (Z.shiftr v 3) 0) as [E|N]; cbn [negb app].
    + rewrite Z.shiftr_div_pow2 in E by lia. change (2 ^ 3) with 8 in E.
      do 2 f_equal. lia.
    + rewrite IH by lia.
      rewrite Z.shiftr_div_pow2 by lia. change (2 ^ 3) with 8.
      do 2 f_equal. lia.
Qed.

Lemma appendVar_varBits v :
  0 <= v < 2 ^ 32 -> appendVar v 3 [] = varBits 11 v.
Proof. intros Hv. unfold varBits. apply appendVar_32_bits, Hv. Qed.

(** The bits of a code: the header, then the magnitude. *)
Lemma packCode_bits (c : Code) :
  - 2 ^ 32 < value c < 2 ^ 32 ->
  packCode c []
  = match type c with
    | DELTA => [false; value c <? 0] ++ varBits 11 (Z.abs (value c))
    | REF => if value c <? 0 then packCode c [] else [true] ++ varBits 11 (value c)
    | REPEAT => if value c <? 0 then packCode c [] else varBits 11 (value c)
    | INVALID => []
    end.
Proof.
  intros Hv. unfold packCode. cbv zeta.
  destruct (type c); [| | |reflexivity].
  - destruct (Z.ltb_spec (value c) 0).
    + rewrite Z.abs_neq by lia. unfold appendVar.
      rewrite appendVar_loop_app. fold (appendVar (- value c) 3 []).
      rewrite appendVar_varBits by lia. reflexivity.
    + rewrite Z.abs_eq by lia. unfold appendVar.
      rewrite appendVar_loop_app. fold (appendVar (value c) 3 []).
      rewrite appendVar_varBits by lia. reflexivity.
  - destruct (Z.ltb_spec (value c) 0); [reflexivity|].
    unfold appendVar.
    rewrite appendVar_loop_app. fold (appendVar (value c) 3 []).
    rewrite appendVar_varBits by lia. reflexivity.
  - destruct (Z.ltb_spec (value c) 0); [reflexivity|].
    apply appendVar_varBits. lia.
Qed.

Lemma parseVar_11 v rest :
  0 <= v < 2 ^ 32 -> parseVar 11 (varBits 11 v ++ rest) = Some (v, rest).
Proof.
  intros Hv. apply (parseVar_varBits 10).
  change (8 ^ Z.of_nat 11) with (2 ^ 33). lia.
Qed.

Lemma parseCode_packCode (c : Code) (rest : list bool) :
  type c = DELTA /\ - 2 ^ 32 < value c < 2 ^ 32
  \/ type c = REF /\ 0 <= value c < 2 ^ 32 ->
  parseCode (packCode c [] ++ rest) = Some (c, rest).
Proof.
  intros Hc. rewrite packCode_bits by lia.
  destruct c as [t v]. cbn [type value] in *.
  destruct Hc as [[-> Hv] | [-> Hv]].
  - cbn [app parseCode]. rewrite parseVar_11 by lia.
    destruct (Z.ltb_spec v 0); do 3 f_equal; lia.
  - destruct (Z.ltb_spec v 0); [lia|].
    cbn [app parseCode]. now rewrite parseVar_11 by lia.
Qed.

(** X16: the bits that [packCode] writes for a code can be read back
    whatever follows them: the type bit, the sign bit and the groups of a
    DELTA or REF code give the code again, and the groups of a REPEAT code
    give its count. *)
Theorem packCode_reads_back (c : Code) (b rest : list bool) :
  0 <= (if bool_decide (type c = DELTA) then 0 else value c) ->
  - 2 ^ 32 < value c < 2 ^ 32 ->
  exists bs,
    packCode c b = b ++ bs
    /\ match type c with
       | DELTA | REF => parseCode (bs ++ rest) = Some (c, rest)
       | REPEAT => parseVar 11 (bs ++ rest) = Some (value c, rest)
       | INVALID => bs = []
       end.
Proof.
  intros Hpos Hv. exists (packCode c []). split; [apply packCode_app|].
  destruct (type c) eqn:Ht.
  - apply parseCode_packCode. left. split; [exact Ht | exact Hv].
  - apply parseCode_packCode. right. split; [exact Ht|].
    rewrite bool_decide_eq_false_2 in Hpos by discriminate. lia.
  - rewrite bool_decide_eq_false_2 in Hpos by discriminate.
    rewrite packCode_bits, Ht by exact Hv.
    destruct (Z.ltb_spec (value c) 0); [lia|].
    apply parseVar_11. lia.
  - unfold packCode. now rewrite Ht.
Qed.

Lemma packCode_reads_back_witness :
  exists bs,
    packCode (mkCode DELTA (-300)) [true] = [true] ++ bs
    /\ parseCode (bs ++ [true; false]) = Some (mkCode DELTA (-300), [true; false]).
Proof.
  apply (packCode_reads_back (mkCode DELTA (-300)) [true] [true; false]).
  - vm_compute. discriminate.
  - cbn [value]. lia.
Defined.

(** *** Words and bits *)

Lemma bitsOfZ_zero n : bitsOfZ n 0 = replicate n false.
Proof.
  induction n as [|n IH]; [reflexivity|].
  cbn [bitsOfZ replicate]. change (Z.div2 0) with 0. now rewrite IH.
Qed.

Lemma bitsOfZ_word_of_bits n : forall l,
  (length l <= n)%nat ->
  bitsOfZ n (word_of_bits l) = l ++ replicate (n - length l) false.
Proof.
  induction n as [|n IH]; intros l Hl.
  - destruct l; [reflexivity | cbn in Hl; lia].
  - destruct l as [|b l].
    + change (word_of_bits []) with 0. apply bitsOfZ_zero.
    + change (word_of_bits (b :: l)) with (Z.b2z b + 2 * word_of_bits l).
      cbn [bitsOfZ length app]. cbn [length] in Hl.
      rewrite Z.odd_add_mul_2, Z.div2_div, Z.add_b2z_double_div2.
      rewrite IH by lia. f_equal. now destruct b.
Qed.

Lemma bitsOfWords_app a b : bitsOfWords (a ++ b) = bitsOfWords a ++ bitsOfWords b.
Proof. unfold bitsOfWords. apply bind_app. Qed.

Lemma bitsOfWords_one w : bitsOfWords [w] = bitsOfZ 16 w.
Proof.
  unfold bitsOfWords. change ([w] ≫= bitsOfZ 16) with (bitsOfZ 16 w ++ []).
  apply app_nil_r.
Qed.

(** The final flush leaves the buffered bits, padded with zeros. *)
Lemma bitsOfWords_flush n : forall b into,
  (length b <= n)%nat ->
  exists pad,
    bitsOfWords (flush true b into).2
    = bitsOfWords into ++ b ++ replicate pad false.
Proof.
  induction n as [n IH] using lt_wf_ind. intros b into Hn.
  destruct (Nat.le_gt_cases 16 (length b)) as [Hge|Hlt].
  - pose proof (flush_true_step b [] into Hge) as Hstep.
    rewrite !app_nil_r in Hstep. rewrite Hstep.
    destruct (IH (length (drop 16 b)) ltac:(rewrite length_drop; lia)
                 (drop 16 b) (into ++ [word_of_bits (take 16 b)]) ltac:(lia))
      as [pad Hpad].
    exists pad. rewrite Hpad, bitsOfWords_app, bitsOfWords_one.
    rewrite bitsOfZ_word_of_bits by (rewrite length_take; lia).
    rewrite length_take, Nat.min_l by lia. cbn [replicate Nat.sub].
    rewrite app_nil_r, <- !app_assoc, (app_assoc (take 16 b)), take_drop.
    reflexivity.
  - unfold flush. rewrite flush_words_short by exact Hlt.
    destruct b as [|x b].
    + exists 0%nat. cbn [snd replicate app]. now rewrite app_nil_r.
    + exists (16 - length (x :: b))%nat. cbn [snd].
      rewrite bitsOfWords_app, bitsOfWords_one.
      now rewrite bitsOfZ_word_of_bits by lia.
Qed.

(** *** The tiles of a block from its words *)

Lemma decodeBits_S fuel total bs prev dict :
  decodeBits (S fuel) total bs prev dict
  = if (total <=? length dict)%nat then Some dict else
    match parseCode bs with
    | None => None
    | Some (c, rest) =>
        if bool_decide (c = prev) then
          match parseVar 11 rest with
          | None => None
          | Some (n, rest') =>
              decodeBits fuel total rest' c
                (applyCode (Z.to_nat n) c (dict ++ [decodeCode dict c]))
          end
        else decodeBits fuel total rest c (dict ++ [decodeCode dict c])
    end.
Proof. reflexivity. Qed.

Lemma packCodes_cons_app c cs pad :
  packCodes (c :: cs) [] ++ pad = packCode c [] ++ (packCodes cs [] ++ pad).
Proof.
  rewrite packCodes_cons, packCodes_app. now rewrite app_assoc.
Qed.

Lemma parse_repeat n rest :
  0 <= n < 2 ^ 31 ->
  parseVar 11 (packCode (mkCode REPEAT (wrap_s32 n)) [] ++ rest) = Some (n, rest).
Proof.
  intros Hn. rewrite wrap_s32_small by lia.
  rewrite packCode_bits by (cbn [value]; lia). cbn [type value].
  destruct (Z.ltb_spec n 0); [lia|]. apply parseVar_11. lia.
Qed.

Lemma last_in_range (dict : list Z) :
  Forall (fun t => 0 <= t < 65536) dict -> 0 <= List.last dict 0 < 65536.
Proof.
  induction 1 as [|x l Hx Hl IH]; [cbn; lia|].
  destruct l; [exact Hx | exact IH].
Qed.

(** The codes chosen by [findBestCode] fit the 32 bits of [appendVar]. *)
Lemma findBestCode_fits dict tile :
  Forall (fun t => 0 <= t < 65536) dict -> 0 <= tile < 65536 ->
  Z.of_nat (length dict) < 2 ^ 31 ->
  let c := findBestCode dict tile in
  type c = DELTA /\ - 2 ^ 32 < value c < 2 ^ 32
  \/ type c = REF /\ 0 <= value c < 2 ^ 32.
Proof.
  intros Hd Ht Hlen c. unfold c. rewrite findBestCode_unfold.
  destruct (scanRef_spec dict tile (deltaCode dict tile)
              (codeLen (deltaCode dict tile))
              (seqZ 0 (Z.of_nat (length dict))))
    as [->|(Hty & Hin & _ & _)].
  - left. pose proof (last_in_range dict Hd) as Hl.
    unfold deltaCode. destruct dict; cbn [type value]; split;
      try reflexivity; lia.
  - right. split; [exact Hty|].
    apply list_elem_of_In, elem_of_seqZ in Hin. lia.
Qed.

Lemma decodeBits_blockCodesFrom pad : forall ts st fuel total,
  Forall (fun t => 0 <= t < 65536) ts ->
  Forall (fun t => 0 <= t < 65536) (dict st) ->
  0 <= (if repeating st then repeatCount st else 0) ->
  (if repeating st then repeatCount st else 0) + Z.of_nat (length ts) < 2 ^ 31 ->
  Z.of_nat total < 2 ^ 31 ->
  total = (length (dict st) + length ts)%nat ->
  (length ts < fuel)%nat ->
  let bs := packCodes (blockCodesFrom st ts) [] ++ pad in
  (repeating st = false ->
     decodeBits fuel total bs (prevCode st) (dict st) = Some (dict st ++ ts))
  /\ (repeating st = true -> forall D,
        dict st = applyCode (Z.to_nat (repeatCount st)) (prevCode st) D ->
        match parseVar 11 bs with
        | Some (n, rest') =>
            decodeBits fuel total rest' (prevCode st)
              (applyCode (Z.to_nat n) (prevCode st) D)
        | None => None
        end = Some (dict st ++ ts)).
Proof.
  induction ts as [|t ts IH];
    intros st fuel total Hts Hdr Hc0 Hcount Htot Htotal Hfuel bs; subst bs.
  - cbn [blockCodesFrom length] in *. rewrite Nat.add_0_r in Htotal.
    destruct fuel as [|fuel]; [lia|].
    split; intros Hrep; rewrite Hrep in *.
    + cbn [packCodes fold_left app]. rewrite decodeBits_S.
      rewrite (proj2 (Nat.leb_le _ _)) by lia. now rewrite app_nil_r.
    + intros D HD. rewrite packCodes_cons_app, parse_repeat by lia.
      rewrite <- HD, decodeBits_S.
      rewrite (proj2 (Nat.leb_le _ _)) by lia. now rewrite app_nil_r.
  - inversion Hts as [|? ? Ht Hts']; subst.
    pose proof (findBestCode_decodes (dict st) t Ht) as Hdec.
    pose proof (findBestCode_fits (dict st) t Hdr Ht ltac:(lia)) as Hfit.
    cbv zeta in Hfit.
    pose proof (encodeTile_fields st t) as Hf. cbv zeta in Hf.
    destruct Hf as (Hdict & Hprev & Hrun).
    cbn [blockCodesFrom]. rewrite tileCodes_cases. cbv zeta.
    set (code := findBestCode (dict st) t) in *.
    set (st' := encodeTile st t) in *.
    assert (Happ : dict st ++ t :: ts = dict st' ++ ts)
      by (rewrite Hdict, <- app_assoc; reflexivity).
    assert (Hdr' : Forall (fun t => 0 <= t < 65536) (dict st')).
    { rewrite Hdict. apply Forall_app_2; [exact Hdr|]. now repeat constructor. }
    assert (Htotal' : (length (dict st) + length (t :: ts))%nat
                      = (length (dict st') + length ts)%nat).
    { rewrite Hdict, length_app. cbn [length]. lia. }
    assert (Hgo : (length (dict st) + length (t :: ts) <=? length (dict st))%nat
                  = false) by (apply Nat.leb_gt; cbn [length]; lia).
    cbn [length] in Hcount, Hfuel.
    split; intros Hrep; rewrite Hrep in *.
    + destruct fuel as [|fuel]; [lia|].
      cbn [app]. rewrite packCodes_cons_app, decodeBits_S, Hgo.
      rewrite parseCode_packCode by exact Hfit.
      rewrite Hdec, Happ.
      destruct (bool_decide (code = prevCode st)) eqn:Hsame.
      * destruct Hrun as [Hrep' Hcnt'].
        destruct (IH st' fuel (length (dict st) + length (t :: ts))%nat Hts' Hdr')
          as [_ IHrun]; try (rewrite Hrep', Hcnt'; lia); try lia.
        rewrite <- Hprev. apply (IHrun Hrep').
        rewrite Hcnt'. cbn [Z.to_nat applyCode]. exact Hdict.
      * destruct (IH st' fuel (length (dict st) + length (t :: ts))%nat Hts' Hdr')
          as [IHplain _]; try (rewrite Hrun; lia); try lia.
        rewrite <- Hprev, <- Hdict. apply (IHplain Hrun).
    + intros D HD. destruct (bool_decide (code = prevCode st)) eqn:Hsame.
      * apply bool_decide_eq_true_1 in Hsame.
        destruct Hrun as [Hrep' Hcnt']. cbn [app].
        rewrite wrap_u32_small in Hcnt' by lia.
        destruct (IH st' fuel (length (dict st) + length (t :: ts))%nat Hts' Hdr')
          as [_ IHrun]; try (rewrite Hrep', Hcnt'; lia); try lia.
        rewrite Happ, <- Hsame, <- Hprev. apply (IHrun Hrep').
        rewrite Hcnt'.
        rewrite Z2Nat.inj_add by lia. change (Z.to_nat 1) with 1%nat.
        rewrite Nat.add_1_r, applyCode_snoc, Hprev, Hsame, <- HD, <- Hsame.
        rewrite Hdec. exact Hdict.
      * destruct fuel as [|fuel]; [lia|].
        cbn [app]. rewrite packCodes_cons_app, parse_repeat by lia.
        rewrite <- HD, packCodes_cons_app, decodeBits_S, Hgo.
        rewrite parseCode_packCode by exact Hfit.
        rewrite Hsame, Hdec, Happ.
        destruct (IH st' fuel (length (dict st) + length (t :: ts))%nat Hts' Hdr')
          as [IHplain _]; try (rewrite Hrun; lia); try lia.
        rewrite <- Hprev, <- Hdict. apply (IHplain Hrun).
Qed.

(** The words of a block, followed by any other words, give its tiles. *)
Lemma decodeBlock_payload (ts more : list Z) :
  Forall (fun t => 0 <= t < 65536) ts ->
  Z.of_nat (length ts) < 2 ^ 31 ->
  decodeBlock (length ts) (encodeTileList ts ++ more) = Some ts.
Proof.
  intros Hts Hlen. unfold decodeBlock, encodeTileList.
  rewrite finishBlock_codes. cbn [initBlock bits data].
  destruct (bitsOfWords_flush
              (length (packCodes (blockCodesFrom initBlock ts) []))
              (packCodes (blockCodesFrom initBlock ts) []) [] ltac:(lia))
    as [pad Hpad].
  rewrite bitsOfWords_app, Hpad.
  change (bitsOfWords []) with (@nil bool). cbn [app].
  rewrite <- app_assoc.
  destruct (decodeBits_blockCodesFrom
              (replicate pad false ++ bitsOfWords more) ts initBlock
              (S (length ts)) (length ts) Hts) as [H _];
    cbn [initBlock dict repeating length]; try lia; try constructor.
  exact (H eq_refl).
Qed.

Lemma blockTiles_in_range pTopLeft mWidth width height :
  Forall (fun t => 0 <= t < 65536) (blockTiles pTopLeft mWidth width height).
Proof.
  apply Forall_forall. intros t Hin. unfold blockTiles in Hin.
  apply list_elem_of_bind in Hin as (y & Hin & _).
  apply list_elem_of_bind in Hin as (x & Hin & _).
  apply list_elem_of_singleton in Hin. subst t. apply wrap_u16_range.
Qed.

(** X17: the words of a block give its tiles back: a decoder that is told
    the number of tiles, reads the words bit 0 first, and parses DELTA, REF
    and REPEAT codes as [packCode] lays them out, rebuilds the tiles that
    [encodeBlock] was given, whatever zero padding ends the last word. *)
Theorem encodeBlock_round_trip (pTopLeft : Z -> Z) (mWidth width height : Z) :
  let tiles := blockTiles pTopLeft mWidth width height in
  Z.of_nat (length tiles) < 2 ^ 31 ->
  decodeBlock (length tiles) (encodeBlock pTopLeft mWidth width height)
  = Some tiles.
Proof.
  intros tiles Hlen.
  pose proof (decodeBlock_payload tiles []
                (blockTiles_in_range pTopLeft mWidth width height) Hlen) as H.
  rewrite app_nil_r in H. exact H.
Qed.

Lemma encodeBlock_round_trip_witness :
  decodeBlock (length (blockTiles (fun k => k / 3) 4 4 2))
    (encodeBlock (fun k => k / 3) 4 4 2)
  = Some (blockTiles (fun k => k / 3) 4 4 2).
Proof.
  apply (encodeBlock_round_trip (fun k => k / 3) 4 4 2).
  vm_compute. reflexivity.
Defined.

(** *** The whole stream *)

Lemma map_bind {A B C} (g : B -> C) (f : A -> list B) (l : list A) :
  map g (l ≫= f) = l ≫= (fun x => map g (f x)).
Proof.
  induction l as [|x l IH]; [reflexivity|].
  change ((x :: l) ≫= f) with (f x ++ (l ≫= f)).
  rewrite map_app, IH. reflexivity.
Qed.

Lemma blockPayloadsFrom_tiles rd w h frames :
  blockPayloadsFrom rd w h frames
  = map encodeTileList (blockTilesFrom rd w h frames).
Proof.
  unfold blockPayloadsFrom, blockTilesFrom.
  rewrite map_bind. apply list_bind_ext; [|reflexivity]. intros f.
  rewrite map_bind. apply list_bind_ext; [|reflexivity]. intros y.
  rewrite map_bind. apply list_bind_ext; [|reflexivity]. intros x.
  reflexivity.
Qed.

Lemma length_blockTiles pTopLeft mWidth width height :
  length (blockTiles pTopLeft mWidth width height)
  = (Z.to_nat height * Z.to_nat width)%nat.
Proof.
  unfold blockTiles.
  rewrite (length_bind_const _ (Z.to_nat width)), length_seqZ; [reflexivity|].
  intros y. rewrite (length_bind_const _ 1%nat), length_seqZ; [lia|].
  reflexivity.
Qed.

(** The blocks of [encodeTiles] have at most 8 by 8 tiles, all 16-bit. *)
Lemma blockTilesFrom_small rd w h frames ts :
  ts ∈ blockTilesFrom rd w h frames ->
  Forall (fun t => 0 <= t < 65536) ts /\ (length ts <= 64)%nat.
Proof.
  intros Hin. unfold blockTilesFrom in Hin.
  apply list_elem_of_bind in Hin as (f & Hin & _).
  apply list_elem_of_bind in Hin as (y & Hin & _).
  apply list_elem_of_bind in Hin as (x & Hin & _).
  apply list_elem_of_singleton in Hin. subst ts.
  split; [apply blockTiles_in_range|].
  rewrite length_blockTiles. unfold BLOCK_SIZE.
  assert (Z.to_nat (Z.min 8 (wrap_u32 (h - y))) <= 8)%nat by lia.
  assert (Z.to_nat (Z.min 8 (wrap_u32 (w - x))) <= 8)%nat by lia.
  nia.
Qed.

(** X18: the stream is lossless: in the result of an encoder that is not
    too large, following the index entry of a block and decoding from the
    word it leads to, with the number of tiles of the block, gives the tiles
    of that block, whether or not the block shares its payload with others
    and whatever follows it in the stream. *)
Theorem stream_round_trip
    (width height frames : Z) (tiles : list Z) (i : nat) (ts : list Z) :
  let e := encodeTiles width height frames tiles in
  let res := getResult e [] in
  Z.of_nat (length (indexResult e)) < 2 ^ 31 ->
  isTooLarge e = false ->
  Z.of_nat (length (blockResult e)) < 2 ^ 31 ->
  blockTileLists width height frames tiles !! i = Some ts ->
  let pos := nextWord e (Z.of_nat i) + readIndex (isIndex16 e) res (Z.of_nat i) in
  decodeBlock (length ts) (drop (Z.to_nat pos) res) = Some ts.
Proof.
  intros e res Hn Hfits Hblocks Hts pos.
  assert (Hsize : 0 <= getIndexSize e < 2 ^ 31).
  { unfold getIndexSize. rewrite (wrap_u32_small (Z.of_nat _)) by lia.
    destruct (mIndex16 e); [lia|]. rewrite wrap_u32_small by lia.
    split; [apply Z.div_pos; lia | apply Z.div_lt_upper_bound; lia]. }
  assert (Hsmall : getIndexSize e + Z.of_nat (length (blockResult e)) < 0x10000)
    by (apply isTooLarge_false; [lia | lia | exact Hfits]).
  assert (Hp : blockPayloads width height frames tiles !! i
               = Some (encodeTileList ts)).
  { unfold blockPayloads. rewrite blockPayloadsFrom_tiles.
    change map with (@fmap list _). rewrite list_lookup_fmap.
    unfold blockTileLists in Hts. now rewrite Hts. }
  destruct (index_walk width height frames tiles i (encodeTileList ts)
              Hn Hsmall Hp) as (_ & Hpos & Hres & Hin).
  fold e res pos in Hpos, Hres.
  destruct (offsetOf_points _ _ Hin) as [_ Htake].
  assert (Hmem : ts ∈ blockTilesFrom (vec_get 0 tiles) (wrap_u32 width)
                        (wrap_u32 height) (wrap_u32 frames))
    by (unfold blockTileLists in Hts; exact (list_elem_of_lookup_2 _ i ts Hts)).
  destruct (blockTilesFrom_small (vec_get 0 tiles) (wrap_u32 width)
              (wrap_u32 height) (wrap_u32 frames) ts Hmem) as [Hrange Hlen].
  rewrite Hpos, Hres, drop_app_add.
  rewrite <- (take_drop (length (encodeTileList ts)) (drop _ (concat _))), Htake.
  apply decodeBlock_payload; [exact Hrange | lia].
Qed.

Lemma stream_round_trip_witness :
  let e := encodeTiles 1 1 2 [3; 4] in
  let res := getResult e [] in
  let pos := nextWord e (Z.of_nat 1) + readIndex (isIndex16 e) res (Z.of_nat 1) in
  decodeBlock (length [4]) (drop (Z.to_nat pos) res) = Some [4].
Proof.
  apply (stream_round_trip 1 1 2 [3; 4] 1 [4]).
  - vm_compute. reflexivity.
  - vm_compute. reflexivity.
  - vm_compute. reflexivity.
  - vm_compute. reflexivity.
Defined.

End DUBBits.
